(** * Data preparation pipeline of [src/mlops/src/data.py]

    A shallow embedding of the loader, the stratified splitter, the text
    cleaner, the batch encoder and the stateful preprocessor, followed by the
    properties established about them.

    Conventions of the embedding.
    - Text is a [string] of ASCII characters (code points below 128); inside
      the cleaner it is handled as a [list ascii].  Character classes are the
      ones Python's [re] and [str] use on that range.  Code points from 128
      on are treated as symbols that are neither letters, digits nor
      whitespace.
    - A stopword is a literal word: it is spliced into the stopword pattern
      as it is, so the embedding covers stopwords free of regular-expression
      metacharacters.
    - A table (pandas frame, Ray dataset) is the list of its rows and a row
      is a finite map from column names to cells.
    - Library calls whose result is not fixed by the source (reading a file,
      shuffling, the subword vocabulary, the split of one group) are fields
      of records of external operations; what the theorems need from them is
      stated as a contract. *)

From Stdlib Require Import Ascii String NArith QArith Qround Lia Lqa.
From stdpp Require Import base option list gmap strings sorting.

Local Open Scope string_scope.
Local Open Scope nat_scope.
Local Open Scope list_scope.

(** ** Characters *)

Module Chars.

Definition code (c : ascii) : N := N_of_ascii c.

Definition in_range (lo hi : N) (c : ascii) : bool :=
  ((lo <=? code c) && (code c <=? hi))%N.

Definition is_upper (c : ascii) : bool := in_range 65 90 c.
Definition is_lower (c : ascii) : bool := in_range 97 122 c.
Definition is_digit (c : ascii) : bool := in_range 48 57 c.

(** The class [[A-Za-z0-9]]. *)
Definition is_alnum (c : ascii) : bool := is_upper c || is_lower c || is_digit c.

(** The class [\w] on ASCII: letters, digits and the underscore.  On a
    character outside ASCII the class of Python has letters that this one
    has not. *)
Definition is_word (c : ascii) : bool := is_alnum c || Ascii.eqb c "_".

(** The class [\s], which is also what [str.strip()] removes: tab, line
    feed, vertical tab, form feed, carriage return, the four separators
    0x1c..0x1f, and the space. *)
Definition is_space (c : ascii) : bool :=
  in_range 9 13 c || in_range 28 31 c || Ascii.eqb c " ".

(** The bracketed class of line 54: the 32 ASCII punctuation characters.
    The range written between the comma and the full stop is the three
    characters comma, hyphen and full stop.  The double quote is given by
    its code, 34. *)
Definition punctuation : list ascii :=
  "!"%char :: ascii_of_N 34 ::
  list_ascii_of_string "'#$%&()*+,-./:;<=>?@\[]^_`{|}~".

Definition is_punct (c : ascii) : bool := existsb (Ascii.eqb c) punctuation.

(** [str.lower()] on one ASCII character. *)
Definition lower_char (c : ascii) : ascii :=
  if is_upper c then ascii_of_N (code c + 32) else c.

Definition space : ascii := " "%char.

(** A character of the ASCII range, on which the classes above are those
    of Python. *)
Definition is_ascii (c : ascii) : bool := (code c <? 128)%N.

End Chars.

(** ** Regular-expression substitution *)

Module Re.
Import Chars.

(** A compiled pattern is represented by its matcher: given whether the
    match must be non-empty, the character before the position (needed by
    [\b] only) and the text from the position on, it returns the length of
    the match the backtracking engine finds there, if any. *)
Definition matcher : Type := bool → option ascii → list ascii → option nat.

(** [re.sub(pattern, repl, text)].  The text is scanned from the left.  At
    each position the pattern is tried; a match is replaced by [repl]
    applied to the matched text and the scan resumes after it; otherwise
    the character is copied.  An empty match is replaced too, and the next
    attempt, at the same position, must then be non-empty (CPython's
    [must_advance]).  The pattern is tried once more at the end of the
    text.  [skip] counts the characters of the current match still to be
    dropped; [prev] is the character before the position. *)
Fixpoint sub_from (m : matcher) (repl : list ascii → list ascii)
    (prev : option ascii) (skip : nat) (s : list ascii) : list ascii :=
  match s with
  | [] =>
      match skip with
      | O => match m false prev [] with Some _ => repl [] | None => [] end
      | S _ => []
      end
  | c :: s' =>
      match skip with
      | S k => sub_from m repl (Some c) k s'
      | O =>
          let copy := c :: sub_from m repl (Some c) 0 s' in
          let replace k := repl (take (S k) s) ++ sub_from m repl (Some c) k s' in
          match m false prev s with
          | None => copy
          | Some (S k) => replace k
          | Some O =>
              repl [] ++
              match m true prev s with
              | Some (S k) => replace k
              | _ => copy
              end
          end
      end
  end.

Definition sub (m : matcher) (repl : list ascii → list ascii)
    (s : list ascii) : list ascii :=
  sub_from m repl None 0 s.

(** Length of the longest prefix whose characters all satisfy [p]: what a
    greedy [p*] consumes. *)
Fixpoint span_length (p : ascii → bool) (s : list ascii) : nat :=
  match s with
  | c :: s' => if p c then S (span_length p s') else 0
  | [] => 0
  end.

(** [strip_prefix w s] is the rest of [s] after the literal [w]. *)
Fixpoint strip_prefix (w s : list ascii) : option (list ascii) :=
  match w, s with
  | [], _ => Some s
  | a :: w', b :: s' => if Ascii.eqb a b then strip_prefix w' s' else None
  | _ :: _, [] => None
  end.

(** [\b]: exactly one of the two neighbours is a word character; a missing
    neighbour (start or end of the text) counts as a non-word one. *)
Definition word_boundary (prev next : option ascii) : bool :=
  xorb (from_option is_word false prev) (from_option is_word false next).

(** The character before the position reached after reading [w]. *)
Definition last_char (prev : option ascii) (w : list ascii) : option ascii :=
  match last w with Some c => Some c | None => prev end.

(** One alternative [w] of the group, followed by [\b\s*]. *)
Definition match_alt (must_advance : bool) (prev : option ascii)
    (s w : list ascii) : option nat :=
  match strip_prefix w s with
  | Some s' =>
      if word_boundary (last_char prev w) (head s') then
        let n := length w + span_length is_space s' in
        if must_advance && Nat.eqb n 0 then None else Some n
      else None
  | None => None
  end.

(** The alternatives are tried in the order of the list; the first one
    that leads to a match wins. *)
Fixpoint match_alts (must_advance : bool) (prev : option ascii)
    (s : list ascii) (alts : list (list ascii)) : option nat :=
  match alts with
  | [] => None
  | w :: alts' =>
      match match_alt must_advance prev s w with
      | Some n => Some n
      | None => match_alts must_advance prev s alts'
      end
  end.

(** The alternatives of the group: joining no stopword at all with [|]
    gives the empty string, so the group then has the single, empty,
    alternative.  The stopwords are words to be matched as they are
    written: none holds a character that has a meaning of its own in a
    pattern. *)
Definition alternatives (stopwords : list string) : list (list ascii) :=
  match stopwords with
  | [] => [[]]
  | _ => list_ascii_of_string <$> stopwords
  end.

(** The pattern [\b(w1|...|wn)\b\s*] for given alternatives. *)
Definition alternation_pattern (alts : list (list ascii)) : matcher :=
  λ must_advance prev s,
    if word_boundary prev (head s)
    then match_alts must_advance prev s alts
    else None.

(** Line 51. *)
Definition stopword_pattern (stopwords : list string) : matcher :=
  alternation_pattern (alternatives stopwords).

(** A pattern [p+] for a character class [p]. *)
Definition plus_pattern (p : ascii → bool) : matcher :=
  λ _ _ s, match span_length p s with O => None | n => Some n end.

(** Line 54: one character of the punctuation class, captured. *)
Definition punct_pattern : matcher :=
  λ _ _ s, match s with c :: _ => if is_punct c then Some 1 else None | [] => None end.

(** Line 55: [[^A-Za-z0-9]+]. *)
Definition nonalnum_pattern : matcher := plus_pattern (λ c, negb (is_alnum c)).

(** Line 56: one or more spaces. *)
Definition spaces_pattern : matcher := plus_pattern (λ c, Ascii.eqb c space).

(** Line 58: [http\S+]. *)
Definition url_pattern : matcher :=
  λ _ _ s,
    match strip_prefix (list_ascii_of_string "http") s with
    | Some s' =>
        match span_length (λ c, negb (is_space c)) s' with
        | O => None
        | n => Some (4 + n)
        end
    | None => None
    end.

End Re.

(** ** The text cleaner *)

Module Cleaner.
Import Chars Re.

(** [str.lower()]. *)
Definition lower (s : list ascii) : list ascii := lower_char <$> s.

(** [str.strip()]: whitespace is dropped at the left end, then, by the
    same scan of the reversed text, at the right end. *)
Fixpoint lstrip (s : list ascii) : list ascii :=
  match s with
  | c :: s' => if is_space c then lstrip s' else s
  | [] => []
  end.

Definition strip (s : list ascii) : list ascii :=
  reverse (lstrip (reverse (lstrip s))).

(** The replacement [" \1 "] of line 54. *)
Definition spaced (m : list ascii) : list ascii := space :: m ++ [space].

Definition remove_stopwords (stopwords : list string) (s : list ascii) : list ascii :=
  sub (stopword_pattern stopwords) (λ _, [space]) s.

Definition space_punctuation (s : list ascii) : list ascii :=
  sub punct_pattern spaced s.

Definition remove_nonalnum (s : list ascii) : list ascii :=
  sub nonalnum_pattern (λ _, [space]) s.

Definition collapse_spaces (s : list ascii) : list ascii :=
  sub spaces_pattern (λ _, [space]) s.

Definition remove_urls (s : list ascii) : list ascii :=
  sub url_pattern (λ _, []) s.

(** Lines 49 to 57: everything up to the removal of links. *)
Definition normalise (stopwords : list string) (s : list ascii) : list ascii :=
  strip (collapse_spaces (remove_nonalnum (space_punctuation
    (remove_stopwords stopwords (lower s))))).

Definition clean_chars (stopwords : list string) (s : list ascii) : list ascii :=
  remove_urls (normalise stopwords s).

(** [clean_text(text, stopwords)], lines 48 to 60. *)
Definition clean_text (text : string) (stopwords : list string) : string :=
  string_of_list_ascii (clean_chars stopwords (list_ascii_of_string text)).

End Cleaner.

(** ** Words of a text *)

Module Words.
Import Chars.

(** The current word, if there is one, is complete. *)
Definition emit (cur : list ascii) : list (list ascii) :=
  match cur with [] => [] | _ => [cur] end.

(** The maximal runs of [p]-characters of [cur ++ s], where [cur] is the
    part, made of such characters, of the run that is being read. *)
Fixpoint fields_from (p : ascii → bool) (cur s : list ascii) : list (list ascii) :=
  match s with
  | [] => emit cur
  | c :: s' =>
      if p c then fields_from p (cur ++ [c]) s'
      else emit cur ++ fields_from p [] s'
  end.

Definition fields (p : ascii → bool) (s : list ascii) : list (list ascii) :=
  fields_from p [] s.

(** Words joined by single spaces. *)
Fixpoint unwords (ws : list (list ascii)) : list ascii :=
  match ws with
  | [] => []
  | [w] => w
  | w :: ws' => w ++ space :: unwords ws'
  end.

(** The space-separated tokens of a string, as [str.split()] gives them
    for a text whose only whitespace is the space. *)
Definition tokens (s : string) : list string :=
  string_of_list_ascii <$>
    fields (λ c, negb (Ascii.eqb c space)) (list_ascii_of_string s).

(** [needle] occurs in [hay] as a contiguous substring. *)
Definition contains (needle hay : string) : Prop :=
  ∃ l r, list_ascii_of_string hay
         = l ++ list_ascii_of_string needle ++ r.

End Words.

(** ** Tables *)

Module Table.

(** A cell of a table: a string, a number, or a missing value (pandas'
    NaN, Python's [None]). *)
Inductive cell : Type :=
  | Str (s : string)
  | Num (n : Z)
  | Null.

#[export] Instance cell_eq_dec : EqDecision cell.
Proof. solve_decision. Defined.

(** A row maps the names of its columns to cells; a column that the table
    does not have is a name without a binding. *)
Abbreviation row := (gmap string cell).

(** [df[name]]: the cells of one column; it fails when the column is
    missing. *)
Definition column (name : string) (df : list row) : option (list cell) :=
  mapM (λ r : row, r !! name) df.

(** A Python [dict]: the bindings in insertion order.  Assigning to a key
    that is present replaces its value in place; a new key is appended. *)
Definition dict (K V : Type) : Type := list (K * V).

Fixpoint dict_set {K V} `{EqDecision K} (k : K) (v : V) (d : dict K V) : dict K V :=
  match d with
  | [] => [(k, v)]
  | (k', v') :: d' =>
      if decide (k = k') then (k', v) :: d' else (k', v') :: dict_set k v d'
  end.

Fixpoint dict_get {K V} `{EqDecision K} (k : K) (d : dict K V) : option V :=
  match d with
  | [] => None
  | (k', v') :: d' => if decide (k = k') then Some v' else dict_get k d'
  end.

(** [{k: v for k, v in items}]. *)
Definition dict_of_items {K V} `{EqDecision K} (items : list (K * V)) : dict K V :=
  foldl (λ d kv, dict_set kv.1 kv.2 d) [] items.

(** [enumerate(l)]. *)
Definition enumerate {A} (l : list A) : list (nat * A) := imap (λ i x, (i, x)) l.

End Table.

(** ** External operations *)

Module External.
Import Table.

(** The operations of the distributed dataset engine that the module
    calls. *)
Record Engine : Type := {
  (** [ray.data.read_csv(loc)]: the records of the source. *)
  read_csv : string → list row;
  (** [ds.random_shuffle(seed=seed)]. *)
  random_shuffle : Z → list row → list row;
  (** [ds.unique(column)], on the cells of the column. *)
  unique : list cell → list cell;
  (** The order in which [groupby] enumerates the keys it found. *)
  group_order : list cell → list cell;
  (** The batches in which [map_batches] presents a dataset. *)
  batches : list row → list (list row);
}.

(** What the engine guarantees: shuffling and the enumeration of groups
    permute, [unique] lists every value once, and the batches hold the
    rows of the dataset, each once; the order of the batches and of the
    rows across them is not fixed. *)
Record EngineOk (E : Engine) : Prop := {
  random_shuffle_perm : ∀ seed ds, random_shuffle E seed ds ≡ₚ ds;
  unique_NoDup : ∀ l, NoDup (unique E l);
  unique_elem : ∀ l x, x ∈ unique E l ↔ x ∈ l;
  group_order_perm : ∀ ks, group_order E ks ≡ₚ ks;
  batches_concat : ∀ ds, concat (batches E ds) ≡ₚ ds;
}.

(** [sklearn.model_selection.train_test_split(df, test_size, shuffle,
    random_state)], which may raise. *)
Definition Splitter : Type :=
  Q → bool → Z → list row → option (list row * list row).

(** The relative error allowed for the product of the fraction and the
    number of rows, which the library computes in double precision:
    [2^-50], more than the rounding of the product and of a decimal
    fraction to a double take together. *)
Definition float_slack : Q := 1 # 1125899906842624.

(** When it returns, its two results hold the rows of its argument.  The
    number of test rows is the product of the fraction and the number of
    rows, computed in double precision and rounded up: it differs from the
    exact product by less than one row, up to the error of the
    floating-point product. *)
Record SplitterOk (split : Splitter) : Prop := {
  split_perm : ∀ ts sh seed df train test,
    split ts sh seed df = Some (train, test) → train ++ test ≡ₚ df;
  split_size : ∀ ts sh seed df train test,
    split ts sh seed df = Some (train, test) →
    (ts * inject_Z (Z.of_nat (length df)) - 1
       - ts * inject_Z (Z.of_nat (length df)) * float_slack
     < inject_Z (Z.of_nat (length test)))%Q ∧
    (inject_Z (Z.of_nat (length test))
     < ts * inject_Z (Z.of_nat (length df)) + 1
       + ts * inject_Z (Z.of_nat (length df)) * float_slack)%Q;
}.

(** It raises rather than return an empty train part, and its test part,
    a positive number of rows rounded up, is not empty either. *)
Definition SplitterNonEmpty (split : Splitter) : Prop :=
  ∀ ts sh seed df train test,
    split ts sh seed df = Some (train, test) → train ≠ [] ∧ test ≠ [].

(** The pretrained subword tokenizer: the ids of one text, special tokens
    included, and the id used for padding. *)
Record Tokenizer : Type := {
  encode : string → list nat;
  pad_token_id : nat;
}.

End External.

(** ** Loader *)

Module Loader.
Import Table External.

(** [load_data], lines 14 to 18.  A sample count is a natural number;
    [None] is the default of the parameter.  The conditional expression of
    line 17 tests the truth value of [num_samples]. *)
Definition load_data (E : Engine) (dataset_loc : string)
    (num_samples : option nat) : list row :=
  let ds := read_csv E dataset_loc in
  let ds := random_shuffle E 1234 ds in
  match num_samples with
  | Some (S n) => take (S n) ds
  | Some O | None => ds
  end.

End Loader.

(** ** Stratified splitter *)

Module Split.
Import Table External.

Section stratify_split.
Context (E : Engine) (train_test_split : Splitter).
Context (stratify : string) (test_size : Q) (shuffle : bool) (seed : Z).

(** Lines 28 to 32. *)
Definition _add_split (df : list row) : option (list row) :=
  '(train, test) ← train_test_split test_size shuffle seed df;
  let train := (λ r : row, <["_split" := Str "train"]> r) <$> train in
  let test := (λ r : row, <["_split" := Str "test"]> r) <$> test in
  Some (train ++ test).

(** Lines 34 and 35. *)
Definition _filter_split (split : string) (df : list row) : list row :=
  (λ r : row, delete "_split" r) <$>
    filter (λ r : row, r !! "_split" = Some (Str split)) df.

(** [ds.groupby(key)]: one group for each value found in the column,
    holding the rows with that value. *)
Definition groupby (key : string) (ds : list row) : option (list (list row)) :=
  keys ← column key ds;
  Some ((λ k, filter (λ r : row, r !! key = Some k) ds) <$>
          group_order E (remove_dups keys)).

(** [.map_groups(fn)]: the results for the groups, put together. *)
Definition map_groups (fn : list row → option (list row))
    (groups : list (list row)) : option (list row) :=
  results ← mapM fn groups;
  Some (concat results).

(** [ds.map_batches(fn)]. *)
Definition map_batches (fn : list row → list row) (ds : list row) : list row :=
  concat (fn <$> batches E ds).

(** Lines 38 to 45. *)
Definition stratify_split (ds : list row) : option (list row * list row) :=
  grouped ← groupby stratify ds ≫= map_groups _add_split;
  let train_ds := map_batches (_filter_split "train") grouped in
  let test_ds := map_batches (_filter_split "test") grouped in
  let train_ds := random_shuffle E seed train_ds in
  let test_ds := random_shuffle E seed test_ds in
  Some (train_ds, test_ds).
End stratify_split.

End Split.

(** ** Batch encoder *)

Module Encoder.
Import Table External Cleaner.

(** The encoded batch returned by [tokenize]. *)
Record outputs : Type := {
  ids : list (list nat);
  masks : list (list nat);
  targets : list cell;
}.

(** [tokenizer(texts, return_tensors=np, padding=longest)]: every text is
    encoded, then padded on the right to the longest sequence of the
    batch; the mask has a 1 for each token and a 0 for each pad. *)
Definition longest (seqs : list (list nat)) : nat := max_list (length <$> seqs).

Definition pad (n x : nat) (l : list nat) : list nat :=
  l ++ replicate (n - length l) x.

Definition attention (n : nat) (l : list nat) : list nat :=
  replicate (length l) 1 ++ replicate (n - length l) 0.

Definition input_ids (T : Tokenizer) (texts : list string) : list (list nat) :=
  let seqs := encode T <$> texts in
  pad (longest seqs) (pad_token_id T) <$> seqs.

Definition attention_mask (T : Tokenizer) (texts : list string) : list (list nat) :=
  let seqs := encode T <$> texts in
  attention (longest seqs) <$> seqs.

Definition as_text (c : cell) : option string :=
  match c with Str s => Some s | _ => None end.

(** [tokenize], lines 63 to 66.  A batch is a frame with at least one
    record; on a frame without records the call of the tokenizer raises,
    a case that the embedding leaves out. *)
Definition tokenize (T : Tokenizer) (batch : list row) : option outputs :=
  texts ← column "text" batch ≫= mapM as_text;
  tags ← column "tag" batch;
  Some {| ids := input_ids T texts;
          masks := attention_mask T texts;
          targets := tags |}.

(** [a + b] on the cells of two string columns. *)
Definition concat_cells (a b : cell) : option cell :=
  match a, b with
  | Str x, Str y => Some (Str (x +:+ y))
  | _, _ => None
  end.

(** [series.map(class_to_index)]: a value that is not a key becomes
    missing. *)
Definition map_cell (class_to_index : dict cell nat) (c : cell) : cell :=
  match dict_get c class_to_index with
  | Some i => Num (Z.of_nat i)
  | None => Null
  end.

Section preprocess.
Context (T : Tokenizer) (STOPWORDS : list string).

(** Line 70. *)
Definition add_text (r : row) : option row :=
  title ← r !! "title";
  description ← r !! "description";
  text ← concat_cells title (Str " ") ≫= λ t, concat_cells t description;
  Some (<["text" := text]> r).

(** Line 71; [clean_text] takes its default stopword list. *)
Definition clean_row (r : row) : option row :=
  text ← r !! "text" ≫= as_text;
  Some (<["text" := Str (clean_text text STOPWORDS)]> r).

(** Line 72. *)
Definition drop_columns (r : row) : row :=
  delete "description" (delete "title" (delete "created_on" (delete "id" r))).

(** Line 73. *)
Definition select_columns (r : row) : option row :=
  text ← r !! "text";
  tag ← r !! "tag";
  Some (<["tag" := tag]> (<["text" := text]> ∅)).

(** Line 74. *)
Definition map_tag (class_to_index : dict cell nat) (r : row) : option row :=
  tag ← r !! "tag";
  Some (<["tag" := map_cell class_to_index tag]> r).

(** [preprocess], lines 69 to 76. *)
Definition preprocess (df : list row) (class_to_index : dict cell nat)
    : option outputs :=
  df ← mapM add_text df;
  df ← mapM clean_row df;
  let df := drop_columns <$> df in
  df ← mapM select_columns df;
  df ← mapM (map_tag class_to_index) df;
  tokenize T df.
End preprocess.

End Encoder.

(** ** Stateful preprocessor *)

Module Preprocessor.
Import Table External Encoder.

Record CustomPreprocessor : Type := {
  class_to_index : dict cell nat;
  index_to_class : dict nat cell;
}.

(** [{v: k for k, v in d.items()}]. *)
Definition inverse (d : dict cell nat) : dict nat cell :=
  dict_of_items ((λ kv, (kv.2, kv.1)) <$> d).

(** [__init__], lines 80 to 82. *)
Definition init (class_to_index : dict cell nat) : CustomPreprocessor :=
  {| class_to_index := class_to_index; index_to_class := inverse class_to_index |}.

(** [fit], lines 84 to 88. *)
Definition fit (E : Engine) (self : CustomPreprocessor) (ds : list row)
    : option CustomPreprocessor :=
  tags ← unique E <$> column "tag" ds;
  let class_to_index := dict_of_items ((λ it, (it.2, it.1)) <$> enumerate tags) in
  Some {| class_to_index := class_to_index;
          index_to_class := inverse class_to_index |}.

(** [transform], lines 90 and 91: one encoded batch per batch that the
    engine presents; the engine fixes neither the batches nor their
    order. *)
Definition transform (E : Engine) (T : Tokenizer) (STOPWORDS : list string)
    (self : CustomPreprocessor) (ds : list row) : option (list outputs) :=
  mapM (λ b, preprocess T STOPWORDS b (class_to_index self)) (batches E ds).

End Preprocessor.

(** * Properties *)

(** ** Characters *)

Module CharsFacts.
Import Chars.

Ltac by_cases_on c :=
  destruct c as [[] [] [] [] [] [] [] []]; vm_compute; try discriminate; try reflexivity; auto.

Lemma alnum_not_space c : is_alnum c = true → is_space c = false.
Proof. by_cases_on c. Qed.

Lemma alnum_not_punct c : is_alnum c = true → is_punct c = false.
Proof. by_cases_on c. Qed.

Lemma alnum_is_word c : is_alnum c = true → is_word c = true.
Proof. by_cases_on c. Qed.

Lemma space_not_word c : is_space c = true → is_word c = false.
Proof. by_cases_on c. Qed.

Lemma word_not_alnum c : is_word c = true → is_alnum c = false → c = "_"%char.
Proof. by_cases_on c. Qed.

Lemma punct_not_alnum c : is_punct c = true → is_alnum c = false.
Proof. by_cases_on c. Qed.

Lemma lower_char_not_upper c : is_upper (lower_char c) = false.
Proof. by_cases_on c. Qed.

Lemma lower_char_fixed c : is_upper c = false → lower_char c = c.
Proof. unfold lower_char. by intros ->. Qed.

Lemma space_is_space : is_space space = true.
Proof. reflexivity. Qed.

Lemma space_not_alnum : is_alnum space = false.
Proof. reflexivity. Qed.

Lemma eqb_space c : Ascii.eqb c space = true ↔ c = space.
Proof. apply Ascii.eqb_eq. Qed.

End CharsFacts.

(** ** Substitution *)

Module ReFacts.
Import Chars Re CharsFacts.

Section sub.
Context (m : matcher) (repl : list ascii → list ascii).

(** One step of the scan at a position that is not inside a match. *)
Lemma sub_from_cons (prev : option ascii) (c : ascii) (s : list ascii) :
  sub_from m repl prev 0 (c :: s)
  = match m false prev (c :: s) with
    | None => c :: sub_from m repl (Some c) 0 s
    | Some (S k) => repl (take (S k) (c :: s)) ++ sub_from m repl (Some c) k s
    | Some O =>
        repl [] ++
        match m true prev (c :: s) with
        | Some (S k) => repl (take (S k) (c :: s)) ++ sub_from m repl (Some c) k s
        | _ => c :: sub_from m repl (Some c) 0 s
        end
    end.
Proof. reflexivity. Qed.

Lemma sub_from_nil (prev : option ascii) :
  sub_from m repl prev 0 []
  = match m false prev [] with Some _ => repl [] | None => [] end.
Proof. reflexivity. Qed.

(** Dropping the rest of a match leads to the position after it. *)
Lemma sub_from_skip (prev : option ascii) (k : nat) (s : list ascii) :
  k ≤ length s →
  sub_from m repl prev k s = sub_from m repl (last_char prev (take k s)) 0 (drop k s).
Proof.
  revert prev k. induction s as [|c s IH]; intros prev k Hk.
  - destruct k; [done | simpl in Hk; lia].
  - destruct k as [|k]; [by rewrite take_0, drop_0|]. simpl in Hk. simpl sub_from.
    rewrite IH by lia. f_equal. unfold last_char.
    rewrite last_cons. by destruct (last (take k s)).
Qed.

(** The characters of the result satisfy a property that holds for the
    characters of the text and is kept by the replacement. *)
Lemma sub_from_Forall (P : ascii → Prop) (prev : option ascii) (k : nat)
    (s : list ascii) :
  (∀ w, Forall P w → Forall P (repl w)) →
  Forall P s → Forall P (sub_from m repl prev k s).
Proof.
  intros Hrepl. revert prev k. induction s as [|c s IH]; intros prev k Hs.
  - simpl. destruct k; [|done]. destruct (m false prev []); [|done].
    by apply Hrepl.
  - apply Forall_cons in Hs as [Hc Hs]. simpl.
    destruct k as [|k]; [|by apply IH].
    assert (∀ j, Forall P (repl (take (S j) (c :: s)) ++ sub_from m repl (Some c) j s))
      as Hreplace.
    { intros j. apply Forall_app. split; [|by apply IH].
      apply Hrepl, Forall_take. by constructor. }
    assert (Forall P (c :: sub_from m repl (Some c) 0 s)) as Hcopy.
    { constructor; [done | by apply IH]. }
    destruct (m false prev (c :: s)) as [[|j]|];
      [|apply Hreplace | exact Hcopy].
    apply Forall_app. split; [by apply Hrepl|].
    destruct (m true prev (c :: s)) as [[|j]|];
      [exact Hcopy | apply Hreplace | exact Hcopy].
Qed.
End sub.

(** A pattern that finds no non-empty match at any position of [s]. *)
Fixpoint no_match_from (m : matcher) (prev : option ascii) (s : list ascii) : bool :=
  match m true prev s with
  | Some _ => false
  | None =>
      match s with
      | [] => true
      | c :: s' => no_match_from m (Some c) s'
      end
  end.

Lemma no_match_from_cons (m : matcher) (prev : option ascii) (c : ascii)
    (s : list ascii) :
  no_match_from m prev (c :: s)
  = match m true prev (c :: s) with
    | Some _ => false
    | None => no_match_from m (Some c) s
    end.
Proof. reflexivity. Qed.

Lemma no_match_from_drop (m : matcher) (prev : option ascii) (s : list ascii)
    (n : nat) :
  no_match_from m prev s = true → n ≤ length s →
  no_match_from m (last_char prev (take n s)) (drop n s) = true.
Proof.
  revert prev n. induction s as [|c s IH]; intros prev n Hq Hn.
  - by destruct n.
  - destruct n as [|n]; [done|]. simpl in Hn, Hq.
    destruct (m true prev (c :: s)); [done|].
    specialize (IH (Some c) n Hq ltac:(lia)). simpl drop.
    replace (last_char prev (take (S n) (c :: s)))
      with (last_char (Some c) (take n s)); [done|].
    unfold last_char. simpl take. rewrite last_cons.
    by destruct (last (take n s)).
Qed.

(** A word without a space that can be read, letter by letter but not
    necessarily in one piece, in the result of a substitution by spaces
    can be read in the text. *)
Lemma sublist_drop_space (w out : list ascii) :
  Forall (λ c, c ≠ space) w → w `sublist_of` space :: out → w `sublist_of` out.
Proof.
  intros Hw [?|(w' & -> & _)]%sublist_cons_r; [done|].
  by apply Forall_cons in Hw as [? _].
Qed.

Lemma sub_from_sublist (m : matcher) (w : list ascii) (prev : option ascii)
    (k : nat) (s : list ascii) :
  Forall (λ c, c ≠ space) w →
  w `sublist_of` sub_from m (λ _, [space]) prev k s → w `sublist_of` s.
Proof.
  revert w prev k. induction s as [|c s IH]; intros w prev k Hw.
  - simpl. destruct k; [|done]. destruct (m false prev []); [|done].
    intros ?%sublist_drop_space; done.
  - destruct k as [|k]; [|intros ?%IH; [by apply sublist_cons | done]].
    rewrite sub_from_cons.
    assert (∀ j, w `sublist_of` [space] ++ sub_from m (λ _, [space]) (Some c) j s →
                 w `sublist_of` c :: s) as Hreplace.
    { intros j ?%sublist_drop_space; [|done]. apply sublist_cons. by eapply IH. }
    assert (w `sublist_of` c :: sub_from m (λ _, [space]) (Some c) 0 s →
            w `sublist_of` c :: s) as Hcopy.
    { intros [?|(w' & -> & ?)]%sublist_cons_r.
      - apply sublist_cons. by eapply IH.
      - apply Forall_cons in Hw as [_ Hw]. apply sublist_skip. by eapply IH. }
    destruct (m false prev (c :: s)) as [[|j]|]; [|apply Hreplace | apply Hcopy].
    intros H%sublist_drop_space; [|done]. revert H.
    destruct (m true prev (c :: s)) as [[|j]|];
      [apply Hcopy | apply Hreplace | apply Hcopy].
Qed.

(** *** Patterns made of one character class *)

(** Replacing every maximal run of [p]-characters by one space;
    [in_run] tells that the position is inside a run already replaced. *)
Fixpoint squeeze (p : ascii → bool) (in_run : bool) (s : list ascii) : list ascii :=
  match s with
  | [] => []
  | c :: s' =>
      if p c then (if in_run then squeeze p true s' else space :: squeeze p true s')
      else c :: squeeze p false s'
  end.

Lemma squeeze_in (p : ascii → bool) (b : bool) (c : ascii) (s : list ascii) :
  p c = true →
  squeeze p b (c :: s) = (if b then [] else [space]) ++ squeeze p true s.
Proof. simpl. intros ->. by destruct b. Qed.

Lemma squeeze_out (p : ascii → bool) (b : bool) (c : ascii) (s : list ascii) :
  p c = false → squeeze p b (c :: s) = c :: squeeze p false s.
Proof. simpl. by intros ->. Qed.

Lemma sub_plus_pattern (p : ascii → bool) (prev : option ascii) (s : list ascii) :
  sub_from (plus_pattern p) (λ _, [space]) prev 0 s = squeeze p false s ∧
  sub_from (plus_pattern p) (λ _, [space]) prev (span_length p s) s = squeeze p true s.
Proof.
  revert prev. induction s as [|c s IH]; intros prev; [done|].
  assert (sub_from (plus_pattern p) (λ _, [space]) prev 0 (c :: s)
          = squeeze p false (c :: s)) as H0.
  { simpl. unfold plus_pattern at 1. simpl. destruct (p c).
    - simpl. f_equal. apply IH.
    - f_equal. apply IH. }
  split; [done|]. simpl span_length. simpl squeeze.
  destruct (p c) eqn:Hp.
  - simpl. apply IH.
  - rewrite H0. simpl. by rewrite Hp.
Qed.

End ReFacts.

(** ** Words of a text *)

Module WordsFacts.
Import Chars Words CharsFacts.

Section fields.
Context (p : ascii → bool).

(** A word: not empty, made of [p]-characters. *)
Definition word (w : list ascii) : Prop := w ≠ [] ∧ Forall (λ c, p c = true) w.

Lemma fields_from_app (cur w s : list ascii) :
  Forall (λ c, p c = true) w →
  fields_from p cur (w ++ s) = fields_from p (cur ++ w) s.
Proof.
  revert cur. induction w as [|c w IH]; intros cur Hw; simpl.
  - by rewrite app_nil_r.
  - apply Forall_cons in Hw as [-> Hw]. rewrite IH by done.
    by rewrite <- (assoc_L (++)).
Qed.

Lemma fields_from_sep (cur : list ascii) (c : ascii) (s : list ascii) :
  p c = false → fields_from p cur (c :: s) = emit cur ++ fields p s.
Proof. simpl. by intros ->. Qed.

Lemma emit_words (cur : list ascii) :
  Forall (λ c, p c = true) cur → Forall word (emit cur).
Proof.
  intros Hcur. destruct cur as [|c cur]; simpl; [constructor|].
  constructor; [by split | constructor].
Qed.

Lemma fields_from_words (cur s : list ascii) :
  Forall (λ c, p c = true) cur → Forall word (fields_from p cur s).
Proof.
  revert cur. induction s as [|c s IH]; intros cur Hcur; simpl.
  - by apply emit_words.
  - destruct (p c) eqn:Hc.
    + apply IH, Forall_app. split; [done|]. by repeat constructor.
    + apply Forall_app. split; [by apply emit_words | by apply IH].
Qed.

Lemma fields_words (s : list ascii) : Forall word (fields p s).
Proof. by apply fields_from_words. Qed.

(** The current word comes first in the result. *)
Lemma fields_from_cur (cur s : list ascii) :
  cur ≠ [] →
  ∃ w ws, fields_from p cur s = (cur ++ w) :: ws.
Proof.
  revert cur. induction s as [|c s IH]; intros cur Hcur; simpl.
  - exists [], []. rewrite app_nil_r. by destruct cur.
  - destruct (p c).
    + destruct (IH (cur ++ [c])) as (w & ws & ->); [by destruct cur|].
      exists (c :: w), ws. by rewrite <- (assoc_L (++)).
    + exists [], (fields_from p [] s). rewrite app_nil_r. by destruct cur.
Qed.

Lemma unwords_cons (w : list ascii) (ws : list (list ascii)) :
  ws ≠ [] → unwords (w :: ws) = w ++ space :: unwords ws.
Proof. by destruct ws. Qed.

(** Splitting words that were joined by spaces gives the words back. *)
Lemma fields_from_unwords (cur : list ascii) (ws : list (list ascii)) :
  p space = false →
  Forall word ws →
  fields_from p cur (unwords ws)
  = match ws with [] => emit cur | w :: ws' => (cur ++ w) :: ws' end.
Proof.
  intros Hsp Hws. revert cur.
  induction Hws as [|w ws [Hne Hw] Hws IH]; intros cur; [done|].
  destruct ws as [|w' ws'].
  - simpl. rewrite <- (app_nil_r w) at 1. rewrite fields_from_app by done.
    simpl. destruct cur, w; done.
  - rewrite unwords_cons by done. rewrite fields_from_app by done.
    rewrite fields_from_sep by done. unfold fields. rewrite IH. simpl.
    destruct cur, w; done.
Qed.

Lemma fields_unwords (ws : list (list ascii)) :
  p space = false → Forall word ws → fields p (unwords ws) = ws.
Proof.
  intros Hsp Hws. unfold fields. rewrite fields_from_unwords by done.
  by destruct ws.
Qed.
End fields.

(** Two classes that agree on the characters of a text give the same
    words. *)
Lemma fields_from_ext (p q : ascii → bool) (cur s : list ascii) :
  Forall (λ c, p c = q c) s → fields_from p cur s = fields_from q cur s.
Proof.
  revert cur. induction s as [|c s IH]; intros cur Hs; [done|].
  apply Forall_cons in Hs as [Hc Hs]. simpl. rewrite Hc.
  by rewrite !IH.
Qed.

(** The characters of joined words are those of the words, and spaces. *)
Lemma unwords_Forall (P : ascii → Prop) (ws : list (list ascii)) :
  P space → Forall (Forall P) ws → Forall P (unwords ws).
Proof.
  intros Hsp. induction 1 as [|w ws Hw Hws IH]; [done|].
  destruct ws; [done|]. rewrite unwords_cons by done.
  apply Forall_app. split; [done|]. by constructor.
Qed.

(** Whether the letters of [w] can be read in [s], in this order. *)
Fixpoint subseq (w s : list ascii) {struct s} : bool :=
  match w, s with
  | [], _ => true
  | _ :: _, [] => false
  | a :: w', c :: s' => if Ascii.eqb a c then subseq w' s' else subseq w s'
  end.

Lemma subseq_tail (a : ascii) (w s : list ascii) :
  subseq (a :: w) s = true → subseq w s = true.
Proof.
  revert a w. induction s as [|c s IH]; intros a w; [done|].
  simpl. intros H. destruct w as [|b w]; [done|].
  assert (subseq (b :: w) s = true) as Hbw.
  { destruct (Ascii.eqb a c); [done | by apply (IH a)]. }
  destruct (Ascii.eqb b c); [by apply (IH b) | done].
Qed.

Lemma subseq_complete (w s : list ascii) :
  w `sublist_of` s → subseq w s = true.
Proof.
  induction 1 as [|x l1 l2 _ IH|x l1 l2 _ IH]; [done| |].
  - simpl. by rewrite Ascii.eqb_refl.
  - destruct l1 as [|a l1]; [done|]. simpl.
    destruct (Ascii.eqb a x); [by apply (subseq_tail a) | done].
Qed.

Lemma fields_from_sublist (p : ascii → bool) (cur s : list ascii) :
  concat (fields_from p cur s) `sublist_of` cur ++ s.
Proof.
  revert cur. induction s as [|c s IH]; intros cur; simpl.
  - rewrite app_nil_r. destruct cur; simpl; [done|]. by rewrite app_nil_r.
  - destruct (p c).
    + rewrite (cons_middle c cur s), (assoc_L (++)). apply IH.
    + rewrite concat_app. apply sublist_app.
      * destruct cur; simpl; [done|]. by rewrite app_nil_r.
      * apply sublist_cons, (IH []).
Qed.

Lemma unwords_sublist (w : list ascii) (ws : list (list ascii)) :
  Forall (λ c, c ≠ space) w →
  w `sublist_of` unwords ws → w `sublist_of` concat ws.
Proof.
  revert w. induction ws as [|v ws IH]; intros w Hw; [done|].
  destruct ws as [|v' ws]; [simpl; by rewrite app_nil_r|].
  rewrite unwords_cons by done.
  intros (l1 & l2 & -> & H1 & H2)%sublist_app_r.
  apply Forall_app in Hw as [_ Hw2].
  change (concat (v :: v' :: ws)) with (v ++ concat (v' :: ws)).
  apply sublist_app; [done|]. apply IH; [done|].
  revert H2. intros [?|(w' & -> & _)]%sublist_cons_r; [done|].
  by apply Forall_cons in Hw2 as [? _].
Qed.

(** A word without a space that can be read in the joined words of a
    text can be read in the text. *)
Lemma unwords_fields_sublist (p : ascii → bool) (w s : list ascii) :
  Forall (λ c, c ≠ space) w →
  w `sublist_of` unwords (fields p s) → w `sublist_of` s.
Proof.
  intros Hw H%unwords_sublist; [|done].
  etrans; [exact H|]. apply (fields_from_sublist p []).
Qed.

(** *** Pieces of a text *)

(** [w] occurs in [s] in one piece. *)
Definition piece (w s : list ascii) : Prop := ∃ l r, s = l ++ w ++ r.

Lemma piece_refl (w : list ascii) : piece w w.
Proof. exists [], []. by rewrite app_nil_r. Qed.

Lemma piece_app_l (w l s : list ascii) : piece w s → piece w (l ++ s).
Proof. intros (l' & r & ->). exists (l ++ l'), r. by rewrite <- (assoc_L (++)). Qed.

Lemma piece_app_r (w s r : list ascii) : piece w s → piece w (s ++ r).
Proof.
  intros (l & r' & ->). exists l, (r' ++ r). by rewrite <- !(assoc_L (++)).
Qed.

Lemma piece_trans (u w s : list ascii) : piece u w → piece w s → piece u s.
Proof.
  intros (l & r & ->) (l' & r' & ->).
  by apply piece_app_l, piece_app_r, piece_app_l, piece_app_r, piece_refl.
Qed.

Lemma piece_sublist (w s : list ascii) : piece w s → w `sublist_of` s.
Proof. intros (l & r & ->). by apply sublist_inserts_l, sublist_inserts_r. Qed.

(** A piece that does not hold the character [x] lies on one side of
    it. *)
Lemma piece_app_sep (w a : list ascii) (x : ascii) (b : list ascii) :
  x ∉ w → piece w (a ++ x :: b) → piece w a ∨ piece w b.
Proof.
  intros Hx (l & r & Heq). symmetry in Heq.
  apply app_eq_inv in Heq as [(k & -> & Hk)|(k & -> & Hk)].
  - destruct k as [|y k]; simpl in Hk.
    + destruct w as [|y w]; [left; by exists a, []; rewrite app_nil_r|].
      injection Hk as -> _. exfalso. apply Hx. left.
    + injection Hk as -> ->. right. by exists k, r.
  - apply app_eq_inv in Hk as [(k2 & -> & Hk)|(k2 & -> & Hk)].
    + left. destruct k2 as [|y k2]; simpl in Hk.
      * exists l, []. by rewrite !app_nil_r.
      * injection Hk as -> _. exfalso. apply Hx, elem_of_app. right. left.
    + left. by exists l, k2.
Qed.

(** A piece without a space of words joined by spaces lies in one of the
    words. *)
Lemma piece_unwords (w : list ascii) (ws : list (list ascii)) :
  w ≠ [] → space ∉ w → piece w (unwords ws) → ∃ v, v ∈ ws ∧ piece w v.
Proof.
  intros Hne Hsp. induction ws as [|v ws IH].
  - intros (l & r & Heq). simpl in Heq. symmetry in Heq.
    apply app_eq_nil in Heq as [_ [? _]%app_eq_nil]. done.
  - destruct ws as [|v' ws].
    + intros H. exists v. split; [left | done].
    + rewrite unwords_cons by done.
      intros [H|H]%piece_app_sep; [| |done].
      * exists v. split; [left | done].
      * destruct (IH H) as (u & Hu & Hp). exists u. split; [by right | done].
Qed.

End WordsFacts.

(** ** Steps of the cleaner *)

Module StepsFacts.
Import Chars Re Cleaner Words CharsFacts ReFacts WordsFacts.

Definition nonalnum (c : ascii) : bool := negb (is_alnum c).
Definition is_sp (c : ascii) : bool := Ascii.eqb c space.

(** Line 54, directly. *)
Fixpoint spacing (s : list ascii) : list ascii :=
  match s with
  | [] => []
  | c :: s' =>
      if is_punct c then space :: c :: space :: spacing s' else c :: spacing s'
  end.

Lemma space_punctuation_spacing (s : list ascii) : space_punctuation s = spacing s.
Proof.
  unfold space_punctuation, sub. generalize (@None ascii).
  induction s as [|c s IH]; intros prev; [done|].
  rewrite sub_from_cons. unfold punct_pattern at 1. simpl spacing.
  destruct (is_punct c); [|by rewrite IH].
  rewrite IH. reflexivity.
Qed.

Lemma remove_nonalnum_squeeze (s : list ascii) :
  remove_nonalnum s = squeeze nonalnum false s.
Proof. apply sub_plus_pattern. Qed.

Lemma collapse_spaces_squeeze (s : list ascii) :
  collapse_spaces s = squeeze is_sp false s.
Proof. apply sub_plus_pattern. Qed.

(** The spaces put around punctuation vanish in the runs that line 55
    replaces. *)
Lemma squeeze_spacing (b : bool) (s : list ascii) :
  squeeze nonalnum b (spacing s) = squeeze nonalnum b s.
Proof.
  revert b. induction s as [|c s IH]; intros b; [done|]. simpl spacing.
  destruct (is_alnum c) eqn:Hc.
  - rewrite (alnum_not_punct c Hc).
    rewrite !(squeeze_out nonalnum _ c) by (unfold nonalnum; by rewrite Hc).
    by rewrite IH.
  - assert (nonalnum c = true) as Hn by (unfold nonalnum; by rewrite Hc).
    rewrite (squeeze_in nonalnum b c s Hn).
    destruct (is_punct c); [|by rewrite (squeeze_in nonalnum b c _ Hn), IH].
    rewrite (squeeze_in nonalnum b space) by done.
    rewrite (squeeze_in nonalnum true c _ Hn).
    rewrite (squeeze_in nonalnum true space) by done.
    by rewrite IH.
Qed.

(** After line 55 no two spaces are adjacent: line 56 changes nothing. *)
Lemma squeeze_collapse (b : bool) (s : list ascii) :
  squeeze is_sp b (squeeze nonalnum b s) = squeeze nonalnum b s.
Proof.
  revert b. induction s as [|c s IH]; intros b; [done|].
  destruct (is_alnum c) eqn:Hc.
  - rewrite (squeeze_out nonalnum b c) by (unfold nonalnum; by rewrite Hc).
    assert (is_sp c = false) as Hs.
    { unfold is_sp. destruct (Ascii.eqb_spec c space) as [->|]; [|done].
      by rewrite space_not_alnum in Hc. }
    by rewrite (squeeze_out is_sp b c _ Hs), IH.
  - rewrite (squeeze_in nonalnum b c) by (unfold nonalnum; by rewrite Hc).
    destruct b; simpl app; [apply IH|].
    rewrite (squeeze_in is_sp false space) by done. simpl app. by rewrite IH.
Qed.

(** The words of a text joined by single spaces, read off directly.
    [st] is 0 before the first word, 1 inside a word, 2 after a word. *)
Fixpoint norm (st : nat) (s : list ascii) : list ascii :=
  match s with
  | [] => []
  | c :: s' =>
      if is_alnum c then
        match st with
        | 2 => space :: c :: norm 1 s'
        | _ => c :: norm 1 s'
        end
      else
        match st with
        | 0 => norm 0 s'
        | _ => norm 2 s'
        end
  end.

Lemma norm_pending (s : list ascii) :
  norm 2 s = match norm 0 s with [] => [] | r => space :: r end.
Proof.
  induction s as [|c s IH]; [done|]. simpl. by destruct (is_alnum c).
Qed.

Lemma lstrip_squeeze (s : list ascii) :
  lstrip (squeeze nonalnum true s) = squeeze nonalnum true s ∧
  lstrip (squeeze nonalnum false s) = squeeze nonalnum true s.
Proof.
  induction s as [|c s [IH1 IH2]]; [done|].
  destruct (is_alnum c) eqn:Hc.
  - rewrite !(squeeze_out nonalnum _ c) by (unfold nonalnum; by rewrite Hc).
    simpl. by rewrite (alnum_not_space c Hc).
  - rewrite !(squeeze_in nonalnum _ c) by (unfold nonalnum; by rewrite Hc).
    simpl. by rewrite IH1.
Qed.

(** Stripping at the right end, read from the left. *)
Definition rstrip (s : list ascii) : list ascii := reverse (lstrip (reverse s)).

Lemma lstrip_snoc (s : list ascii) (c : ascii) :
  lstrip (s ++ [c])
  = match lstrip s with [] => lstrip [c] | r => r ++ [c] end.
Proof.
  induction s as [|a s IH]; [done|]. simpl.
  destruct (is_space a); [exact IH | done].
Qed.

Lemma rstrip_cons (c : ascii) (s : list ascii) :
  rstrip (c :: s)
  = match rstrip s with
    | [] => if is_space c then [] else [c]
    | r => c :: r
    end.
Proof.
  unfold rstrip. rewrite reverse_cons, lstrip_snoc.
  destruct (lstrip (reverse s)) as [|a r] eqn:Hl.
  - simpl. by destruct (is_space c).
  - rewrite reverse_app. simpl. rewrite reverse_cons.
    destruct (reverse r ++ [a]) eqn:Hr; [by destruct (reverse r)|done].
Qed.

Lemma rstrip_squeeze (s : list ascii) :
  rstrip (squeeze nonalnum false s) = norm 1 s ∧
  rstrip (squeeze nonalnum true s) = norm 0 s.
Proof.
  induction s as [|c s [IH1 IH2]]; [done|]. simpl norm.
  destruct (is_alnum c) eqn:Hc.
  - rewrite !(squeeze_out nonalnum _ c) by (unfold nonalnum; by rewrite Hc).
    rewrite !rstrip_cons, IH1, (alnum_not_space c Hc).
    by destruct (norm 1 s).
  - rewrite !(squeeze_in nonalnum _ c) by (unfold nonalnum; by rewrite Hc).
    simpl app. rewrite rstrip_cons, IH2, norm_pending. by destruct (norm 0 s).
Qed.

Lemma strip_squeeze (s : list ascii) :
  strip (squeeze nonalnum false s) = norm 0 s.
Proof.
  unfold strip. destruct (lstrip_squeeze s) as [_ ->].
  apply rstrip_squeeze.
Qed.

(** The direct reading gives the words joined by spaces. *)
Lemma norm_unwords (s : list ascii) :
  norm 0 s = unwords (fields is_alnum s) ∧
  ∀ cur, cur ≠ [] →
    cur ++ norm 1 s = unwords (fields_from is_alnum cur s) ∧
    cur ++ norm 2 s = unwords (cur :: fields is_alnum s).
Proof.
  induction s as [|c s (IH0 & IH)].
  - split; [done|]. intros cur Hcur. simpl. rewrite app_nil_r.
    by destruct cur.
  - assert (∀ cur, cur ++ c :: norm 1 s
                   = unwords (fields_from is_alnum (cur ++ [c]) s)) as Hin.
    { intros cur. rewrite (cons_middle c), (assoc_L (++)).
      apply IH. by destruct cur. }
    unfold fields in *. simpl. destruct (is_alnum c) eqn:Hc.
    + split; [apply (Hin [])|]. intros cur Hcur. split; [apply Hin|].
      destruct (fields_from_cur is_alnum [c] s) as (w & ws & Hf); [done|].
      pose proof (Hin []) as H0. simpl in H0. rewrite H0. by rewrite Hf.
    + split; [done|]. intros cur Hcur. destruct (IH cur Hcur) as [_ ->].
      by destruct cur.
Qed.

(** Lines 54 to 57 leave the alphanumeric words of the text, joined by
    single spaces. *)
Theorem spacing_steps (s : list ascii) :
  strip (collapse_spaces (remove_nonalnum (space_punctuation s)))
  = unwords (fields is_alnum s).
Proof.
  rewrite space_punctuation_spacing, remove_nonalnum_squeeze,
    collapse_spaces_squeeze, squeeze_spacing, squeeze_collapse, strip_squeeze.
  apply norm_unwords.
Qed.

End StepsFacts.

(** ** The stopword pattern *)

Module StopwordFacts.
Import Chars Re Cleaner Words CharsFacts ReFacts WordsFacts.

Lemma strip_prefix_Some (w s r : list ascii) :
  strip_prefix w s = Some r ↔ s = w ++ r.
Proof.
  revert s. induction w as [|a w IH]; intros s; simpl.
  - split; congruence.
  - destruct s as [|b s]; [done|].
    destruct (Ascii.eqb_spec a b) as [->|Hne].
    + rewrite IH. split; congruence.
    + split; [done | congruence].
Qed.

Lemma span_length_le (p : ascii → bool) (s : list ascii) :
  span_length p s ≤ length s.
Proof. induction s as [|c s IH]; simpl; [lia|]. destruct (p c); simpl; lia. Qed.

(** The characters a greedy [p*] consumes are [p]-characters. *)
Lemma span_length_take (p : ascii → bool) (s : list ascii) (n : nat) :
  n ≤ span_length p s → Forall (λ c, p c = true) (take n s).
Proof.
  revert n. induction s as [|c s IH]; intros n Hn; [by rewrite take_nil|].
  destruct n as [|n]; [constructor|]. simpl in *.
  destruct (p c) eqn:Hc; [|lia]. constructor; [done|]. apply IH. lia.
Qed.

(** One alternative matches exactly when the text starts with it, a
    word boundary follows, and the match is long enough. *)
Lemma match_alt_Some (adv : bool) (prev : option ascii) (s w : list ascii) (n : nat) :
  match_alt adv prev s w = Some n ↔
  ∃ r, s = w ++ r ∧
       word_boundary (last_char prev w) (head r) = true ∧
       n = length w + span_length is_space r ∧
       (adv = true → 0 < n).
Proof.
  unfold match_alt. split.
  - destruct (strip_prefix w s) as [r|] eqn:Hr; [|done].
    apply strip_prefix_Some in Hr.
    destruct (word_boundary _ _) eqn:Hb; [|done].
    destruct adv; simpl.
    + destruct (Nat.eqb_spec (length w + span_length is_space r) 0); [done|].
      intros [= <-]. exists r. repeat split; [done..|lia].
    + intros [= <-]. exists r. repeat split; done.
  - intros (r & -> & Hb & -> & Hadv).
    assert (strip_prefix w (w ++ r) = Some r) as -> by by apply strip_prefix_Some.
    rewrite Hb. destruct adv; simpl; [|done].
    destruct (Nat.eqb_spec (length w + span_length is_space r) 0) as [H0|]; [|done].
    specialize (Hadv eq_refl). lia.
Qed.

Lemma match_alts_Some (adv : bool) (prev : option ascii) (s : list ascii)
    (alts : list (list ascii)) (n : nat) :
  match_alts adv prev s alts = Some n →
  ∃ w, w ∈ alts ∧ match_alt adv prev s w = Some n.
Proof.
  induction alts as [|w alts IH]; simpl; [done|].
  destruct (match_alt adv prev s w) as [k|] eqn:Hw.
  - intros [= ->]. exists w. split; [left | done].
  - intros (w' & Hin & Hm)%IH. exists w'. split; [by right | done].
Qed.

Lemma match_alts_None (adv : bool) (prev : option ascii) (s : list ascii)
    (alts : list (list ascii)) :
  match_alts adv prev s alts = None ↔
  ∀ w, w ∈ alts → match_alt adv prev s w = None.
Proof.
  induction alts as [|w alts IH]; simpl.
  - split; [by intros _ w ?%elem_of_nil | done].
  - destruct (match_alt adv prev s w) as [k|] eqn:Hw.
    + split; [done|]. intros H. specialize (H w (list_elem_of_here _ _)). congruence.
    + rewrite IH. split.
      * intros H w' [->|Hin]%elem_of_cons; auto.
      * intros H w' Hin. apply H. by right.
Qed.

Section pattern.
Context (alts : list (list ascii)).

Abbreviation pat := (alternation_pattern alts).

(** A match, whichever alternative gave it. *)
Lemma pattern_Some (adv : bool) (prev : option ascii) (s : list ascii) (n : nat) :
  pat adv prev s = Some n →
  word_boundary prev (head s) = true ∧
  ∃ w r, w ∈ alts ∧ s = w ++ r ∧
         word_boundary (last_char prev w) (head r) = true ∧
         n = length w + span_length is_space r ∧
         (adv = true → 0 < n).
Proof.
  unfold alternation_pattern. destruct (word_boundary prev (head s)); [|done].
  intros (w & Hin & Hm)%match_alts_Some. split; [done|].
  apply match_alt_Some in Hm as (r & ? & ? & ? & ?). by exists w, r.
Qed.

(** No non-empty match: no alternative that the text starts with
    between two word boundaries, unless it is empty and no whitespace
    follows. *)
Lemma pattern_None (prev : option ascii) (s w r : list ascii) :
  pat true prev s = None →
  w ∈ alts → s = w ++ r →
  word_boundary prev (head s) = true →
  word_boundary (last_char prev w) (head r) = true →
  length w + span_length is_space r = 0.
Proof.
  unfold alternation_pattern. intros Hp Hin -> Hb1 Hb2. rewrite Hb1 in Hp.
  pose proof (proj1 (match_alts_None _ _ _ _) Hp w Hin) as Hw.
  destruct (length w + span_length is_space r) as [|n] eqn:Hn; [done|].
  assert (match_alt true prev (w ++ r) w = Some (S n)) as Hs; [|congruence].
  apply match_alt_Some. exists r. repeat split; [done | done | lia].
Qed.

Lemma pattern_length (adv : bool) (prev : option ascii) (s : list ascii) (n : nat) :
  pat adv prev s = Some n → n ≤ length s.
Proof.
  intros (_ & w & r & _ & -> & _ & -> & _)%pattern_Some.
  rewrite length_app. pose proof (span_length_le is_space r). lia.
Qed.

Lemma pattern_advance_pos (prev : option ascii) (s : list ascii) (n : nat) :
  pat true prev s = Some n → 0 < n.
Proof. intros (_ & w & r & _ & _ & _ & _ & H)%pattern_Some. auto. Qed.

Lemma pattern_None_advance (prev : option ascii) (s : list ascii) :
  pat false prev s = None → pat true prev s = None.
Proof.
  unfold alternation_pattern. destruct (word_boundary prev (head s)); [|done].
  rewrite !match_alts_None. intros H w Hin. specialize (H w Hin).
  unfold match_alt in *. destruct (strip_prefix w s); [|done].
  destruct (word_boundary _ _); [done | done].
Qed.

(** After a non-empty match the neighbours of the position are not both
    word characters. *)
Lemma pattern_after (adv : bool) (prev : option ascii) (s : list ascii) (n : nat) :
  pat adv prev s = Some n → 0 < n →
  from_option is_word false (last_char prev (take n s))
    && from_option is_word false (head (drop n s)) = false.
Proof.
  intros (_ & w & r & _ & -> & Hb & -> & _)%pattern_Some Hpos.
  destruct (span_length is_space r) as [|j] eqn:Hj.
  - rewrite Nat.add_0_r, take_app_length, drop_app_length.
    unfold word_boundary in Hb.
    by destruct (from_option is_word false (last_char prev w)),
      (from_option is_word false (head r)).
  - rewrite take_app_add', drop_app_add' by done.
    assert (∃ c, last (take (S j) r) = Some c ∧ is_space c = true) as (c & Hc & Hsp).
    { pose proof (span_length_take is_space r (S j)) as Hall.
      destruct (last (take (S j) r)) as [c|] eqn:Hl.
      - exists c. split; [done|].
        apply (proj1 (Forall_forall _ _) (Hall ltac:(lia))).
        apply last_Some in Hl as [l' ->]. apply elem_of_app. right. left.
      - apply last_None in Hl. destruct r; [done | discriminate]. }
    unfold last_char. rewrite last_app, Hc. simpl.
    by rewrite (space_not_word c Hsp).
Qed.
End pattern.

End StopwordFacts.

(** ** The scan that removes stopwords *)

Module ScanFacts.
Import Chars Re Cleaner Words CharsFacts ReFacts WordsFacts StopwordFacts.

Section scan.
Context (alts : list (list ascii)).

Abbreviation pat := (alternation_pattern alts).

(** The scan from a position that is not inside a match. *)
Definition scan (prev : option ascii) (s : list ascii) : list ascii :=
  sub_from pat (λ _, [space]) prev 0 s.

(** What an empty match before the step leaves: nothing, or one space
    at a word boundary. *)
Definition prefix_ok (pre : list ascii) (prev next : option ascii) : Prop :=
  pre = [] ∨ (pre = [space] ∧ word_boundary prev next = true).

Lemma scan_nil (prev : option ascii) :
  ∃ pre, prefix_ok pre prev None ∧ scan prev [] = pre.
Proof.
  unfold scan. rewrite sub_from_nil.
  destruct (pat false prev []) as [n|] eqn:Hm.
  - exists [space]. split; [right | done]. split; [done|].
    by apply pattern_Some in Hm as [? _].
  - exists []. split; [by left | done].
Qed.

(** One step of the scan: the character is copied, when no non-empty
    match starts there, or a non-empty match is replaced by a space. *)
Lemma scan_cons (prev : option ascii) (c : ascii) (s : list ascii) :
  ∃ pre, prefix_ok pre prev (Some c) ∧
    ((pat true prev (c :: s) = None ∧
      scan prev (c :: s) = pre ++ c :: scan (Some c) s) ∨
     (∃ adv n, pat adv prev (c :: s) = Some n ∧ 0 < n ≤ length (c :: s) ∧
           scan prev (c :: s)
           = pre ++ space :: scan (last_char prev (take n (c :: s))) (drop n (c :: s)))).
Proof.
  unfold scan. rewrite sub_from_cons.
  assert (∀ adv k, pat adv prev (c :: s) = Some (S k) →
    [space] ++ sub_from pat (λ _, [space]) (Some c) k s
    = space :: sub_from pat (λ _, [space])
                 (last_char prev (take (S k) (c :: s))) 0 (drop (S k) (c :: s)) ∧
    0 < S k ≤ length (c :: s)) as Hskip.
  { intros adv k Hk. pose proof (pattern_length _ _ _ _ _ Hk) as Hlen.
    split; [|lia]. simpl app. f_equal.
    change (sub_from pat (λ _, [space]) (Some c) k s)
      with (sub_from pat (λ _, [space]) prev (S k) (c :: s)).
    by apply sub_from_skip. }
  destruct (pat false prev (c :: s)) as [[|k]|] eqn:Hf.
  - exists [space]. split.
    { right. split; [done|]. by apply pattern_Some in Hf as [? _]. }
    destruct (pat true prev (c :: s)) as [[|k]|] eqn:Ht.
    + apply pattern_advance_pos in Ht. lia.
    + right. exists true, (S k). destruct (Hskip true k Ht) as [-> ?]. done.
    + by left.
  - exists []. split; [by left|]. right.
    exists false, (S k). destruct (Hskip false k Hf) as [-> ?]. done.
  - exists []. split; [by left|]. left. split; [|done].
    by apply pattern_None_advance.
Qed.

(** *** No stopword is left as a word *)

(** The neighbours of the position are not both word characters. *)
Definition split_here (prev : option ascii) (s : list ascii) : Prop :=
  from_option is_word false prev && from_option is_word false (head s) = false.

(** The word [cur] that is being copied began after a non-word
    character, where no non-empty match was found. *)
Definition unmatched (cur s : list ascii) : Prop :=
  ∃ prev0, from_option is_word false prev0 = false ∧
           pat true prev0 (cur ++ s) = None.

(** State of the scan: [cur] is the part copied so far of the current
    word of the output, [prev] the character before the position and [s]
    the text still to be read. *)
Definition scan_inv (cur : list ascii) (prev : option ascii) (s : list ascii) : Prop :=
  (cur = [] → split_here prev s) ∧
  (cur ≠ [] → Forall (λ c, is_alnum c = true) cur ∧ prev = last cur ∧ unmatched cur s).

Lemma boundary_split (prev : option ascii) (s : list ascii) :
  word_boundary prev (head s) = true → split_here prev s.
Proof.
  unfold word_boundary, split_here.
  by destruct (from_option is_word false prev), (from_option is_word false (head s)).
Qed.

Lemma last_word (cur : list ascii) :
  cur ≠ [] → Forall (λ c, is_alnum c = true) cur →
  from_option is_word false (last cur) = true.
Proof.
  intros Hne Hall. destruct (last cur) as [z|] eqn:Hl.
  - simpl. apply alnum_is_word.
    apply (proj1 (Forall_forall _ _) Hall).
    apply last_Some in Hl as [l ->]. apply elem_of_app. right. left.
  - by apply last_None in Hl.
Qed.

Lemma boundary_after_word (cur : list ascii) (prev : option ascii) (s : list ascii) :
  scan_inv cur prev s → cur ≠ [] →
  word_boundary prev (head s) = true →
  from_option is_word false (head s) = false.
Proof.
  intros [_ Hinv] Hne Hb. destruct (Hinv Hne) as (Hall & -> & _).
  unfold word_boundary in Hb. rewrite (last_word cur Hne Hall) in Hb.
  by destruct (from_option is_word false (head s)).
Qed.

(** A word that ends where a non-word character or the end of the text
    follows is not a stopword. *)
Lemma close_word (w cur : list ascii) (prev : option ascii) (s : list ascii) :
  w ∈ alts → scan_inv cur prev s →
  (cur ≠ [] → from_option is_word false (head s) = false) →
  w ∉ emit cur.
Proof.
  intros Hin [_ Hinv] Hnext. destruct cur as [|a cur]; [apply not_elem_of_nil|].
  simpl. intros ->%list_elem_of_singleton.
  destruct Hinv as (Hall & _ & prev0 & Hp0 & Hnone); [done|].
  specialize (Hnext ltac:(done)).
  assert (length (a :: cur) + span_length is_space s = 0) as H0; [|simpl in H0; lia].
  apply (pattern_None alts prev0 ((a :: cur) ++ s) (a :: cur) s Hnone Hin eq_refl).
  - unfold word_boundary. rewrite Hp0. simpl.
    apply Forall_cons in Hall as [Ha _]. by rewrite (alnum_is_word a Ha).
  - unfold word_boundary, last_char.
    pose proof (last_word (a :: cur) ltac:(done) Hall) as Hl.
    destruct (last (a :: cur)) as [z|]; [|done]. simpl in Hl.
    simpl from_option at 1. by rewrite Hl, Hnext.
Qed.

(** The space that an empty match puts before the step ends the current
    word. *)
Lemma absorb_prefix (w cur pre : list ascii) (prev : option ascii)
    (s out : list ascii) :
  w ∈ alts → prefix_ok pre prev (head s) → scan_inv cur prev s →
  ∃ cur0 done_words,
    (fields_from is_alnum cur (pre ++ out)
     = done_words ++ fields_from is_alnum cur0 out) ∧
    (w ∉ done_words) ∧ scan_inv cur0 prev s.
Proof.
  intros Hin [->|[-> Hb]] Hinv.
  - exists cur, []. split; [done|]. split; [apply not_elem_of_nil | done].
  - exists [], (emit cur). split; [done|]. split.
    + apply (close_word w cur prev s Hin Hinv).
      intros Hne. by apply (boundary_after_word cur prev s).
    + split; [|done]. intros _. by apply boundary_split.
Qed.

Lemma nonalnum_not_word (c : ascii) :
  is_alnum c = false → c ≠ "_"%char → is_word c = false.
Proof.
  intros Hc Hu. destruct (is_word c) eqn:Hw; [|done].
  by apply word_not_alnum in Hw.
Qed.

Lemma scan_no_stopword (w : list ascii) (n : nat) :
  w ∈ alts →
  ∀ s, length s ≤ n → ∀ cur prev,
    Forall (λ c, c ≠ "_"%char) s → scan_inv cur prev s →
    w ∉ fields_from is_alnum cur (scan prev s).
Proof.
  intros Hin. induction n as [|n IH]; intros s Hlen cur prev Hs Hinv.
  - destruct s; [|simpl in Hlen; lia].
    destruct (scan_nil prev) as (pre & Hpre & ->).
    destruct (absorb_prefix w cur pre prev [] [] Hin Hpre Hinv)
      as (cur0 & E & HE & HwE & Hinv0).
    rewrite app_nil_r in HE. rewrite HE. apply not_elem_of_app. split; [done|].
    simpl. by apply (close_word w cur0 prev []).
  - destruct s as [|c s].
    { apply IH; [simpl; lia | done..]. }
    simpl in Hlen. apply Forall_cons in Hs as [Hc Hs].
    destruct (scan_cons prev c s)
      as (pre & Hpre & [[Hnone ->] | (adv & k & Hk & Hklen & ->)]).
    + destruct (absorb_prefix w cur pre prev (c :: s) (c :: scan (Some c) s)
                  Hin Hpre Hinv) as (cur0 & E & -> & HwE & Hinv0).
      apply not_elem_of_app. split; [done|]. simpl.
      destruct (is_alnum c) eqn:Hal.
      * apply IH; [lia | done |]. split; [by intros [_ [=]]%app_eq_nil|]. intros _.
        destruct Hinv0 as [Hempty Hword].
        destruct (decide (cur0 = [])) as [->|Hne].
        -- simpl. repeat split; [by repeat constructor|].
           exists prev. split; [|done].
           specialize (Hempty eq_refl). unfold split_here in Hempty. simpl in Hempty.
           rewrite (alnum_is_word c Hal) in Hempty.
           by destruct (from_option is_word false prev).
        -- destruct (Hword Hne) as (Hall & _ & prev0 & Hp0 & Hn0).
           repeat split.
           ++ apply Forall_app. split; [done | by repeat constructor].
           ++ by rewrite last_snoc.
           ++ exists prev0. split; [done|]. by rewrite <- (assoc_L (++)).
      * pose proof (nonalnum_not_word c Hal Hc) as Hnw.
        apply not_elem_of_app. split.
        -- by apply (close_word w cur0 prev (c :: s)).
        -- apply IH; [lia | done |]. split; [|done]. intros _.
           unfold split_here. simpl. by rewrite Hnw.
    + destruct (absorb_prefix w cur pre prev (c :: s)
                  (space :: scan (last_char prev (take k (c :: s))) (drop k (c :: s)))
                  Hin Hpre Hinv) as (cur0 & E & -> & HwE & Hinv0).
      apply not_elem_of_app. split; [done|]. simpl.
      apply not_elem_of_app. split.
      * apply (close_word w cur0 prev (c :: s)); [done..|].
        intros Hne. apply (boundary_after_word cur0 prev (c :: s)); [done..|].
        by apply pattern_Some in Hk as [? _].
      * apply IH.
        -- rewrite length_drop. simpl. lia.
        -- apply Forall_drop. by constructor.
        -- split; [|done]. intros _.
           apply (pattern_after alts adv prev (c :: s) k Hk). lia.
Qed.

(** In the text that the scan leaves, no alternative of the pattern is
    one of the maximal alphanumeric runs, provided the text scanned has
    no underscore. *)
Theorem no_stopword_left (w s : list ascii) :
  w ∈ alts → Forall (λ c, c ≠ "_"%char) s →
  w ∉ fields is_alnum (scan None s).
Proof.
  intros Hin Hs. apply (scan_no_stopword w (length s) Hin s); [done..|].
  split; [|done]. intros _. done.
Qed.

(** *** A text in which no stopword occurs *)

(** The alternatives that are not empty. *)
Definition proper_alts : list (list ascii) := filter (λ w : list ascii, w ≠ []) alts.

(** Where no proper alternative matches, a match of the pattern is one
    of the empty alternative: it consists of the whitespace that
    follows. *)
Lemma quiet_match (adv : bool) (prev : option ascii) (s : list ascii) (n : nat) :
  alternation_pattern proper_alts true prev s = None →
  pat adv prev s = Some n → n = span_length is_space s.
Proof.
  intros Hq (Hb1 & w & r & Hin & Hs & Hb2 & -> & _)%pattern_Some.
  destruct w as [|a w]; [by subst|].
  assert (a :: w ∈ proper_alts) as Hin' by by apply list_elem_of_filter.
  pose proof (pattern_None proper_alts prev s (a :: w) r Hq Hin' Hs Hb1 Hb2) as H0.
  simpl in H0. lia.
Qed.

Lemma fields_from_drop_seps (p : ascii → bool) (n : nat) (cur s : list ascii) :
  Forall (λ c, p c = false) (take n s) → 0 < n ≤ length s →
  fields_from p cur s = emit cur ++ fields p (drop n s).
Proof.
  revert cur s. induction n as [|n IH]; intros cur s Hall Hn; [lia|].
  destruct s as [|c s]; [simpl in Hn; lia|]. simpl in *.
  apply Forall_cons in Hall as [-> Hall].
  destruct n as [|n]; [done|].
  rewrite (IH [] s Hall) by lia. done.
Qed.

Lemma absorb_quiet (pre cur : list ascii) (prev : option ascii)
    (c : ascii) (out : list ascii) :
  prefix_ok pre prev (Some c) →
  (cur ≠ [] → from_option is_word false prev = true) →
  fields_from is_alnum cur (pre ++ c :: out) = fields_from is_alnum cur (c :: out).
Proof.
  intros [->|[-> Hb]] Hprev; [done|].
  destruct cur as [|a cur]; [done|].
  unfold word_boundary in Hb. rewrite Hprev in Hb by done. simpl in Hb.
  assert (is_alnum c = false) as Hc.
  { destruct (is_alnum c) eqn:Hc; [|done]. by rewrite (alnum_is_word c Hc) in Hb. }
  simpl. by rewrite Hc.
Qed.

Lemma absorb_space (pre cur : list ascii) (prev next : option ascii)
    (out : list ascii) :
  prefix_ok pre prev next →
  fields_from is_alnum cur (pre ++ space :: out)
  = emit cur ++ fields is_alnum out.
Proof. by intros [->|[-> _]]. Qed.

Lemma scan_quiet (n : nat) :
  ∀ s, length s ≤ n → ∀ cur prev,
    no_match_from (alternation_pattern proper_alts) prev s = true →
    (cur ≠ [] → from_option is_word false prev = true) →
    fields_from is_alnum cur (scan prev s) = fields_from is_alnum cur s.
Proof.
  induction n as [|n IH]; intros s Hlen cur prev Hq Hprev.
  - destruct s; [|simpl in Hlen; lia].
    destruct (scan_nil prev) as (pre & [->|[-> _]] & ->); [done|].
    simpl. by rewrite app_nil_r.
  - destruct s as [|c s].
    { apply IH; [simpl; lia | done..]. }
    simpl in Hlen.
    destruct (scan_cons prev c s)
      as (pre & Hpre & [[Hnone ->] | (adv & k & Hk & Hklen & ->)]).
    + rewrite (absorb_quiet pre cur prev c _ Hpre Hprev). simpl in *.
      destruct (alternation_pattern proper_alts true prev (c :: s)); [done|].
      destruct (is_alnum c) eqn:Hc.
      * apply IH; [lia | done |]. intros _. simpl. by apply alnum_is_word.
      * f_equal. apply IH; [lia | done | done].
    + rewrite (absorb_space pre cur prev (Some c)) by done.
      assert (k = span_length is_space (c :: s)) as Hspan.
      { apply (quiet_match adv prev); [|done]. simpl in Hq.
        by destruct (alternation_pattern proper_alts true prev (c :: s)). }
      rewrite (fields_from_drop_seps is_alnum k cur (c :: s)); [|..|lia].
      * f_equal. apply IH; [rewrite length_drop; simpl; lia | | done].
        apply no_match_from_drop; [done | lia].
      * eapply Forall_impl; [apply (span_length_take is_space); lia|].
        intros a Ha. simpl in Ha. destruct (is_alnum a) eqn:Hal; [|done].
        by rewrite (alnum_not_space a Hal) in Ha.
Qed.

(** Where no proper alternative matches, the scan changes whitespace
    only: the alphanumeric runs of the text stay as they are. *)
Theorem quiet_scan_fields (s : list ascii) :
  no_match_from (alternation_pattern proper_alts) None s = true →
  fields is_alnum (scan None s) = fields is_alnum s.
Proof. intros Hq. by apply (scan_quiet (length s)). Qed.

(** *** The runs of the result *)

(** The space that an empty match puts before a step ends the current
    run, or there is no such space. *)
Lemma fields_from_prefix (pre cur : list ascii) (prev next : option ascii)
    (out : list ascii) (f : list ascii) :
  prefix_ok pre prev next →
  f ∈ fields_from is_alnum cur (pre ++ out) →
  f = cur ∨ ∃ cur0, (cur0 = cur ∨ cur0 = []) ∧ f ∈ fields_from is_alnum cur0 out.
Proof.
  intros [->|[-> _]] Hf.
  - right. exists cur. by split; [left|].
  - simpl in Hf. apply elem_of_app in Hf as [Hf|Hf].
    + left. destruct cur; [by apply elem_of_nil in Hf|].
      by apply list_elem_of_singleton in Hf.
    + right. exists []. by split; [right|].
Qed.

Lemma emit_elem (cur f : list ascii) : f ∈ emit cur → f = cur.
Proof.
  destruct cur; [by intros ?%elem_of_nil | by intros ?%list_elem_of_singleton].
Qed.

(** Every alphanumeric run of the text that the scan leaves occurs in
    one piece in the text scanned. *)
Lemma scan_fields_pieces (n : nat) :
  ∀ s, length s ≤ n → ∀ cur prev f,
    f ∈ fields_from is_alnum cur (scan prev s) → piece f (cur ++ s).
Proof.
  induction n as [|n IH]; intros s Hlen cur prev f Hf.
  - destruct s; [|simpl in Hlen; lia].
    destruct (scan_nil prev) as (pre & Hpre & Hs). rewrite Hs in Hf.
    rewrite <- (app_nil_r pre) in Hf.
    apply (fields_from_prefix pre cur prev None [] f Hpre) in Hf
      as [->|(cur0 & Hcur0 & Hf)].
    + apply piece_app_r, piece_refl.
    + apply emit_elem in Hf as ->. destruct Hcur0 as [->| ->].
      * apply piece_app_r, piece_refl.
      * exists cur, []. reflexivity.
  - destruct s as [|c s].
    { apply (IH [] ltac:(simpl; lia) cur prev f Hf). }
    simpl in Hlen.
    assert (∀ cur0, cur0 = cur ∨ cur0 = [] →
              piece f (cur0 ++ c :: s) → piece f (cur ++ c :: s)) as Hweak.
    { intros cur0 [->| ->] H; [done | by apply piece_app_l]. }
    destruct (scan_cons prev c s)
      as (pre & Hpre & [[Hnone Hs] | (adv & k & Hk & Hklen & Hs)]);
      rewrite Hs in Hf;
      apply (fields_from_prefix pre cur prev (Some c) _ f Hpre) in Hf
        as [->|(cur0 & Hcur0 & Hf)];
      try (by apply piece_app_r, piece_refl);
      apply (Hweak cur0 Hcur0).
    + simpl in Hf. destruct (is_alnum c).
      * apply IH in Hf; [|lia]. by rewrite <- (assoc_L (++)) in Hf.
      * apply elem_of_app in Hf as [->%emit_elem|Hf].
        -- by apply piece_app_r, piece_refl.
        -- apply IH in Hf; [|lia].
           apply (piece_app_l f (cur0 ++ [c]) s) in Hf.
           by rewrite <- (assoc_L (++)) in Hf.
    + simpl in Hf. apply elem_of_app in Hf as [->%emit_elem|Hf].
      * by apply piece_app_r, piece_refl.
      * apply IH in Hf; [|rewrite length_drop; simpl; lia]. simpl in Hf.
        apply piece_app_l. rewrite <- (take_drop k (c :: s)).
        by apply piece_app_l.
Qed.
End scan.

(** *** Words joined by spaces *)

Lemma last_char_cons (prev : option ascii) (c : ascii) (w : list ascii) :
  last_char prev (c :: w) = last_char (Some c) w.
Proof. unfold last_char. rewrite last_cons. by destruct (last w). Qed.

Section words.
Context (alts : list (list ascii)).
Context (Halts : Forall (word is_alnum) alts).

Abbreviation pat := (alternation_pattern alts).

(** Inside a word the pattern finds no word boundary. *)
Lemma no_match_inside (u rest : list ascii) (prev : option ascii) :
  from_option is_word false prev = true →
  Forall (λ c, is_alnum c = true) u →
  no_match_from pat prev (u ++ rest) = no_match_from pat (last_char prev u) rest.
Proof.
  intros Hprev Hu. revert prev Hprev.
  induction Hu as [|c u Hc _ IH]; intros prev Hprev; [done|].
  rewrite last_char_cons, <- IH by (by apply alnum_is_word).
  simpl app. rewrite no_match_from_cons.
  unfold alternation_pattern at 1, word_boundary. simpl.
  by rewrite Hprev, (alnum_is_word c Hc).
Qed.

(** An alternative that matches where a word begins is that word. *)
Lemma match_at_word (v rest : list ascii) (prev : option ascii) (n : nat) :
  word is_alnum v →
  from_option is_word false (head rest) = false →
  (∀ c, head rest = Some c → is_alnum c = false) →
  pat true prev (v ++ rest) = Some n → v ∈ alts.
Proof.
  intros [Hne Hv] Hrest Hrest' (_ & w & r & Hin & Heq & Hb & _)%pattern_Some.
  destruct (proj1 (Forall_forall _ _) Halts w Hin) as [Hwne Hw].
  assert (last_char prev w = last w) as Hlast.
  { unfold last_char. destruct (last w) eqn:Hl; [done|].
    by apply last_None in Hl. }
  rewrite Hlast in Hb. unfold word_boundary in Hb.
  rewrite (last_word w Hwne Hw) in Hb.
  apply app_eq_inv in Heq as [(k & -> & ->)|(k & -> & ->)].
  - destruct k as [|x k]; [by rewrite app_nil_r|]. exfalso.
    apply Forall_app in Hv as [_ [Hx _]%Forall_cons]. simpl in Hb.
    by rewrite (alnum_is_word x Hx) in Hb.
  - destruct k as [|x k]; [by rewrite app_nil_r in Hin|]. exfalso.
    apply Forall_app in Hw as [_ [Hx _]%Forall_cons].
    specialize (Hrest' x eq_refl). congruence.
Qed.

(** In words joined by spaces, none of which is an alternative, the
    pattern finds nothing. *)
Lemma words_no_match (ws : list (list ascii)) :
  Forall (word is_alnum) ws →
  (∀ w, w ∈ alts → w ∉ ws) →
  ∀ prev, from_option is_word false prev = false →
  no_match_from pat prev (unwords ws) = true.
Proof.
  assert (∀ prev, pat true prev [] = None) as Hend.
  { intros prev. destruct (pat true prev []) as [n|] eqn:Hm; [|done].
    apply pattern_Some in Hm as (_ & w & r & Hin & Heq & _).
    destruct (proj1 (Forall_forall _ _) Halts w Hin) as [Hwne _].
    symmetry in Heq. by apply app_eq_nil in Heq as [? _]. }
  assert (∀ prev s, pat true prev (space :: s) = None) as Hspace.
  { intros prev s. destruct (pat true prev (space :: s)) as [n|] eqn:Hm; [|done].
    apply pattern_Some in Hm as (_ & w & r & Hin & Heq & _).
    destruct (proj1 (Forall_forall _ _) Halts w Hin) as [Hwne Hw].
    destruct w as [|x w]; [done|]. injection Heq as <- _.
    by apply Forall_cons in Hw as [? _]. }
  induction 1 as [|v ws Hv Hws IH]; intros Hnot prev Hprev.
  { simpl. by rewrite Hend. }
  assert (∃ rest, unwords (v :: ws) = v ++ rest ∧
            no_match_from pat (last_char prev v) rest = true ∧
            from_option is_word false (head rest) = false ∧
            (∀ c, head rest = Some c → is_alnum c = false))
    as (rest & -> & Hrest & Hhead & Hhead').
  { destruct ws as [|v' ws'].
    - exists []. simpl. rewrite app_nil_r, Hend. done.
    - exists (space :: unwords (v' :: ws')). rewrite unwords_cons by done.
      split; [done|]. split; [|split; [done | by intros c [= <-]]].
      rewrite no_match_from_cons, Hspace. apply IH; [|done].
      intros w Hin Hw. apply (Hnot w Hin). by right. }
  destruct Hv as [Hne Hv]. destruct v as [|c u]; [done|].
  simpl app. rewrite no_match_from_cons.
  destruct (pat true prev (c :: u ++ rest)) as [n|] eqn:Hm.
  { exfalso. apply (match_at_word (c :: u) rest prev n) in Hm; [|done..].
    apply (Hnot _ Hm). left. }
  apply Forall_cons in Hv as [Hc Hu].
  rewrite no_match_inside by (by try apply alnum_is_word).
  by rewrite last_char_cons in Hrest.
Qed.
End words.
End ScanFacts.

(** ** The text cleaner *)

Module CleanerFacts.
Import Chars Re Cleaner Words CharsFacts ReFacts WordsFacts StepsFacts
  StopwordFacts ScanFacts.

(** The link pattern finds nothing in [s]. *)
Definition url_free (s : list ascii) : bool := no_match_from url_pattern None s.

(** No stopword of the list, the empty word apart, occurs in [s] between
    two word boundaries. *)
Definition stopword_free (stopwords : list string) (s : list ascii) : bool :=
  no_match_from
    (alternation_pattern (proper_alts (alternatives stopwords))) None s.

Definition http : list ascii := list_ascii_of_string "http".

(** Lines 49 to 57 give the alphanumeric words that the removal of
    stopwords leaves of the text in lower case, joined by single
    spaces. *)
Lemma normalise_words (stopwords : list string) (s : list ascii) :
  normalise stopwords s
  = unwords (fields is_alnum (scan (alternatives stopwords) None (lower s))).
Proof. unfold normalise. apply spacing_steps. Qed.

Lemma lower_Forall (s : list ascii) : Forall (λ c, is_upper c = false) (lower s).
Proof. apply Forall_fmap, Forall_forall. intros c _. apply lower_char_not_upper. Qed.

Lemma lower_fixed (s : list ascii) :
  Forall (λ c, is_upper c = false) s → lower s = s.
Proof.
  induction 1 as [|c s Hc _ IH]; [done|].
  unfold lower in *. rewrite fmap_cons, IH. by rewrite lower_char_fixed.
Qed.

Lemma emit_Forall (P : ascii → Prop) (cur : list ascii) :
  Forall P cur → Forall (Forall P) (emit cur).
Proof.
  intros Hcur. destruct cur; simpl; [constructor|].
  constructor; [assumption | constructor].
Qed.

Lemma fields_from_Forall (P : ascii → Prop) (p : ascii → bool) (cur s : list ascii) :
  Forall P cur → Forall P s → Forall (Forall P) (fields_from p cur s).
Proof.
  intros Hcur Hs. revert cur Hcur.
  induction Hs as [|c s Hc Hs IH]; intros cur Hcur; simpl.
  - by apply emit_Forall.
  - destruct (p c).
    + apply IH, Forall_app. split; [done | by repeat constructor].
    + apply Forall_app. split; [by apply emit_Forall | by apply IH].
Qed.

(** A property of the characters of the text in lower case, and of the
    space, holds for the characters of the normalised text. *)
Lemma normalise_Forall (P : ascii → Prop) (stopwords : list string) (s : list ascii) :
  P space → Forall P (lower s) → Forall P (normalise stopwords s).
Proof.
  intros Hsp Hs. rewrite normalise_words.
  apply unwords_Forall; [done|]. apply fields_from_Forall; [done|].
  apply sub_from_Forall; [by repeat constructor | done].
Qed.

(** The words of the normalised text. *)
Lemma normalise_fields (stopwords : list string) (s : list ascii) :
  ∃ ws, normalise stopwords s = unwords ws ∧
        Forall (word is_alnum) ws ∧
        ws = fields is_alnum (scan (alternatives stopwords) None (lower s)).
Proof. eexists. split; [apply normalise_words|]. split; [apply fields_words | done]. Qed.

(** *** Links *)

Lemma url_pattern_http (adv : bool) (prev : option ascii) (s : list ascii) (n : nat) :
  url_pattern adv prev s = Some n → ∃ r, s = http ++ r.
Proof.
  unfold url_pattern. destruct (strip_prefix _ s) as [r|] eqn:Hr; [|done].
  intros _. exists r. by apply strip_prefix_Some.
Qed.

Lemma url_free_fixed (prev : option ascii) (s : list ascii) :
  no_match_from url_pattern prev s = true →
  sub_from url_pattern (λ _, []) prev 0 s = s.
Proof.
  revert prev. induction s as [|c s IH]; intros prev Hq; [done|].
  rewrite sub_from_cons. simpl in Hq.
  change (url_pattern false prev (c :: s)) with (url_pattern true prev (c :: s)).
  destruct (url_pattern true prev (c :: s)); [done|]. by rewrite IH.
Qed.

(** Where the link pattern finds nothing, line 58 changes nothing. *)
Lemma remove_urls_fixed (s : list ascii) : url_free s = true → remove_urls s = s.
Proof. apply url_free_fixed. Qed.

(** A text in which the letters of [http] cannot be read in this order
    has no link. *)
Lemma no_http_url_free (prev : option ascii) (s : list ascii) :
  ¬ http `sublist_of` s → no_match_from url_pattern prev s = true.
Proof.
  revert prev. induction s as [|c s IH]; intros prev Hno; simpl.
  - done.
  - destruct (url_pattern true prev (c :: s)) as [n|] eqn:Hm.
    + exfalso. apply Hno. apply url_pattern_http in Hm as [r ->].
      apply sublist_inserts_r. done.
    + apply IH. intros H. apply Hno. by apply sublist_cons.
Qed.

(** A text in which [http] does not occur in one piece has no link. *)
Lemma no_piece_url_free (prev : option ascii) (s : list ascii) :
  ¬ piece http s → no_match_from url_pattern prev s = true.
Proof.
  revert prev. induction s as [|c s IH]; intros prev Hno; simpl; [done|].
  destruct (url_pattern true prev (c :: s)) as [n|] eqn:Hm.
  - exfalso. apply Hno. apply url_pattern_http in Hm as [r ->]. by exists [], r.
  - apply IH. intros H. apply Hno. by apply (piece_app_l http [c] s).
Qed.

(** *** Characters of the result *)

Definition clean_char (c : ascii) : Prop :=
  (is_lower c = true ∨ is_digit c = true) ∨ c = space.

Lemma lower_alnum (c : ascii) :
  is_alnum c = true → is_upper c = false → is_lower c = true ∨ is_digit c = true.
Proof.
  unfold is_alnum. intros H Hu. rewrite Hu in H. simpl in H.
  by apply orb_true_iff.
Qed.

(** The result of the cleaner is made of lower-case letters, digits and
    spaces. *)
Theorem clean_chars_alphabet (stopwords : list string) (s : list ascii) :
  Forall clean_char (clean_chars stopwords s).
Proof.
  unfold clean_chars. apply sub_from_Forall; [done|].
  destruct (normalise_fields stopwords s) as (ws & Hn & Hws & _).
  pose proof (normalise_Forall (λ c, is_upper c = false) stopwords s eq_refl
                (lower_Forall s)) as Hlow.
  rewrite Hn in *.
  assert (Forall (λ c, is_alnum c = true ∨ c = space) (unwords ws)) as Hal.
  { apply unwords_Forall; [by right|].
    eapply Forall_impl; [exact Hws|]. intros w [_ Hw].
    eapply Forall_impl; [exact Hw|]. by left. }
  apply Forall_forall. intros c Hc.
  destruct (proj1 (Forall_forall _ _) Hal c Hc) as [Ha| ->]; [left | by right].
  apply lower_alnum; [done|]. by apply (proj1 (Forall_forall _ _) Hlow).
Qed.

Lemma clean_char_facts (c : ascii) :
  clean_char c → is_upper c = false ∧ is_punct c = false ∧ c ≠ ":"%char.
Proof.
  intros [[H|H]| ->]; [| |by repeat split]; revert H;
    destruct c as [[] [] [] [] [] [] [] []]; vm_compute; intros H;
    try discriminate H; repeat split; discriminate.
Qed.

Lemma alternatives_elem (stopwords : list string) (w : string) :
  w ∈ stopwords → list_ascii_of_string w ∈ alternatives stopwords.
Proof.
  intros Hin. destruct stopwords as [|w0 ws]; [by apply elem_of_nil in Hin|].
  unfold alternatives. apply list_elem_of_fmap. by exists w.
Qed.

Lemma proper_alts_elem (stopwords : list string) (w : list ascii) :
  w ∈ proper_alts (alternatives stopwords) →
  w ≠ [] ∧ string_of_list_ascii w ∈ stopwords.
Proof.
  intros [Hne Hin]%list_elem_of_filter. split; [done|].
  destruct stopwords as [|w0 ws].
  - by apply list_elem_of_singleton in Hin.
  - apply list_elem_of_fmap in Hin as (v & -> & Hv).
    by rewrite string_of_list_ascii_of_string.
Qed.

(** *** Idempotence *)

(** C1, as stated, fails: the link pattern runs after the trimming of
    line 57, so the space before a token it removes is left at the end
    of the result, and a second pass trims it. *)
Lemma clean_text_not_idempotent :
  clean_text "http httpx" ["please"] = "http " ∧
  clean_text (clean_text "http httpx" ["please"]) ["please"] = "http" ∧
  clean_text (clean_text "http httpx" ["please"]) ["please"]
    ≠ clean_text "http httpx" ["please"].
Proof. vm_compute. repeat split. discriminate. Qed.

(** A second pass can also find a stopword that the first one has set
    free: an underscore is a word character for the stopword pattern of
    line 51 and is replaced by a space in line 55. *)
Example clean_text_frees_stopword :
  clean_text "the_cat" ["the"] = "the cat" ∧
  clean_text "the cat" ["the"] = "cat".
Proof. vm_compute. done. Qed.

(** The normalised text is a fixed point of lines 49 to 57 when no
    stopword occurs in it. *)
Lemma normalise_fixed (stopwords : list string) (s : list ascii) :
  stopword_free stopwords (normalise stopwords s) = true →
  normalise stopwords (normalise stopwords s) = normalise stopwords s.
Proof.
  intros Hfree. destruct (normalise_fields stopwords s) as (ws & Hn & Hws & _).
  rewrite (normalise_words stopwords (normalise stopwords s)).
  rewrite (lower_fixed (normalise stopwords s))
    by (apply normalise_Forall; [done | apply lower_Forall]).
  rewrite quiet_scan_fields by done.
  rewrite Hn. by rewrite fields_unwords.
Qed.

(** The result of a pass that found no link to remove and left no
    stopword is a fixed point of the cleaner. *)
Lemma clean_chars_stable (stopwords : list string) (s : list ascii) :
  url_free (normalise stopwords s) = true →
  stopword_free stopwords (clean_chars stopwords s) = true →
  clean_chars stopwords (clean_chars stopwords s) = clean_chars stopwords s.
Proof.
  unfold clean_chars. intros Hurl. rewrite !(remove_urls_fixed _ Hurl).
  intros Hfree. by rewrite (normalise_fixed _ _ Hfree), (remove_urls_fixed _ Hurl).
Qed.

(** C1, amended: cleaning a second time changes nothing when the first
    pass found no link to remove in its normalised text and its result
    contains no stopword as a whole word. *)
Theorem clean_text_idempotent_when_stable (text : string) (stopwords : list string) :
  url_free (normalise stopwords (list_ascii_of_string text)) = true →
  stopword_free stopwords (list_ascii_of_string (clean_text text stopwords)) = true →
  clean_text (clean_text text stopwords) stopwords = clean_text text stopwords.
Proof.
  unfold clean_text. rewrite list_ascii_of_string_of_list_ascii.
  intros Hurl Hfree. by rewrite clean_chars_stable.
Qed.

Lemma clean_text_idempotent_when_stable_witness :
  clean_text (clean_text "Hi! Please Give me some text." ["please"; "me"])
    ["please"; "me"]
  = clean_text "Hi! Please Give me some text." ["please"; "me"].
Proof.
  apply (clean_text_idempotent_when_stable "Hi! Please Give me some text."
           ["please"; "me"]); vm_compute; reflexivity.
Defined.

(** *** Plain texts *)

Lemma lower_char_underscore (c : ascii) : lower_char c = "_"%char → c = "_"%char.
Proof. by_cases_on c. Qed.

Lemma lower_no_underscore (s : list ascii) :
  Forall (λ c, c ≠ "_"%char) s → Forall (λ c, c ≠ "_"%char) (lower s).
Proof.
  intros Hs. apply Forall_fmap. eapply Forall_impl; [exact Hs|].
  intros c Hc H. by apply Hc, lower_char_underscore.
Qed.

(** The alternatives that stopwords made of letters and digits give. *)
Lemma plain_alts (stopwords : list string) :
  Forall (λ w, Forall (λ c, is_alnum c = true) (list_ascii_of_string w)) stopwords →
  Forall (word is_alnum) (proper_alts (alternatives stopwords)).
Proof.
  intros Hsw. apply Forall_forall. intros w [Hne Hin]%proper_alts_elem.
  split; [done|].
  pose proof (proj1 (Forall_forall _ _) Hsw _ Hin) as Hw. cbv beta in Hw.
  by rewrite list_ascii_of_string_of_list_ascii in Hw.
Qed.

(** On a text without underscore, in which [http] does not occur in
    either case, the first pass with stopwords made of letters and digits
    finds no link and leaves no stopword. *)
Lemma plain_text_stable (stopwords : list string) (s : list ascii) :
  Forall (λ w, Forall (λ c, is_alnum c = true) (list_ascii_of_string w)) stopwords →
  Forall (λ c, c ≠ "_"%char) s →
  ¬ piece http (lower s) →
  url_free (normalise stopwords s) = true ∧
  stopword_free stopwords (clean_chars stopwords s) = true.
Proof.
  intros Hsw Hunder Hhttp.
  destruct (normalise_fields stopwords s) as (ws & Hn & Hws & Hdef).
  assert (url_free (normalise stopwords s) = true) as Hurl.
  { apply no_piece_url_free. rewrite Hn. intros Hp.
    apply piece_unwords in Hp as (v & Hv & Hp); [|done|].
    - apply Hhttp. apply (piece_trans http v); [done|]. rewrite Hdef in Hv.
      exact (scan_fields_pieces (alternatives stopwords) (length (lower s))
               (lower s) (le_n _) [] None v Hv).
    - intros H. repeat (apply elem_of_cons in H as [H|H]; [discriminate H|]).
      by apply elem_of_nil in H. }
  split; [done|]. unfold clean_chars, stopword_free.
  rewrite (remove_urls_fixed _ Hurl), Hn.
  apply words_no_match; [by apply plain_alts | done | | done].
  intros w [_ Hin]%list_elem_of_filter. rewrite Hdef.
  apply no_stopword_left; [done | by apply lower_no_underscore].
Qed.

(** X10: cleaning is idempotent on the ASCII texts without underscore in
    which [http] does not occur in either case, for stopwords made of
    letters and digits. *)
Theorem clean_text_idempotent_plain (text : string) (stopwords : list string) :
  Forall (λ c, is_ascii c = true) (list_ascii_of_string text) →
  Forall (λ w, Forall (λ c, is_alnum c = true) (list_ascii_of_string w)) stopwords →
  Forall (λ c, c ≠ "_"%char) (list_ascii_of_string text) →
  ¬ piece http (lower (list_ascii_of_string text)) →
  clean_text (clean_text text stopwords) stopwords = clean_text text stopwords.
Proof.
  intros _ Hsw Hunder Hhttp. unfold clean_text.
  rewrite list_ascii_of_string_of_list_ascii.
  destruct (plain_text_stable stopwords _ Hsw Hunder Hhttp) as [Hurl Hfree].
  by rewrite clean_chars_stable.
Qed.

(** A stopword of two words can be put together by the first pass, which
    takes the comma away. *)
Example clean_text_joins_stopword :
  clean_text "a, b" ["a b"] = "a b" ∧ clean_text "a b" ["a b"] = "".
Proof. vm_compute. done. Qed.

(** *** The greeting *)

Definition greeting : string := "Hi! Please Give me some text.".

Lemma greeting_no_http :
  ¬ http `sublist_of` lower (list_ascii_of_string greeting).
Proof. intros H%subseq_complete. by vm_compute in H. Qed.

Lemma greeting_no_underscore :
  Forall (λ c, c ≠ "_"%char) (lower (list_ascii_of_string greeting)).
Proof. vm_compute. repeat (constructor; [discriminate|]). constructor. Qed.

Example clean_text_idempotent_greeting :
  clean_text (clean_text greeting ["please"; "me"]) ["please"; "me"]
  = clean_text greeting ["please"; "me"].
Proof.
  apply clean_text_idempotent_plain.
  - simpl. repeat (constructor; [reflexivity|]). constructor.
  - repeat constructor.
  - vm_compute. repeat (constructor; [discriminate|]). constructor.
  - intros H%piece_sublist. by apply greeting_no_http.
Defined.

Lemma http_no_space : Forall (λ c, c ≠ space) http.
Proof. repeat (constructor; [discriminate|]). constructor. Qed.

(** C2, as stated, fails in its second part: line 55 removes the
    punctuation that line 54 has set apart. *)
Lemma greeting_punctuation_removed :
  "please" ∈ ["please"] ∧
  is_punct "!" = true ∧ "!"%char ∈ list_ascii_of_string greeting ∧
  clean_text greeting ["please"] = "hi give me some text" ∧
  ("!" ∉ tokens (clean_text greeting ["please"])).
Proof.
  split; [left|]. split; [done|]. split; [by right; right; left|].
  split; [by vm_compute|]. vm_compute.
  intros H. repeat (apply elem_of_cons in H as [H|H]; [discriminate H|]).
  by apply elem_of_nil in H.
Qed.

(** When the text in lower case has no underscore and the letters of
    [http] cannot be read in it, no stopword is a token of the cleaned
    text, whose tokens are its alphanumeric words. *)
Lemma clean_text_tokens (text : string) (stopwords : list string) (w : string) :
  Forall (λ c, c ≠ "_"%char) (lower (list_ascii_of_string text)) →
  ¬ http `sublist_of` lower (list_ascii_of_string text) →
  w ∈ stopwords →
  (w ∉ tokens (clean_text text stopwords)) ∧
  Forall (λ t, Forall (λ c, is_alnum c = true) (list_ascii_of_string t))
    (tokens (clean_text text stopwords)).
Proof.
  intros Hunder Hhttp Hin.
  destruct (normalise_fields stopwords (list_ascii_of_string text))
    as (ws & Hn & Hws & Hdef).
  assert (url_free (normalise stopwords (list_ascii_of_string text)) = true) as Hurl.
  { apply no_http_url_free. rewrite Hn, Hdef. intros H. apply Hhttp.
    apply (unwords_fields_sublist is_alnum http _ http_no_space) in H.
    exact (sub_from_sublist _ http None 0 _ http_no_space H). }
  assert (tokens (clean_text text stopwords) = string_of_list_ascii <$> ws) as Htok.
  { unfold tokens, clean_text, clean_chars.
    rewrite list_ascii_of_string_of_list_ascii, (remove_urls_fixed _ Hurl), Hn.
    rewrite fields_unwords; [done | done |].
    eapply Forall_impl; [exact Hws|]. intros v [Hne Hv]. split; [done|].
    eapply Forall_impl; [exact Hv|]. intros c Hc. simpl.
    destruct (Ascii.eqb_spec c space) as [->|]; [|done].
    by rewrite space_not_alnum in Hc. }
  rewrite Htok. split.
  - intros (v & -> & Hv)%list_elem_of_fmap.
    apply (no_stopword_left (alternatives stopwords) v
             (lower (list_ascii_of_string text))); [|done|by rewrite <- Hdef].
    apply alternatives_elem in Hin.
    by rewrite list_ascii_of_string_of_list_ascii in Hin.
  - apply Forall_fmap.
    eapply Forall_impl; [exact Hws|]. intros v [_ Hv]. simpl.
    by rewrite list_ascii_of_string_of_list_ascii.
Qed.

(** No punctuation character occurs in a cleaned text. *)
Lemma clean_text_no_punctuation (text : string) (stopwords : list string) :
  Forall (λ c, is_punct c = false)
    (list_ascii_of_string (clean_text text stopwords)).
Proof.
  unfold clean_text. rewrite list_ascii_of_string_of_list_ascii.
  eapply Forall_impl; [apply clean_chars_alphabet|].
  intros c Hc. by apply clean_char_facts.
Qed.

(** C2, amended: whatever the stopwords, no stopword is a token of the
    cleaned greeting, and no punctuation character occurs in it: its
    tokens are made of letters and digits, the punctuation of the input
    having been replaced by the spaces between them. *)
Theorem greeting_cleaned (stopwords : list string) (w : string) :
  w ∈ stopwords →
  ((w ∉ tokens (clean_text greeting stopwords)) ∧
   Forall (λ t, Forall (λ c, is_alnum c = true) (list_ascii_of_string t))
     (tokens (clean_text greeting stopwords))) ∧
  Forall (λ c, is_punct c = false)
    (list_ascii_of_string (clean_text greeting stopwords)).
Proof.
  intros Hin. split.
  - exact (clean_text_tokens greeting stopwords w
             greeting_no_underscore greeting_no_http Hin).
  - exact (clean_text_no_punctuation greeting stopwords).
Qed.

Lemma greeting_cleaned_witness :
  (("please" ∉ tokens (clean_text greeting ["please"; "me"])) ∧
   Forall (λ t, Forall (λ c, is_alnum c = true) (list_ascii_of_string t))
     (tokens (clean_text greeting ["please"; "me"]))) ∧
  Forall (λ c, is_punct c = false)
    (list_ascii_of_string (clean_text greeting ["please"; "me"])).
Proof. apply (greeting_cleaned ["please"; "me"] "please"). left. Defined.

(** The greeting cleaned with two stopwords. *)
Example greeting_tokens :
  tokens (clean_text greeting ["please"; "me"]) = ["hi"; "give"; "some"; "text"].
Proof. vm_compute. reflexivity. Qed.

(** *** Links *)

(** A substring with a colon does not occur in a cleaned text. *)
Lemma clean_text_not_contains (needle text : string) (stopwords : list string) :
  ":"%char ∈ list_ascii_of_string needle →
  ¬ contains needle (clean_text text stopwords).
Proof.
  intros Hcolon (l & r & Heq). unfold clean_text in Heq.
  rewrite list_ascii_of_string_of_list_ascii in Heq.
  pose proof (clean_chars_alphabet stopwords (list_ascii_of_string text)) as Hall.
  rewrite Heq in Hall.
  apply Forall_app in Hall as [_ [Hneedle _]%Forall_app].
  pose proof (proj1 (Forall_forall _ _) Hneedle _ Hcolon) as Hc.
  by apply clean_char_facts in Hc as (_ & _ & ?).
Qed.

Lemma alternation_quiet (alts : list (list ascii)) (prev : option ascii)
    (s : list ascii) :
  (word_boundary prev (head s) = true →
   ∀ w, w ∈ alts → match_alt true prev s w = None) →
  alternation_pattern alts true prev s = None.
Proof.
  unfold alternation_pattern. intros H.
  destruct (word_boundary prev (head s)); [|done].
  by apply match_alts_None, H.
Qed.

(** No stopword other than [http] itself occurs in the text [http]. *)
Lemma http_stopword_free (stopwords : list string) :
  "http" ∉ stopwords → stopword_free stopwords http = true.
Proof.
  intros Hnot. unfold stopword_free.
  assert (∀ w, w ∈ proper_alts (alternatives stopwords) → w ≠ [] ∧ w ≠ http) as Halts.
  { intros w [Hne Hin]%proper_alts_elem. split; [done|]. by intros ->. }
  assert (∀ prev s, (∀ w r, w ≠ [] → w ≠ http → s = w ++ r →
              word_boundary prev (head s) = true →
              word_boundary (last_char prev w) (head r) = false) →
            alternation_pattern (proper_alts (alternatives stopwords)) true prev s
            = None) as Hquiet.
  { intros prev s Hs. apply alternation_quiet. intros Hb w Hw.
    destruct (Halts w Hw) as [Hne Hnh].
    destruct (match_alt true prev s w) as [n|] eqn:Hm; [|done].
    apply match_alt_Some in Hm as (r & Heq & Hbr & _).
    by rewrite (Hs w r Hne Hnh Heq Hb) in Hbr. }
  unfold http. simpl list_ascii_of_string.
  rewrite no_match_from_cons, (Hquiet None).
  2:{ intros w r Hne Hnh Heq _.
      destruct w as [|a [|b [|c [|d [|e w]]]]]; simplify_eq/=; done. }
  do 3 (rewrite no_match_from_cons, (Hquiet (Some _)); [|by intros w r _ _ _ [=]]).
  unfold no_match_from. rewrite (Hquiet (Some _)); [done|].
  intros w r Hne _ Heq _. destruct w; [done | discriminate].
Qed.

Lemma clean_http (stopwords : list string) :
  "http" ∉ stopwords → clean_text "http" stopwords = "http".
Proof.
  intros Hfree%http_stopword_free. unfold clean_text, clean_chars.
  change (list_ascii_of_string "http") with http.
  rewrite normalise_words. change (lower http) with http.
  rewrite (quiet_scan_fields _ _ Hfree). reflexivity.
Qed.

(** What is left of the address: its alphanumeric parts; the link
    pattern of line 58 finds nothing to remove. *)
Example url_example_output :
  clean_text "visit http://example.com now" ["please"; "now"]
  = "visit http example com".
Proof. vm_compute. reflexivity. Qed.

End CleanerFacts.


(** ** A concrete instance of the external operations

    A small engine, splitter and tokenizer that satisfy the contracts; the
    examples below run the pipeline on them. *)

Module Demo.
Import Table External.

(** Shuffling reverses, groups come in the order found, the dataset is
    one batch. *)
Definition engine : Engine := {|
  read_csv := λ _, [ {["id" := Num 1; "tag" := Str "nlp"]};
                     {["id" := Num 2; "tag" := Str "cv"]} ];
  random_shuffle := λ _ ds, reverse ds;
  unique := remove_dups;
  group_order := λ ks, ks;
  batches := λ ds, [ds];
|}.

(** The number of test rows for [n] rows: the fraction, rounded up. *)
Definition n_test (test_size : Q) (n : nat) : nat :=
  Z.to_nat (Qceiling (test_size * inject_Z (Z.of_nat n))).

(** The last rows form the test part; the call fails when the fraction
    is not strictly between 0 and 1 or would leave no training row. *)
Definition splitter : Splitter :=
  λ test_size _ _ df,
    let k := n_test test_size (length df) in
    if Qlt_le_dec 0 test_size then
      if Qlt_le_dec test_size 1 then
        if decide (k < length df)
        then Some (take (length df - k) df, drop (length df - k) df)
        else None
      else None
    else None.

(** One token per character, between the two special tokens 101 and
    102. *)
Definition tokenizer : Tokenizer := {|
  encode := λ s, 101 :: ((λ c, nat_of_ascii c) <$> list_ascii_of_string s) ++ [102];
  pad_token_id := 0;
|}.

End Demo.

Module DemoFacts.
Import Table External Demo.

Lemma engine_ok : EngineOk engine.
Proof.
  split; simpl.
  - intros _ ds. apply reverse_Permutation.
  - intros l. apply NoDup_remove_dups.
  - intros l x. apply elem_of_remove_dups.
  - reflexivity.
  - intros ds. by rewrite app_nil_r.
Qed.

Lemma Qceiling_bounds (q : Q) :
  (q <= inject_Z (Qceiling q))%Q ∧ (inject_Z (Qceiling q) < q + 1)%Q.
Proof.
  split; [apply Qle_ceiling|].
  pose proof (Qceiling_lt q) as H.
  unfold Z.sub in H. rewrite inject_Z_plus, inject_Z_opp in H.
  change (inject_Z 1) with 1%Q in H.
  generalize dependent (inject_Z (Qceiling q)). intros c H. lra.
Qed.

Lemma splitter_ok : SplitterOk splitter.
Proof.
  split; unfold splitter; intros ts sh seed df train test H;
    (destruct (Qlt_le_dec 0 ts) as [Hpos|]; [|done]);
    (destruct (Qlt_le_dec ts 1) as [Hlt|]; [|done]);
    case_decide as Hk; simplify_eq.
  - by rewrite take_drop.
  - rewrite length_drop.
    replace (length df - (length df - n_test ts (length df)))
      with (n_test ts (length df)) by lia.
    unfold n_test.
    set (q := (ts * inject_Z (Z.of_nat (length df)))%Q).
    assert (0 <= q)%Q as Hq.
    { unfold q. apply Qmult_le_0_compat; [lra|].
      change 0%Q with (inject_Z 0). rewrite <- Zle_Qle. lia. }
    assert (0 <= Qceiling q)%Z as Hc.
    { apply (Qceiling_resp_le 0 q Hq). }
    rewrite Z2Nat.id by done.
    destruct (Qceiling_bounds q) as [Hlo Hhi]. unfold float_slack.
    generalize dependent (inject_Z (Qceiling q)). intros c Hlo Hhi.
    split; lra.
Qed.

Lemma splitter_non_empty : SplitterNonEmpty splitter.
Proof.
  unfold splitter. intros ts sh seed df train test H.
  destruct (Qlt_le_dec 0 ts) as [Hpos|]; [|done].
  destruct (Qlt_le_dec ts 1) as [Hlt|]; [|done].
  case_decide as Hk; simplify_eq.
  assert (0 < n_test ts (length df)) as Hn.
  { unfold n_test. set (q := (ts * inject_Z (Z.of_nat (length df)))%Q).
    assert (0 < q)%Q as Hq.
    { unfold q. apply Qmult_lt_0_compat; [done|].
      change 0%Q with (inject_Z 0). rewrite <- Zlt_Qlt. lia. }
    assert (0 < Qceiling q)%Z; [|lia].
    rewrite Zlt_Qlt. pose proof (Qle_ceiling q) as Hle.
    change (inject_Z 0) with 0%Q.
    generalize dependent (inject_Z (Qceiling q)). intros c Hle. lra. }
  split; intros Hnil; apply (f_equal length) in Hnil;
    rewrite ?length_take, ?length_drop in Hnil; simpl in Hnil; lia.
Qed.

End DemoFacts.

(** ** Loader *)

Module LoaderFacts.
Import Table External Loader.

(** Without a sample count the loader returns the shuffled source. *)
Lemma load_data_all (E : Engine) (loc : string) :
  load_data E loc None = random_shuffle E 1234 (read_csv E loc).
Proof. reflexivity. Qed.

(** A count of zero is false in the test of line 17, so nothing is
    truncated. *)
Lemma load_data_zero (E : Engine) (loc : string) :
  load_data E loc (Some 0) = load_data E loc None.
Proof. reflexivity. Qed.

(** C4, as stated, fails for the sample count 0: the source below has two
    records, which is at least 0, and both are returned. *)
Lemma load_data_zero_count_keeps_all :
  0 ≤ length (read_csv Demo.engine "data.csv") ∧
  length (load_data Demo.engine "data.csv" (Some 0)) = 2 ∧
  length (load_data Demo.engine "data.csv" (Some 0)) ≠ 0.
Proof. vm_compute. repeat split; [lia | discriminate]. Qed.

(** C4, amended: for a positive sample count that the source can supply,
    the loader returns the first that many records of the shuffled source,
    hence exactly that many records, all of them records of the source;
    without a sample count it returns the shuffled source, which holds
    every record of the source. *)
Theorem load_data_sample (E : Engine) (loc : string) (n : nat) :
  EngineOk E →
  0 < n →
  n ≤ length (read_csv E loc) →
  load_data E loc (Some n) = take n (random_shuffle E 1234 (read_csv E loc)) ∧
  length (load_data E loc (Some n)) = n ∧
  load_data E loc (Some n) ⊆+ read_csv E loc ∧
  load_data E loc None ≡ₚ read_csv E loc.
Proof.
  intros HE Hpos Hle.
  pose proof (random_shuffle_perm E HE 1234 (read_csv E loc)) as Hperm.
  assert (load_data E loc (Some n) = take n (random_shuffle E 1234 (read_csv E loc)))
    as Heq by (destruct n; [lia | reflexivity]).
  rewrite Heq. repeat split.
  - rewrite length_take, (Permutation_length Hperm). lia.
  - rewrite <- Hperm at 2. apply sublist_submseteq, sublist_take.
  - exact Hperm.
Qed.

Lemma load_data_sample_witness :
  load_data Demo.engine "data.csv" (Some 1)
    = take 1 (random_shuffle Demo.engine 1234 (read_csv Demo.engine "data.csv")) ∧
  length (load_data Demo.engine "data.csv" (Some 1)) = 1 ∧
  load_data Demo.engine "data.csv" (Some 1) ⊆+ read_csv Demo.engine "data.csv" ∧
  load_data Demo.engine "data.csv" None ≡ₚ read_csv Demo.engine "data.csv".
Proof.
  apply (load_data_sample Demo.engine "data.csv" 1 DemoFacts.engine_ok).
  - lia.
  - vm_compute. lia.
Defined.

End LoaderFacts.

(** ** Stratified splitter *)

Module SplitFacts.
Import Table External Split.

(** Rows of a table that have the value [k] in column [key]. *)
Definition with_key (key : string) (k : cell) (ds : list row) : list row :=
  filter (λ r : row, r !! key = Some k) ds.

Lemma concat_all_nil {A B} (f : A → list B) (l : list A) :
  (∀ x, x ∈ l → f x = []) → concat (f <$> l) = [].
Proof.
  induction l as [|x l IH]; intros H; [done|]. simpl.
  rewrite (H x) by left. apply IH. intros y Hy. apply H. by right.
Qed.

(** The groups of distinct keys that cover a table are a rearrangement
    of the table. *)
Lemma groups_partition (key : string) (ks : list cell) (ds : list row) :
  NoDup ks →
  (∀ r, r ∈ ds → ∃ k, k ∈ ks ∧ r !! key = Some k) →
  concat ((λ k, with_key key k ds) <$> ks) ≡ₚ ds.
Proof.
  intros Hnd. induction ds as [|r ds IH]; intros Hcov.
  - by rewrite concat_all_nil.
  - destruct (Hcov r) as (k0 & Hk0 & Hr); [left|].
    trans (r :: concat ((λ k, with_key key k ds) <$> ks));
      [|constructor; apply IH; intros r' Hr'; apply Hcov; by right].
    clear IH Hcov. induction Hnd as [|k ks Hk Hnd IH]; [by inversion Hk0|].
    simpl. unfold with_key at 1 3. rewrite filter_cons.
    destruct (decide (k = k0)) as [->|Hne].
    + rewrite decide_True by done. simpl. f_equiv. f_equiv.
      rewrite (list_fmap_ext _ (λ k, with_key key k ds)); [done|].
      intros _ k Hin%list_elem_of_lookup_2.
      unfold with_key. rewrite filter_cons, decide_False; [done|].
      rewrite Hr. intros [= ->]. done.
    + rewrite decide_False by (rewrite Hr; congruence).
      apply elem_of_cons in Hk0 as [?|Hk0]; [congruence|].
      rewrite (IH Hk0). by rewrite Permutation_middle.
Qed.

Section facts.
Context (E : Engine) (split : Splitter).
Context (stratify : string) (test_size : Q) (shuffle : bool) (seed : Z).

Abbreviation add_split := (_add_split split test_size shuffle seed).
Abbreviation untag := (λ r : row, delete "_split" r).

Lemma filter_split_app (s : string) (l1 l2 : list row) :
  _filter_split s (l1 ++ l2) = _filter_split s l1 ++ _filter_split s l2.
Proof. unfold _filter_split. by rewrite filter_app, fmap_app. Qed.

Lemma filter_split_concat (s : string) (ls : list (list row)) :
  _filter_split s (concat ls) = concat (_filter_split s <$> ls).
Proof.
  induction ls as [|l ls IH]; [done|].
  simpl. by rewrite filter_split_app, IH.
Qed.

(** Filtering batch by batch is filtering the dataset, up to the order
    of the rows. *)
Lemma map_batches_filter_split (s : string) (ds : list row) :
  EngineOk E → map_batches E (_filter_split s) ds ≡ₚ _filter_split s ds.
Proof.
  intros HE. unfold map_batches. rewrite <- filter_split_concat.
  unfold _filter_split. by rewrite (batches_concat E HE).
Qed.

(** Rows tagged with one label pass the filter for that label, without
    the tag, and none passes the filter for another label. *)
Lemma filter_split_tagged (s t : string) (l : list row) :
  _filter_split s ((λ r : row, <["_split" := Str t]> r) <$> l)
  = if decide (s = t) then untag <$> l else [].
Proof.
  unfold _filter_split. induction l as [|r l IH].
  - by destruct (decide (s = t)).
  - rewrite fmap_cons, filter_cons, lookup_insert_eq.
    destruct (decide (s = t)) as [->|Hne].
    + rewrite decide_True by done.
      rewrite !fmap_cons, IH. by rewrite delete_insert_eq.
    + rewrite decide_False by congruence. exact IH.
Qed.

(** What the two filters keep of the result for one group. *)
Lemma filter_split_add_split (g res : list row) :
  add_split g = Some res →
  ∃ train test,
    split test_size shuffle seed g = Some (train, test) ∧
    _filter_split "train" res = untag <$> train ∧
    _filter_split "test" res = untag <$> test.
Proof.
  unfold _add_split. intros H.
  destruct (split test_size shuffle seed g) as [[train test]|]; [|done].
  simpl in H. injection H as <-. exists train, test.
  rewrite !filter_split_app, !filter_split_tagged. simpl.
  by rewrite app_nil_r.
Qed.

Lemma untag_lookup (key : string) (r : row) :
  key ≠ "_split" → untag r !! key = r !! key.
Proof. intros Hne. by rewrite lookup_delete_ne. Qed.

Context (HE : EngineOk E) (HS : SplitterOk split).

(** The two filters share out the rows of the groups. *)
Lemma filter_split_groups (groups results : list (list row)) :
  Forall2 (λ g res, add_split g = Some res) groups results →
  _filter_split "train" (concat results) ++ _filter_split "test" (concat results)
  ≡ₚ untag <$> concat groups.
Proof.
  induction 1 as [|g res groups results Hg _ IH]; [done|].
  simpl. rewrite !filter_split_app, fmap_app, <- IH.
  destruct (filter_split_add_split g res Hg) as (train & test & Hs & -> & ->).
  rewrite <- (split_perm split HS _ _ _ _ _ _ Hs), fmap_app.
  rewrite <- !(assoc_L (++)). f_equiv.
  rewrite !(assoc_L (++)). f_equiv. apply Permutation_app_comm.
Qed.

(** The rows of one class in either output are the rows the splitter
    put on that side for the group of the class. *)
Lemma filter_split_class (ds : list row) (ks : list cell)
    (results : list (list row)) (c : cell) :
  stratify ≠ "_split" →
  NoDup ks →
  Forall2 (λ k res, add_split (with_key stratify k ds) = Some res) ks results →
  if decide (c ∈ ks) then
    ∃ train test,
      split test_size shuffle seed (with_key stratify c ds) = Some (train, test) ∧
      with_key stratify c (_filter_split "train" (concat results)) = untag <$> train ∧
      with_key stratify c (_filter_split "test" (concat results)) = untag <$> test
  else
    with_key stratify c (_filter_split "train" (concat results)) = [] ∧
    with_key stratify c (_filter_split "test" (concat results)) = [].
Proof.
  intros Hne Hnd Hall. revert Hnd.
  induction Hall as [|k res ks results Hk _ IH]; intros Hnd.
  { rewrite decide_False by apply not_elem_of_nil. done. }
  apply NoDup_cons in Hnd as [Hk_notin Hnd]. specialize (IH Hnd).
  destruct (filter_split_add_split _ _ Hk) as (train & test & Hs & Htr & Hte).
  pose proof (split_perm split HS _ _ _ _ _ _ Hs) as Hperm.
  assert (∀ (side : list row), side ⊆ train ++ test →
    with_key stratify c (untag <$> side)
    = if decide (c = k) then untag <$> side else []) as Hside.
  { intros side Hsub. unfold with_key.
    induction side as [|r side IHs]; [by destruct (decide (c = k))|].
    assert (r !! stratify = Some k) as Hr.
    { assert (r ∈ with_key stratify k ds) as Hin.
      { rewrite <- Hperm. apply Hsub. left. }
      by apply list_elem_of_filter in Hin as [? _]. }
    rewrite fmap_cons, filter_cons, untag_lookup, Hr by done.
    rewrite IHs by (intros x Hx; apply Hsub; by right).
    destruct (decide (c = k)) as [->|Hck].
    - by rewrite decide_True.
    - rewrite decide_False; [done|]. congruence. }
  simpl. unfold with_key in *.
  rewrite !filter_split_app, !filter_app, Htr, Hte.
  rewrite (Hside train) by (intros x Hx; apply elem_of_app; by left).
  rewrite (Hside test) by (intros x Hx; apply elem_of_app; by right).
  destruct (decide (c = k)) as [->|Hck].
  - rewrite decide_True by left. rewrite decide_False in IH by done.
    destruct IH as [-> ->]. exists train, test. by rewrite !app_nil_r.
  - destruct (decide (c ∈ ks)) as [Hin|Hnin].
    + rewrite decide_True by (by right). exact IH.
    + rewrite decide_False by (intros [?|?]%elem_of_cons; done). exact IH.
Qed.

(** The keys that [groupby] enumerates are the values of the column,
    each once. *)
Lemma group_keys (keys : list cell) :
  NoDup (group_order E (remove_dups keys)) ∧
  ∀ k, k ∈ group_order E (remove_dups keys) ↔ k ∈ keys.
Proof.
  pose proof (group_order_perm E HE (remove_dups keys)) as Hp. split.
  - rewrite Hp. apply NoDup_remove_dups.
  - intros k. by rewrite Hp, elem_of_remove_dups.
Qed.

Lemma column_covers (ds : list row) (keys : list cell) :
  column stratify ds = Some keys →
  ∀ r, r ∈ ds → ∃ k, k ∈ keys ∧ r !! stratify = Some k.
Proof.
  intros Hcol%mapM_Some_1. induction Hcol as [|r k ds keys Hr _ IH].
  - intros r Hr. by apply elem_of_nil in Hr.
  - intros r' [->|Hin]%elem_of_cons.
    + exists k. split; [left|done].
    + destruct (IH r' Hin) as (k' & ? & ?). exists k'. split; [by right|done].
Qed.

(** When the column is there and the splitter returns for every group,
    the grouped and tagged dataset exists, with one result per key. *)
Lemma grouped_returns (ds : list row) (keys : list cell) :
  column stratify ds = Some keys →
  (∀ k, k ∈ keys → is_Some (split test_size shuffle seed (with_key stratify k ds))) →
  ∃ results,
    groupby E stratify ds ≫= map_groups add_split = Some (concat results) ∧
    Forall2 (λ k res, add_split (with_key stratify k ds) = Some res)
      (group_order E (remove_dups keys)) results.
Proof.
  intros Hcol Hsplit. unfold groupby, map_groups. rewrite Hcol. simpl.
  destruct (group_keys keys) as [_ Hks].
  set (ks := group_order E (remove_dups keys)) in *.
  destruct (mapM add_split ((λ k, filter (λ r : row, r !! stratify = Some k) ds) <$> ks))
    as [results|] eqn:Hm.
  - exists results. split; [done|].
    apply mapM_Some_1 in Hm. by apply Forall2_fmap_l in Hm.
  - exfalso. assert (is_Some (mapM add_split
      ((λ k, filter (λ r : row, r !! stratify = Some k) ds) <$> ks))) as [? Hsome];
      [|congruence].
    apply mapM_is_Some, Forall_fmap, Forall_forall. intros k Hk%Hks.
    destruct (Hsplit k Hk) as [[train test] Hs]. simpl.
    unfold _add_split, with_key in *. rewrite Hs. by eexists.
Qed.

(** C6: when the stratify column is present and the splitter returns
    for every group, [stratify_split] returns two datasets that together
    hold every input record exactly once (with its split label, if it
    had one, removed), so nothing is dropped or duplicated, and no
    record of either output has the column [_split]; when the input has
    no such column the outputs together are a rearrangement of the
    input itself. *)
Theorem stratify_split_partition (ds : list row) (keys : list cell) :
  column stratify ds = Some keys →
  (∀ k, k ∈ keys → is_Some (split test_size shuffle seed (with_key stratify k ds))) →
  ∃ train test,
    stratify_split E split stratify test_size shuffle seed ds = Some (train, test) ∧
    train ++ test ≡ₚ untag <$> ds ∧
    Forall (λ r : row, r !! "_split" = None) train ∧
    Forall (λ r : row, r !! "_split" = None) test ∧
    (Forall (λ r : row, r !! "_split" = None) ds → train ++ test ≡ₚ ds).
Proof.
  intros Hcol Hsplit.
  destruct (grouped_returns ds keys Hcol Hsplit) as (results & Hg & Hall).
  unfold stratify_split. rewrite Hg. simpl.
  eexists _, _. split; [reflexivity|].
  assert (random_shuffle E seed
            (map_batches E (_filter_split "train") (concat results)) ++
          random_shuffle E seed
            (map_batches E (_filter_split "test") (concat results))
          ≡ₚ untag <$> ds) as Hperm.
  { rewrite !(random_shuffle_perm E HE), !(map_batches_filter_split _ _ HE).
    assert (Forall2 (λ g res, add_split g = Some res)
      ((λ k, with_key stratify k ds) <$> group_order E (remove_dups keys))
      results) as Hall' by (by apply Forall2_fmap_l).
    rewrite (filter_split_groups _ _ Hall').
    destruct (group_keys keys) as [Hnd Hks].
    apply fmap_Permutation, groups_partition; [done|].
    intros r Hr. destruct (column_covers ds keys Hcol r Hr) as (k & Hk & Hrk).
    exists k. by rewrite Hks. }
  assert (∀ s, Forall (λ r : row, r !! "_split" = None)
    (random_shuffle E seed (map_batches E (_filter_split s) (concat results))))
    as Hnone.
  { intros s. rewrite (random_shuffle_perm E HE), (map_batches_filter_split _ _ HE).
    unfold _filter_split.
    apply Forall_fmap, Forall_forall. intros r _. apply lookup_delete_eq. }
  repeat split; [done|apply Hnone..|].
  intros Hds. rewrite Hperm.
  assert (untag <$> ds = ds) as ->; [|done].
  rewrite <- (list_fmap_id ds) at 2. apply list_fmap_ext.
  intros i r Hr. apply delete_id.
  by apply (proj1 (Forall_forall _ _) Hds), list_elem_of_lookup_2 with i.
Qed.

(** C5: when the stratify column (not the label column itself) is
    present and the splitter returns for every group, then for every
    class [c] of the column the records of [c] are shared out between
    the two outputs, and the number of them in the train output differs
    from the fraction [1 - test_size] of the class by less than one
    record, up to the rounding error of the floating-point product: it
    is the size of the class less the test fraction of that class alone,
    rounded up. *)
Theorem stratify_split_proportion (ds : list row) (keys : list cell) (c : cell) :
  stratify ≠ "_split" →
  column stratify ds = Some keys →
  (∀ k, k ∈ keys → is_Some (split test_size shuffle seed (with_key stratify k ds))) →
  c ∈ keys →
  ∃ train test,
    stratify_split E split stratify test_size shuffle seed ds = Some (train, test) ∧
    let n := length (with_key stratify c ds) in
    let n_train := length (with_key stratify c train) in
    let n_test := length (with_key stratify c test) in
    n_train + n_test = n ∧
    ((1 - test_size) * inject_Z (Z.of_nat n) - 1
       - test_size * inject_Z (Z.of_nat n) * float_slack
     < inject_Z (Z.of_nat n_train))%Q ∧
    (inject_Z (Z.of_nat n_train)
     < (1 - test_size) * inject_Z (Z.of_nat n) + 1
       + test_size * inject_Z (Z.of_nat n) * float_slack)%Q.
Proof.
  intros Hne Hcol Hsplit Hc.
  destruct (grouped_returns ds keys Hcol Hsplit) as (results & Hg & Hall).
  unfold stratify_split. rewrite Hg. simpl.
  eexists _, _. split; [reflexivity|].
  destruct (group_keys keys) as [Hnd Hks].
  pose proof (filter_split_class ds _ results c Hne Hnd Hall) as Hclass.
  rewrite decide_True in Hclass by (by apply Hks).
  destruct Hclass as (train & test & Hs & Htr & Hte).
  unfold with_key in *.
  rewrite !(random_shuffle_perm E HE), !(map_batches_filter_split _ _ HE).
  rewrite Htr, Hte, !length_fmap.
  pose proof (Permutation_length (split_perm split HS _ _ _ _ _ _ Hs)) as Hlen.
  rewrite length_app in Hlen.
  destruct (split_size split HS _ _ _ _ _ _ Hs) as [Hlo Hhi].
  rewrite <- Hlen in *. split; [done|].
  rewrite Nat2Z.inj_add, inject_Z_plus in *. unfold float_slack in *.
  generalize dependent (inject_Z (Z.of_nat (length train))).
  generalize dependent (inject_Z (Z.of_nat (length test))).
  intros a Hlo Hhi b. split; lra.
Qed.
End facts.

(** A dataset of six records in two classes, split with a quarter of
    each class held out. *)
Definition sample (i : Z) (tag : string) : row :=
  {[ "id" := Num i; "tag" := Str tag ]}.

Definition samples : list row :=
  [ sample 1 "nlp"; sample 2 "cv"; sample 3 "nlp";
    sample 4 "nlp"; sample 5 "cv"; sample 6 "nlp" ].

Definition sample_tags : list cell :=
  [Str "nlp"; Str "cv"; Str "nlp"; Str "nlp"; Str "cv"; Str "nlp"].

Lemma samples_column : column "tag" samples = Some sample_tags.
Proof. reflexivity. Qed.

Lemma samples_split (k : cell) :
  k ∈ sample_tags →
  is_Some (Demo.splitter (1 # 4) true 1234%Z (with_key "tag" k samples)).
Proof.
  intros Hk. repeat (apply elem_of_cons in Hk as [->|Hk]; [by eexists|]).
  by apply elem_of_nil in Hk.
Qed.

Lemma stratify_split_partition_witness :
  ∃ train test,
    stratify_split Demo.engine Demo.splitter "tag" (1 # 4) true 1234%Z samples
      = Some (train, test) ∧
    train ++ test ≡ₚ (λ r : row, delete "_split" r) <$> samples ∧
    Forall (λ r : row, r !! "_split" = None) train ∧
    Forall (λ r : row, r !! "_split" = None) test ∧
    (Forall (λ r : row, r !! "_split" = None) samples → train ++ test ≡ₚ samples).
Proof.
  exact (stratify_split_partition Demo.engine Demo.splitter "tag" (1 # 4) true 1234%Z
           DemoFacts.engine_ok DemoFacts.splitter_ok samples sample_tags
           samples_column samples_split).
Defined.

Lemma stratify_split_proportion_witness :
  ∃ train test,
    stratify_split Demo.engine Demo.splitter "tag" (1 # 4) true 1234%Z samples
      = Some (train, test) ∧
    let n := length (with_key "tag" (Str "nlp") samples) in
    let n_train := length (with_key "tag" (Str "nlp") train) in
    let n_test := length (with_key "tag" (Str "nlp") test) in
    n_train + n_test = n ∧
    ((1 - (1 # 4)) * inject_Z (Z.of_nat n) - 1
       - (1 # 4) * inject_Z (Z.of_nat n) * float_slack
     < inject_Z (Z.of_nat n_train))%Q ∧
    (inject_Z (Z.of_nat n_train)
     < (1 - (1 # 4)) * inject_Z (Z.of_nat n) + 1
       + (1 # 4) * inject_Z (Z.of_nat n) * float_slack)%Q.
Proof.
  apply (stratify_split_proportion Demo.engine Demo.splitter "tag" (1 # 4) true 1234%Z
           DemoFacts.engine_ok DemoFacts.splitter_ok samples sample_tags (Str "nlp")).
  - discriminate.
  - exact samples_column.
  - exact samples_split.
  - left.
Defined.

(** On these samples three of the four [nlp] records and one of the two
    [cv] records go to the train output; the records are shown by their
    ids. *)
Definition record_ids (ds : list row) : list (option cell) :=
  (λ r : row, r !! "id") <$> ds.

Example stratify_split_samples :
  (λ out, (record_ids out.1, record_ids out.2)) <$>
    stratify_split Demo.engine Demo.splitter "tag" (1 # 4) true 1234%Z samples
  = Some (Some <$> [Num 4; Num 3; Num 1; Num 2], Some <$> [Num 6; Num 5]).
Proof. vm_compute. reflexivity. Qed.

End SplitFacts.

(** ** Dictionaries *)

Module DictFacts.
Import Table.

Section dict.
Context {K V : Type} `{EqDecision K}.
Implicit Types (d : dict K V) (k : K) (v : V).

Lemma dict_get_Some d k v : dict_get k d = Some v → (k, v) ∈ d.
Proof.
  induction d as [|[k' v'] d IH]; simpl; [done|].
  case_decide as Hk; [intros [= ->]; subst; left | intros ?; right; auto].
Qed.

Lemma dict_get_None d k : dict_get k d = None ↔ k ∉ d.*1.
Proof.
  induction d as [|[k' v'] d IH]; simpl.
  - split; [intros _; apply not_elem_of_nil | done].
  - rewrite not_elem_of_cons. case_decide as Hk; [|by rewrite IH; intuition].
    split; [done | by intros [? _]].
Qed.

(** With distinct keys, a lookup finds exactly the bindings listed. *)
Lemma dict_get_NoDup d k v : NoDup d.*1 → dict_get k d = Some v ↔ (k, v) ∈ d.
Proof.
  intros Hnd. split; [apply dict_get_Some|].
  induction d as [|[k' v'] d IH]; simpl in *; [by intros ?%elem_of_nil|].
  apply NoDup_cons in Hnd as [Hk' Hnd].
  intros [[= -> ->]|Hin]%elem_of_cons.
  - by rewrite decide_True.
  - rewrite decide_False; [by apply IH|].
    intros ->. apply Hk', list_elem_of_fmap. by exists (k', v).
Qed.

Lemma dict_set_fresh d k v : k ∉ d.*1 → dict_set k v d = d ++ [(k, v)].
Proof.
  induction d as [|[k' v'] d IH]; simpl; [done|].
  rewrite not_elem_of_cons. intros [Hne Hk].
  rewrite decide_False by done. by rewrite IH.
Qed.

Lemma dict_of_items_from d (items : list (K * V)) :
  NoDup (d ++ items).*1 →
  foldl (λ d kv, dict_set kv.1 kv.2 d) d items = d ++ items.
Proof.
  revert d. induction items as [|[k v] items IH]; intros d Hnd; simpl.
  - by rewrite app_nil_r.
  - rewrite dict_set_fresh.
    + rewrite IH; rewrite <- (assoc_L (++)); done.
    + rewrite fmap_app in Hnd. apply NoDup_app in Hnd as (_ & Hd & _).
      intros Hk. apply (Hd k Hk). left.
Qed.

(** A comprehension over items with distinct keys lists the items. *)
Lemma dict_of_items_NoDup (items : list (K * V)) :
  NoDup items.*1 → dict_of_items items = items.
Proof. intros Hnd. by apply (dict_of_items_from []). Qed.
End dict.

Lemma enumerate_lookup {A} (l : list A) (i : nat) (x : A) :
  (i, x) ∈ enumerate l ↔ l !! i = Some x.
Proof.
  unfold enumerate. rewrite list_elem_of_lookup. split.
  - intros [j Hj]. rewrite list_lookup_imap in Hj.
    destruct (l !! j) eqn:Hl; simplify_eq/=. done.
  - intros Hl. exists i. by rewrite list_lookup_imap, Hl.
Qed.

Lemma enumerate_fst {A} (l : list A) : (enumerate l).*1 = seq 0 (length l).
Proof.
  unfold enumerate. apply list_eq. intros i.
  rewrite list_lookup_fmap, list_lookup_imap.
  destruct (l !! i) eqn:Hl; simpl.
  - symmetry. apply lookup_seq. split; [done|]. by apply lookup_lt_Some in Hl.
  - symmetry. apply lookup_seq_ge. by apply lookup_ge_None in Hl.
Qed.

Lemma enumerate_snd {A} (l : list A) : (enumerate l).*2 = l.
Proof.
  unfold enumerate. apply list_eq. intros i.
  rewrite list_lookup_fmap, list_lookup_imap. by destruct (l !! i).
Qed.

End DictFacts.

(** ** Stateful preprocessor *)

Module PreprocessorFacts.
Import Table External Preprocessor DictFacts.

Lemma swapped_fst {A B} (l : list (A * B)) :
  ((λ it, (it.2, it.1)) <$> l).*1 = l.*2.
Proof. induction l as [|[a b] l IH]; [done|]. rewrite !fmap_cons, IH. done. Qed.

Lemma swapped_twice {A B} (l : list (A * B)) :
  (λ kv, (kv.2, kv.1)) <$> ((λ it, (it.2, it.1)) <$> l) = l.
Proof. induction l as [|[a b] l IH]; [done|]. rewrite !fmap_cons, IH. done. Qed.

(** The two dictionaries that [fit] builds from distinct tags: the tags
    paired with their positions, and the positions paired with their
    tags. *)
Lemma fit_dicts (tags : list cell) :
  NoDup tags →
  dict_of_items ((λ it, (it.2, it.1)) <$> enumerate tags)
    = (λ it, (it.2, it.1)) <$> enumerate tags ∧
  inverse ((λ it, (it.2, it.1)) <$> enumerate tags) = enumerate tags.
Proof.
  intros Hnd. split.
  - apply dict_of_items_NoDup. by rewrite swapped_fst, enumerate_snd.
  - unfold inverse. rewrite swapped_twice.
    apply dict_of_items_NoDup. rewrite enumerate_fst. apply NoDup_seq.
Qed.

Lemma class_index_lookup (tags : list cell) (c : cell) (i : nat) :
  NoDup tags →
  dict_get c ((λ it, (it.2, it.1)) <$> enumerate tags) = Some i ↔ tags !! i = Some c.
Proof.
  intros Hnd. rewrite dict_get_NoDup.
  - rewrite list_elem_of_fmap. split.
    + intros ([j x] & [= -> ->] & Hin). by apply enumerate_lookup.
    + intros Hl. exists (i, c). split; [done|]. by apply enumerate_lookup.
  - by rewrite swapped_fst, enumerate_snd.
Qed.

Lemma index_class_lookup (tags : list cell) (c : cell) (i : nat) :
  dict_get i (enumerate tags) = Some c ↔ tags !! i = Some c.
Proof.
  rewrite dict_get_NoDup; [apply enumerate_lookup|].
  rewrite enumerate_fst. apply NoDup_seq.
Qed.

(** C7: on a dataset with a tag column, [fit] returns a preprocessor
    whose [class_to_index] is defined exactly on the labels of the column,
    takes its values in [0, n) where [n] is the number of distinct labels,
    and has one entry per label; [index_to_class] is its inverse: a label
    is mapped to an index exactly when the index is mapped back to the
    label, looking up the index of an observed label and then the class
    of that index gives the label back, and looking up the class of an
    index below [n] and then its index gives the index back. *)
Theorem fit_class_mapping_bijection (E : Engine) (self : CustomPreprocessor)
    (ds : list row) (tags : list cell) :
  EngineOk E →
  column "tag" ds = Some tags →
  ∃ p, fit E self ds = Some p ∧
    let n := length (remove_dups tags) in
    length (class_to_index p) = n ∧
    length (index_to_class p) = n ∧
    (∀ c, c ∈ tags ↔ is_Some (dict_get c (class_to_index p))) ∧
    (∀ i, i < n ↔ is_Some (dict_get i (index_to_class p))) ∧
    (∀ c i, dict_get c (class_to_index p) = Some i → i < n) ∧
    (∀ c i, dict_get c (class_to_index p) = Some i
            ↔ dict_get i (index_to_class p) = Some c) ∧
    (∀ c, c ∈ tags →
          dict_get c (class_to_index p) ≫= (λ i, dict_get i (index_to_class p))
          = Some c) ∧
    (∀ i, i < n →
          dict_get i (index_to_class p) ≫= (λ c, dict_get c (class_to_index p))
          = Some i).
Proof.
  intros HE Hcol. unfold fit. rewrite Hcol. simpl.
  pose proof (unique_NoDup E HE tags) as Hnd.
  pose proof (unique_elem E HE tags) as Hel.
  set (u := unique E tags) in *.
  assert (length u = length (remove_dups tags)) as Hlen.
  { apply Permutation_length, NoDup_Permutation;
      [done | apply NoDup_remove_dups |].
    intros x. by rewrite Hel, elem_of_remove_dups. }
  destruct (fit_dicts u Hnd) as [Hc2i Hi2c].
  eexists. split; [reflexivity|]. simpl. rewrite Hc2i, Hi2c, <- Hlen.
  assert (∀ c i, dict_get c ((λ it, (it.2, it.1)) <$> enumerate u) = Some i
                 ↔ dict_get i (enumerate u) = Some c) as Hinv.
  { intros c i. by rewrite class_index_lookup, index_class_lookup. }
  assert (∀ c, c ∈ tags ↔
    is_Some (dict_get c ((λ it, (it.2, it.1)) <$> enumerate u))) as Hdom.
  { intros c. rewrite <- Hel, list_elem_of_lookup. unfold is_Some.
    by setoid_rewrite class_index_lookup. }
  assert (∀ i, i < length u ↔ is_Some (dict_get i (enumerate u))) as Hran.
  { intros i. rewrite <- lookup_lt_is_Some. unfold is_Some.
    by setoid_rewrite index_class_lookup. }
  repeat split.
  - rewrite length_fmap. unfold enumerate. by rewrite length_imap.
  - unfold enumerate. by rewrite length_imap.
  - apply Hdom.
  - apply Hdom.
  - apply Hran.
  - apply Hran.
  - intros c i Hci. apply Hran. exists c. by apply Hinv.
  - apply Hinv.
  - apply Hinv.
  - intros c [i Hi]%Hdom. rewrite Hi. simpl. by apply Hinv.
  - intros i [c Hc]%Hran. rewrite Hc. simpl. by apply Hinv.
Qed.

Lemma fit_class_mapping_bijection_witness :
  ∃ p, fit Demo.engine (init []) SplitFacts.samples = Some p ∧
    let n := length (remove_dups SplitFacts.sample_tags) in
    length (class_to_index p) = n ∧
    length (index_to_class p) = n ∧
    (∀ c, c ∈ SplitFacts.sample_tags ↔ is_Some (dict_get c (class_to_index p))) ∧
    (∀ i, i < n ↔ is_Some (dict_get i (index_to_class p))) ∧
    (∀ c i, dict_get c (class_to_index p) = Some i → i < n) ∧
    (∀ c i, dict_get c (class_to_index p) = Some i
            ↔ dict_get i (index_to_class p) = Some c) ∧
    (∀ c, c ∈ SplitFacts.sample_tags →
          dict_get c (class_to_index p) ≫= (λ i, dict_get i (index_to_class p))
          = Some c) ∧
    (∀ i, i < n →
          dict_get i (index_to_class p) ≫= (λ c, dict_get c (class_to_index p))
          = Some i).
Proof.
  exact (fit_class_mapping_bijection Demo.engine (init []) SplitFacts.samples
           SplitFacts.sample_tags DemoFacts.engine_ok SplitFacts.samples_column).
Defined.

(** The mapping fitted on the samples. *)
Example fit_samples :
  fit Demo.engine (init []) SplitFacts.samples
  = Some {| class_to_index := [(Str "cv", 0); (Str "nlp", 1)];
            index_to_class := [(0, Str "cv"); (1, Str "nlp")] |}.
Proof. reflexivity. Qed.

End PreprocessorFacts.

(** ** Batch encoder *)

Module EncoderFacts.
Import Table External Cleaner Encoder.

Lemma mapM_fuse {A B C D} (f : A → option B) (g : B → option C)
    (k : list C → option D) (l : list A) :
  (l1 ← mapM f l; l2 ← mapM g l1; k l2) = (l2 ← mapM (λ x, f x ≫= g) l; k l2).
Proof.
  revert k. induction l as [|x l IH]; intros k; [done|].
  simpl. destruct (f x) as [y|]; simpl; [|done].
  destruct (g y) as [z|] eqn:Hz.
  - specialize (IH (λ l2, k (z :: l2))).
    destruct (mapM f l) as [l1|]; simpl in *; [rewrite Hz; simpl|];
      destruct (mapM (λ x, f x ≫= g) l); simpl in *;
      try destruct (mapM g l1); simpl in *; congruence.
  - simpl. destruct (mapM f l) as [l1|]; simpl; [|done]. by rewrite Hz.
Qed.

Lemma mapM_bind {A B C} (f : A → option B) (g : B → option C) (l : list A) :
  mapM f l ≫= mapM g = mapM (λ x, f x ≫= g) l.
Proof.
  pose proof (mapM_fuse f g Some l) as H.
  destruct (mapM (λ x, f x ≫= g) l); destruct (mapM f l) as [l1|];
    simpl in *; try destruct (mapM g l1); simpl in *; congruence.
Qed.

Lemma mapM_fmap_arg {A B C} (h : A → B) (g : B → option C) (l : list A) :
  mapM g (h <$> l) = mapM (λ x, g (h x)) l.
Proof.
  induction l as [|x l IH]; [done|]. rewrite fmap_cons. simpl.
  destruct (g (h x)); simpl; [by rewrite IH | done].
Qed.

Lemma mapM_fuse_fmap {A B B' C D} (f : A → option B) (h : B → B')
    (g : B' → option C) (k : list C → option D) (l : list A) :
  (l1 ← mapM f l; l2 ← mapM g (h <$> l1); k l2)
  = (l2 ← mapM (λ x, f x ≫= λ y, g (h y)) l; k l2).
Proof.
  rewrite <- mapM_fuse. destruct (mapM f l); simpl; [|done].
  by rewrite mapM_fmap_arg.
Qed.

Lemma mapM_fmap_res {A B C} (f : A → option B) (h : B → C) (l : list A) :
  mapM (λ x, h <$> f x) l = fmap h <$> mapM f l.
Proof.
  induction l as [|x l IH]; [done|]. simpl.
  destruct (f x); simpl; [|done]. rewrite IH. by destruct (mapM f l).
Qed.

Lemma mapM_ext {A B} (f g : A → option B) (l : list A) :
  (∀ x, f x = g x) → mapM f l = mapM g l.
Proof.
  intros H. induction l as [|x l IH]; [done|]. simpl. rewrite H.
  destruct (g x); simpl; [by rewrite IH | done].
Qed.

Lemma mapM_total {A B} (f : A → B) (l : list A) :
  mapM (λ x, Some (f x)) l = Some (f <$> l).
Proof. induction l as [|x l IH]; [done|]. simpl. by rewrite IH. Qed.

(** *** Shape of the tokenizer's output *)






(** A batch that [preprocess] accepts: every record has a title and a
    description, which are strings, and a tag. *)
Definition well_formed (df : list row) : Prop :=
  Forall (λ r : row, ∃ title description tag,
            r !! "title" = Some (Str title) ∧
            r !! "description" = Some (Str description) ∧
            r !! "tag" = Some tag) df.




Section preprocess.
Context (T : Tokenizer) (STOPWORDS : list string).

(** What [preprocess] computes for one record: its cleaned text and
    its target. *)
Definition encode_row (class_to_index : dict cell nat) (r : row)
    : option (string * cell) :=
  title ← r !! "title" ≫= as_text;
  description ← r !! "description" ≫= as_text;
  tag ← r !! "tag";
  Some (clean_text ((title +:+ " ") +:+ description) STOPWORDS,
        map_cell class_to_index tag).

Definition encoded_row (e : string * cell) : row :=
  <["tag" := e.2]> (<["text" := Str e.1]> ∅).

Lemma row_pipeline (c2i : dict cell nat) (r : row) :
  ((add_text r ≫= clean_row STOPWORDS) ≫= (λ r, select_columns (drop_columns r)))
    ≫= map_tag c2i
  = encoded_row <$> encode_row c2i r.
Proof.
  unfold add_text, clean_row, select_columns, drop_columns, map_tag,
    encode_row, encoded_row.
  destruct (r !! "title") as [[title| |]|] eqn:Ht; simpl; try done;
    destruct (r !! "description") as [[description| |]|] eqn:Hd; simpl; try done.
  rewrite lookup_insert_eq. simpl.
  rewrite !lookup_delete_ne, lookup_insert_eq by done. simpl.
  rewrite !lookup_insert_ne by done.
  destruct (r !! "tag") as [tag|] eqn:Hg; simpl; [|done].
  rewrite lookup_insert_eq. simpl. by rewrite insert_insert_eq.
Qed.

(** [preprocess] encodes the records one by one and hands the cleaned
    texts to the tokenizer. *)
Lemma preprocess_rows (df : list row) (c2i : dict cell nat) :
  preprocess T STOPWORDS df c2i
  = (rows ← mapM (encode_row c2i) df;
     Some {| ids := input_ids T rows.*1; masks := attention_mask T rows.*1;
             targets := rows.*2 |}).
Proof.
  unfold preprocess. cbv zeta.
  rewrite (mapM_fuse add_text (clean_row STOPWORDS)).
  rewrite (mapM_fuse_fmap _ drop_columns select_columns).
  rewrite (mapM_fuse _ (map_tag c2i)).
  rewrite (mapM_ext _ _ _ (row_pipeline c2i)), mapM_fmap_res.
  destruct (mapM (encode_row c2i) df) as [rows|]; simpl; [|done].
  unfold tokenize, column.
  rewrite mapM_bind, !mapM_fmap_arg.
  rewrite (mapM_ext _ (λ e, Some e.1)), (mapM_ext _ (λ e : string * cell, Some e.2)).
  - by rewrite !mapM_total.
  - intros e. unfold encoded_row. by rewrite lookup_insert_eq.
  - intros e. unfold encoded_row.
    rewrite lookup_insert_ne, lookup_insert_eq by done. done.
Qed.

Lemma encode_rows_returns (df : list row) (c2i : dict cell nat) :
  well_formed df →
  ∃ rows, mapM (encode_row c2i) df = Some rows ∧
    Forall2 (λ (r : row) e, ∃ tag, r !! "tag" = Some tag ∧ e.2 = map_cell c2i tag)
      df rows.
Proof.
  induction 1 as [|r df (title & description & tag & Ht & Hd & Hg) _ (rows & IH & Hall)].
  - by exists [].
  - assert (encode_row c2i r
      = Some (clean_text ((title +:+ " ") +:+ description) STOPWORDS,
              map_cell c2i tag)) as Hr
      by (unfold encode_row; by rewrite Ht, Hd, Hg).
    eexists (_ :: rows). simpl. rewrite Hr, IH. simpl. split; [reflexivity|].
    constructor; [by exists tag | done].
Qed.
End preprocess.


(** C9: on a batch that [preprocess] accepts, a tag that is not a key of
    the mapping raises no error: the encoded output exists, the target of
    a record whose tag is not mapped is the missing value, and the target
    of a record whose tag is mapped is the index the mapping gives. *)
Theorem preprocess_unmapped_tag (T : Tokenizer) (STOPWORDS : list string)
    (df : list row) (class_to_index : dict cell nat) :
  well_formed df →
  ∃ out, preprocess T STOPWORDS df class_to_index = Some out ∧
    ∀ i (r : row) tag,
      df !! i = Some r → r !! "tag" = Some tag →
      targets out !! i
      = Some (match dict_get tag class_to_index with
              | Some index => Num (Z.of_nat index)
              | None => Null
              end).
Proof.
  intros Hdf. rewrite preprocess_rows.
  destruct (encode_rows_returns STOPWORDS df class_to_index Hdf) as (rows & -> & Hall).
  eexists. split; [reflexivity|]. simpl.
  intros i r tag Hr Hg. rewrite list_lookup_fmap.
  destruct (Forall2_lookup_l _ _ _ _ _ Hall Hr) as (e & -> & tag' & Hg' & He).
  simpl. rewrite He. by simplify_eq.
Qed.

(** Two records that agree on title, description and tag. *)
Definition same_content (r1 r2 : row) : Prop :=
  r1 !! "title" = r2 !! "title" ∧
  r1 !! "description" = r2 !! "description" ∧
  r1 !! "tag" = r2 !! "tag".

(** C10: two batches whose records agree, one by one, on title,
    description and tag are encoded alike by [preprocess], whatever their
    other columns, the identifier and the timestamp among them, hold: the
    results, a failure included, are equal. *)
Theorem preprocess_ignores_id_and_timestamp (T : Tokenizer)
    (STOPWORDS : list string) (df1 df2 : list row) (class_to_index : dict cell nat) :
  Forall2 same_content df1 df2 →
  preprocess T STOPWORDS df1 class_to_index = preprocess T STOPWORDS df2 class_to_index.
Proof.
  intros Hsame. rewrite !preprocess_rows. f_equal.
  induction Hsame as [|r1 r2 df1 df2 (Ht & Hd & Hg) _ IH]; [done|].
  simpl. rewrite IH. unfold encode_row. by rewrite Ht, Hd, Hg.
Qed.

(** A batch of two records; the mapping knows the tag of the first
    only. *)
Definition record (id : Z) (created_on title description tag : string) : row :=
  {[ "id" := Num id; "created_on" := Str created_on; "title" := Str title;
     "description" := Str description; "tag" := Str tag ]}.

Definition batch1 : list row :=
  [ record 1 "2020-02-20" "Comparison of Transformers" "A look at BERT and GPT." "nlp";
    record 2 "2020-03-03" "Show, Infer and Tell" "Captions for the images!" "cv" ].

Definition batch2 : list row :=
  [ record 71 "2021-12-24" "Comparison of Transformers" "A look at BERT and GPT." "nlp";
    record 72 "2022-01-01" "Show, Infer and Tell" "Captions for the images!" "cv" ].

Definition stopwords1 : list string := ["a"; "at"; "and"; "for"; "of"; "the"].

Definition mapping1 : dict cell nat := [(Str "nlp", 0)].

Lemma batch1_well_formed : well_formed batch1.
Proof. repeat constructor; by eexists _, _, _. Qed.



Lemma preprocess_unmapped_tag_witness :
  ∃ out, preprocess Demo.tokenizer stopwords1 batch1 mapping1 = Some out ∧
    ∀ i (r : row) tag,
      batch1 !! i = Some r → r !! "tag" = Some tag →
      targets out !! i
      = Some (match dict_get tag mapping1 with
              | Some index => Num (Z.of_nat index)
              | None => Null
              end).
Proof.
  exact (preprocess_unmapped_tag Demo.tokenizer stopwords1 batch1 mapping1
           batch1_well_formed).
Defined.

Lemma batches_same_content : Forall2 same_content batch1 batch2.
Proof. repeat constructor. Qed.

Lemma preprocess_ignores_id_and_timestamp_witness :
  preprocess Demo.tokenizer stopwords1 batch1 mapping1
  = preprocess Demo.tokenizer stopwords1 batch2 mapping1.
Proof.
  exact (preprocess_ignores_id_and_timestamp Demo.tokenizer stopwords1
           batch1 batch2 mapping1 batches_same_content).
Defined.

(** The targets of the batch: the index of [nlp], and a missing value
    for [cv]; and the cleaned texts that reach the tokenizer. *)
Example preprocess_batch1_targets :
  targets <$> preprocess Demo.tokenizer stopwords1 batch1 mapping1
  = Some [Num 0; Null].
Proof. vm_compute. reflexivity. Qed.

Example encode_batch1_texts :
  fmap fst <$> mapM (encode_row stopwords1 mapping1) batch1
  = Some ["comparison transformers look bert gpt";
          "show infer tell captions images"].
Proof. vm_compute. reflexivity. Qed.

End EncoderFacts.

(** * Further properties *)

(** ** Link removal *)

Module UrlFacts.
Import Chars Re Cleaner Words CharsFacts ReFacts WordsFacts StopwordFacts
  CleanerFacts.

(** The class [\S]. *)
Definition not_space (c : ascii) : bool := negb (is_space c).

(** Line 58 with the state of the scan made explicit. *)
Abbreviation unlink := (sub_from url_pattern (λ _, [])).

(** The link pattern looks at the text only. *)
Lemma unlink_prev (prev prev' : option ascii) (k : nat) (s : list ascii) :
  unlink prev k s = unlink prev' k s.
Proof.
  revert prev prev' k. induction s as [|c s IH]; intros prev prev' k.
  - by destruct k.
  - destruct k as [|k]; [|apply IH]. rewrite !sub_from_cons.
    change (url_pattern false prev' (c :: s)) with (url_pattern false prev (c :: s)).
    change (url_pattern true prev' (c :: s)) with (url_pattern true prev (c :: s)).
    reflexivity.
Qed.

(** What a greedy run leaves: nothing, or a text that begins outside the
    class. *)
Lemma span_length_drop (p : ascii → bool) (s : list ascii) :
  drop (span_length p s) s = [] ∨
  ∃ y t, drop (span_length p s) s = y :: t ∧ p y = false.
Proof.
  induction s as [|c s IH]; [by left|]. simpl.
  destruct (p c) eqn:Hc; [exact IH|]. right. by exists c, s.
Qed.

(** A link: [http], one more character that is not whitespace, and the
    rest of the run of such characters. *)
Lemma url_pattern_Some (adv : bool) (prev : option ascii) (s : list ascii) (n : nat) :
  url_pattern adv prev s = Some n ↔
  ∃ x r, s = http ++ x :: r ∧ is_space x = false ∧
         n = 5 + span_length not_space r.
Proof.
  unfold url_pattern. fold http. split.
  - destruct (strip_prefix http s) as [r|] eqn:Hr; [|done].
    apply strip_prefix_Some in Hr as ->.
    destruct r as [|x r]; [done|]. simpl.
    destruct (is_space x) eqn:Hx; [done|]. simpl.
    intros [= <-]. by exists x, r.
  - intros (x & r & -> & Hx & ->).
    assert (strip_prefix http (http ++ x :: r) = Some (x :: r)) as ->
      by by apply strip_prefix_Some.
    simpl. by rewrite Hx.
Qed.

(** One step of the removal of links: the character is copied, or a link
    is dropped and the scan resumes after it, at the end of the text or
    at a whitespace character. *)
Lemma unlink_cons (c : ascii) (s : list ascii) :
  (url_pattern true None (c :: s) = None ∧
   unlink None 0 (c :: s) = c :: unlink None 0 s) ∨
  (∃ n, url_pattern true None (c :: s) = Some n ∧
        0 < n ≤ length (c :: s) ∧
        unlink None 0 (c :: s) = unlink None 0 (drop n (c :: s)) ∧
        (drop n (c :: s) = [] ∨
         ∃ y t, drop n (c :: s) = y :: t ∧ is_space y = true ∧
                unlink None 0 (y :: t) = y :: unlink None 0 t)).
Proof.
  rewrite sub_from_cons.
  change (url_pattern false None (c :: s)) with (url_pattern true None (c :: s)).
  destruct (url_pattern true None (c :: s)) as [n|] eqn:Hm.
  - pose proof Hm as (x & r & Heq & Hx & Hn)%url_pattern_Some.
    destruct n as [|k]; [lia|]. right. exists (S k).
    assert (S k ≤ length (c :: s)) as Hlen.
    { rewrite Heq, Hn, length_app. simpl.
      pose proof (span_length_le not_space r). lia. }
    split; [done|]. split; [lia|]. split.
    + simpl app.
      change (unlink (Some c) k s) with (unlink None (S k) (c :: s)).
      rewrite sub_from_skip by done. apply unlink_prev.
    + rewrite Heq, Hn.
      change (drop (5 + span_length not_space r) (http ++ x :: r))
        with (drop (span_length not_space r) r).
      destruct (span_length_drop not_space r) as [->|(y & t & -> & Hy)]; [by left|].
      right. exists y, t. apply negb_false_iff in Hy. split; [done|]. split; [done|].
      rewrite sub_from_cons.
      assert (∀ adv, url_pattern adv None (y :: t) = None) as Hnone.
      { intros adv. destruct (url_pattern adv None (y :: t)) as [j|] eqn:Hj; [|done].
        apply url_pattern_Some in Hj as (x' & r' & [= -> _] & _). done. }
      rewrite !Hnone. f_equal. apply unlink_prev.
  - left. split; [done|]. f_equal. apply unlink_prev.
Qed.

(** A character that is not whitespace at the head of the result was
    copied from the head of the text. *)
Lemma unlink_head (s : list ascii) (x : ascii) (r : list ascii) :
  unlink None 0 s = x :: r → is_space x = false →
  ∃ s', s = x :: s' ∧ unlink None 0 s' = r.
Proof.
  destruct s as [|c s]; [done|]. intros Heq Hx.
  destruct (unlink_cons c s) as [[_ Hs]|(n & _ & _ & Hs & Hrest)];
    rewrite Hs in Heq.
  - injection Heq as -> Heq. by exists s.
  - destruct Hrest as [Hd|(y & t & Hd & Hy & Hyt)]; rewrite Hd in Heq; [done|].
    rewrite Hyt in Heq. injection Heq as -> _. congruence.
Qed.

(** No link is left once the links have been removed. *)
Lemma unlink_url_free (n : nat) :
  ∀ s, length s ≤ n → ∀ prev,
    no_match_from url_pattern prev (unlink None 0 s) = true.
Proof.
  induction n as [|n IH]; intros s Hlen prev.
  - by destruct s; [|simpl in Hlen; lia].
  - destruct s as [|c s]; [done|]. simpl in Hlen.
    destruct (unlink_cons c s) as [[Hnone Hs]|(k & _ & Hk & Hs & _)]; rewrite Hs.
    + rewrite no_match_from_cons.
      destruct (url_pattern true prev (c :: unlink None 0 s)) as [k|] eqn:Hm;
        [|apply IH; lia].
      exfalso. apply url_pattern_Some in Hm as (x & r & Heq & Hx & _).
      injection Heq as -> Heq.
      apply unlink_head in Heq as (s1 & -> & Heq); [|done].
      apply unlink_head in Heq as (s2 & -> & Heq); [|done].
      apply unlink_head in Heq as (s3 & -> & Heq); [|done].
      apply unlink_head in Heq as (s4 & -> & Heq); [|done].
      assert (url_pattern true None (http ++ x :: s4) = Some (5 + span_length not_space s4))
        as Hsome by (apply url_pattern_Some; by exists x, s4).
      unfold http in Hsome. simpl app in Hsome. congruence.
    + apply IH. rewrite length_drop. simpl in *. lia.
Qed.

(** Where the link pattern finds nothing, [http] is nowhere followed by
    a character that is not whitespace. *)
Lemma url_free_spec (prev : option ascii) (s l : list ascii) (x : ascii)
    (r : list ascii) :
  no_match_from url_pattern prev s = true →
  s = l ++ http ++ x :: r → is_space x = true.
Proof.
  revert prev s. induction l as [|a l IH]; intros prev s Hfree ->.
  - destruct (is_space x) eqn:Hx; [done|].
    assert (url_pattern true prev (http ++ x :: r) = Some (5 + span_length not_space r))
      as Hsome by (apply url_pattern_Some; by exists x, r).
    unfold http in Hsome. simpl app in *. rewrite no_match_from_cons, Hsome in Hfree.
    done.
  - simpl app in Hfree. rewrite no_match_from_cons in Hfree. revert Hfree.
    destruct (url_pattern true prev _); [done|].
    intros Hfree. by apply (IH (Some a) _ Hfree).
Qed.

End UrlFacts.

(** ** The scan that removes stopwords, further *)

Module KeepFacts.
Import Chars Re Cleaner Words CharsFacts ReFacts WordsFacts StepsFacts
  StopwordFacts ScanFacts CleanerFacts.

Section keep.
Context (alts : list (list ascii)).
Context (Halts : Forall (Forall (λ c, is_alnum c = true)) alts).

Abbreviation pat := (alternation_pattern alts).

(** The words that are not alternatives of the pattern. *)
Definition keep (ws : list (list ascii)) : list (list ascii) :=
  filter (λ w, w ∉ alts) ws.

Lemma keep_emit (cur : list ascii) (prev : option ascii) (s : list ascii) :
  scan_inv alts cur prev s →
  (cur ≠ [] → from_option is_word false (head s) = false) →
  keep (emit cur) = emit cur.
Proof.
  intros Hinv Hnext. destruct cur as [|a cur]; [done|].
  unfold keep. simpl. rewrite filter_cons, decide_True; [done|].
  intros Hin. apply (close_word alts _ (a :: cur) prev s Hin Hinv Hnext). left.
Qed.

(** A word that is complete: what follows is not a letter or a digit. *)
Lemma fields_from_word_end (w r : list ascii) :
  w ≠ [] →
  (∀ y, head r = Some y → is_alnum y = false) →
  fields_from is_alnum w r = w :: fields is_alnum r.
Proof.
  intros Hne Hr. unfold fields. destruct r as [|y r]; simpl.
  - by destruct w.
  - rewrite (Hr y eq_refl). by destruct w.
Qed.

Lemma fields_drop_spaces (r : list ascii) :
  fields is_alnum (drop (span_length is_space r) r) = fields is_alnum r.
Proof.
  destruct (span_length is_space r) as [|j] eqn:Hj; [done|].
  symmetry. rewrite <- Hj. unfold fields at 1.
  rewrite (fields_from_drop_seps is_alnum (span_length is_space r) [] r); [done| |].
  - eapply Forall_impl; [by apply (span_length_take is_space)|].
    intros a Ha. simpl in Ha. destruct (is_alnum a) eqn:Hal; [|done].
    by rewrite (alnum_not_space a Hal) in Ha.
  - pose proof (span_length_le is_space r). lia.
Qed.

(** The state after a letter or digit was copied. *)
Lemma scan_inv_copy (cur : list ascii) (prev : option ascii) (c : ascii)
    (s : list ascii) :
  scan_inv alts cur prev (c :: s) →
  is_alnum c = true →
  pat true prev (c :: s) = None →
  scan_inv alts (cur ++ [c]) (Some c) s.
Proof.
  intros [Hempty Hword] Hc Hnone. split; [by intros [_ [=]]%app_eq_nil|]. intros _.
  destruct (decide (cur = [])) as [->|Hne].
  - simpl. repeat split; [by repeat constructor|].
    exists prev. split; [|done].
    specialize (Hempty eq_refl). unfold split_here in Hempty. simpl in Hempty.
    rewrite (alnum_is_word c Hc) in Hempty.
    by destruct (from_option is_word false prev).
  - destruct (Hword Hne) as (Hall & _ & prev0 & Hp0 & Hn0). repeat split.
    + apply Forall_app. split; [done | by repeat constructor].
    + by rewrite last_snoc.
    + exists prev0. split; [done|]. by rewrite <- (assoc_L (++)).
Qed.

(** The scan of line 51 removes the words that are alternatives of the
    pattern, and no other word, from a text without underscore. *)
Lemma scan_keeps (n : nat) :
  ∀ s, length s ≤ n → Forall (λ c, c ≠ "_"%char) s →
  ∀ cur prev, scan_inv alts cur prev s →
    fields_from is_alnum cur (scan alts prev s) = keep (fields_from is_alnum cur s).
Proof.
  induction n as [|n IH]; intros s Hlen Hs cur prev Hinv.
  - destruct s; [|simpl in Hlen; lia].
    destruct (scan_nil alts prev) as (pre & Hpre & ->). simpl.
    rewrite (keep_emit cur prev [] Hinv) by done.
    destruct Hpre as [->|[-> _]]; [done|]. simpl. by rewrite app_nil_r.
  - destruct s as [|c s].
    { apply IH; [simpl; lia | done..]. }
    simpl in Hlen. apply Forall_cons in Hs as [Hc Hs].
    assert (cur ≠ [] → from_option is_word false prev = true) as Hprev.
    { intros Hne. destruct Hinv as [_ Hinv].
      destruct (Hinv Hne) as (Hall & -> & _). by apply last_word. }
    destruct (scan_cons alts prev c s)
      as (pre & Hpre & [[Hnone ->] | (adv & k & Hk & Hklen & ->)]).
    + rewrite (absorb_quiet pre cur prev c _ Hpre Hprev). simpl.
      destruct (is_alnum c) eqn:Hal.
      * apply IH; [lia | done | by apply (scan_inv_copy cur prev c s)].
      * pose proof (nonalnum_not_word c Hal Hc) as Hnw.
        unfold keep. rewrite filter_app. fold (keep (emit cur)).
        rewrite (keep_emit cur prev (c :: s) Hinv) by (intros _; simpl; done).
        f_equal. apply (IH s ltac:(lia) Hs [] (Some c)).
        split; [|done]. intros _. unfold split_here. simpl. by rewrite Hnw.
    + rewrite (absorb_space pre cur prev (Some c)) by done. unfold fields at 1.
      rewrite (IH (drop k (c :: s))); first last.
      { split; [|done]. intros _. apply (pattern_after alts adv prev (c :: s) k Hk). lia. }
      { apply Forall_drop. by constructor. }
      { rewrite length_drop. simpl. lia. }
      pose proof Hk as (Hb1 & w & r & Hin & Heq & Hb2 & Hkn & _)%pattern_Some.
      assert (cur ≠ [] → from_option is_word false (head (c :: s)) = false) as Hnext.
      { intros Hne. by apply (boundary_after_word alts cur prev). }
      destruct w as [|a w].
      * simpl in Heq, Hkn. subst r.
        rewrite (fields_from_drop_seps is_alnum k cur (c :: s)); [| |lia].
        -- unfold keep. rewrite filter_app. fold (keep (emit cur)).
           by rewrite (keep_emit cur prev (c :: s) Hinv Hnext).
        -- eapply Forall_impl; [apply (span_length_take is_space); lia|].
           intros x Hx. simpl in Hx. destruct (is_alnum x) eqn:Hal; [|done].
           by rewrite (alnum_not_space x Hal) in Hx.
      * pose proof (proj1 (Forall_forall _ _) Halts _ Hin) as Hw.
        injection Heq as -> Heq.
        assert (cur = []) as ->.
        { destruct cur as [|b cur]; [done|]. specialize (Hnext ltac:(done)).
          simpl in Hnext. apply Forall_cons in Hw as [Ha _].
          by rewrite (alnum_is_word a Ha) in Hnext. }
        simpl emit. simpl app.
        change (a :: s) with ([a] ++ s). rewrite Heq.
        change ([a] ++ w ++ r) with ((a :: w) ++ r).
        rewrite (fields_from_app is_alnum [] (a :: w) r Hw). simpl app.
        assert (∀ y, head r = Some y → is_alnum y = false) as Hr.
        { intros y Hy. rewrite Hy in Hb2. unfold word_boundary in Hb2.
          assert (last_char prev (a :: w) = last (a :: w)) as Hlast.
          { unfold last_char. destruct (last (a :: w)) eqn:Hl; [done|].
            by apply last_None in Hl. }
          rewrite Hlast, (last_word (a :: w) ltac:(done) Hw) in Hb2. simpl in Hb2.
          destruct (is_alnum y) eqn:Hal; [|done].
          by rewrite (alnum_is_word y Hal) in Hb2. }
        rewrite (fields_from_word_end (a :: w) r ltac:(done) Hr).
        unfold keep at 2. rewrite filter_cons, decide_False by (intros H; by apply H).
        fold (keep (fields is_alnum r)). f_equal.
        rewrite Hkn. change (a :: w ++ r) with ((a :: w) ++ r).
        rewrite drop_app_add' by done. apply fields_drop_spaces.
Qed.
End keep.

End KeepFacts.

(** ** The text cleaner, further *)

Module CleanerLaws.
Import Chars Re Cleaner Words CharsFacts ReFacts WordsFacts StepsFacts
  StopwordFacts ScanFacts CleanerFacts UrlFacts KeepFacts.

(** The class that separates the tokens of a cleaned text. *)
Abbreviation not_sp := (λ c : ascii, negb (Ascii.eqb c space)).

Lemma lower_char_alnum (c : ascii) : is_alnum (lower_char c) = is_alnum c.
Proof. by_cases_on c. Qed.

Lemma fields_from_none (p : ascii → bool) (cur s : list ascii) :
  Forall (λ c, p c = false) s → fields_from p cur s = emit cur.
Proof.
  intros Hs. revert cur. induction Hs as [|c s Hc _ IH]; intros cur; [done|].
  simpl. by rewrite Hc, IH, app_nil_r.
Qed.

Lemma clean_text_chars (text : string) (stopwords : list string) :
  list_ascii_of_string (clean_text text stopwords)
  = clean_chars stopwords (list_ascii_of_string text).
Proof. unfold clean_text. apply list_ascii_of_string_of_list_ascii. Qed.

(** Splitting at spaces the words that were joined by spaces. *)
Lemma tokens_unwords (ws : list (list ascii)) :
  Forall (word is_alnum) ws → fields not_sp (unwords ws) = ws.
Proof.
  intros Hws. apply fields_unwords; [done|].
  eapply Forall_impl; [exact Hws|]. intros v [Hne Hv]. split; [done|].
  eapply Forall_impl; [exact Hv|]. intros c Hc. simpl.
  destruct (Ascii.eqb_spec c space) as [->|]; [|done].
  by rewrite space_not_alnum in Hc.
Qed.

(** Where [http] does not occur in the text in lower case, line 58 has
    nothing to remove. *)
Lemma piece_url_free (stopwords : list string) (s : list ascii) :
  ¬ piece http (lower s) → url_free (normalise stopwords s) = true.
Proof.
  intros Hhttp. destruct (normalise_fields stopwords s) as (ws & Hn & Hws & Hdef).
  apply no_piece_url_free. rewrite Hn. intros Hp.
  apply piece_unwords in Hp as (v & Hv & Hp); [|done|].
  - apply Hhttp. apply (piece_trans http v); [done|]. rewrite Hdef in Hv.
    exact (scan_fields_pieces (alternatives stopwords) (length (lower s))
             (lower s) (le_n _) [] None v Hv).
  - intros H. repeat (apply elem_of_cons in H as [H|H]; [discriminate H|]).
    by apply elem_of_nil in H.
Qed.

(** The tokens of the cleaned text, when line 58 removes nothing: the
    alphanumeric runs that the removal of stopwords leaves. *)
Lemma clean_tokens (text : string) (stopwords : list string) :
  url_free (normalise stopwords (list_ascii_of_string text)) = true →
  tokens (clean_text text stopwords)
  = string_of_list_ascii <$>
      fields is_alnum
        (scan (alternatives stopwords) None (lower (list_ascii_of_string text))).
Proof.
  intros Hurl. unfold tokens. rewrite clean_text_chars. unfold clean_chars.
  rewrite (remove_urls_fixed _ Hurl), normalise_words.
  by rewrite tokens_unwords by apply fields_words.
Qed.

(** Without a proper alternative the pattern of line 51 matches the empty
    word only, and the text keeps its words. *)
Lemma quiet_normalise (stopwords : list string) (s : list ascii) :
  stopword_free stopwords (lower s) = true →
  normalise stopwords s = unwords (fields is_alnum (lower s)).
Proof.
  intros Hfree. rewrite normalise_words. by rewrite quiet_scan_fields.
Qed.

Lemma stopword_free_nil (s : list ascii) : stopword_free [] s = true.
Proof.
  unfold stopword_free. generalize (@None ascii).
  induction s as [|c s IH]; intros prev; simpl;
    unfold alternation_pattern at 1; simpl;
    destruct (word_boundary prev _); auto.
Qed.

(** Every token that is left after the removal of links occurs in one
    piece in the text before it. *)
Lemma unlink_fields_pieces (n : nat) :
  ∀ t, length t ≤ n →
    Forall (λ c, is_space c = true → c = space) t →
    ∀ cur f, f ∈ fields_from not_sp cur (unlink None 0 t) → piece f (cur ++ t).
Proof.
  induction n as [|n IH]; intros t Hlen Hok cur f Hf.
  - destruct t; [|simpl in Hlen; lia].
    apply emit_elem in Hf as ->. apply piece_app_r, piece_refl.
  - destruct t as [|c t].
    { apply emit_elem in Hf as ->. apply piece_app_r, piece_refl. }
    simpl in Hlen. pose proof Hok as [_ Hok']%Forall_cons.
    destruct (unlink_cons c t) as [[_ Hs]|(k & _ & Hk & Hs & Hrest)];
      rewrite Hs in Hf.
    + simpl in Hf. destruct (negb (Ascii.eqb c space)).
      * apply IH in Hf; [|lia|done]. by rewrite <- (assoc_L (++)) in Hf.
      * apply elem_of_app in Hf as [->%emit_elem|Hf].
        -- apply piece_app_r, piece_refl.
        -- apply IH in Hf; [|lia|done].
           apply (piece_app_l f (cur ++ [c]) t) in Hf.
           by rewrite <- (assoc_L (++)) in Hf.
    + destruct Hrest as [Hd|(y & t2 & Hd & Hy & Hyt)]; rewrite Hd in Hf.
      { apply emit_elem in Hf as ->. apply piece_app_r, piece_refl. }
      pose proof (Forall_drop _ k _ Hok) as Hok2. rewrite Hd in Hok2.
      apply Forall_cons in Hok2 as [Hsp Hok2]. specialize (Hsp Hy). subst y.
      rewrite Hyt in Hf. simpl in Hf.
      apply elem_of_app in Hf as [->%emit_elem|Hf].
      * apply piece_app_r, piece_refl.
      * apply IH in Hf; [|apply (f_equal length) in Hd;
                          rewrite length_drop in Hd; simpl in *; lia|done].
        apply piece_app_l. rewrite <- (take_drop k (c :: t)), Hd.
        by apply piece_app_l, (piece_app_l f [space]).
Qed.

(** X1: a cleaned text is made of lower-case letters, digits and spaces,
    whatever the text and the stopwords are. *)
Theorem clean_text_alphabet (text : string) (stopwords : list string) :
  Forall clean_char (list_ascii_of_string (clean_text text stopwords)).
Proof. rewrite clean_text_chars. apply clean_chars_alphabet. Qed.

(** X2: a text without a letter or a digit, the empty text among them, is
    cleaned to the empty text, whatever the stopwords are. *)
Theorem clean_text_no_alnum (text : string) (stopwords : list string) :
  Forall (λ c, is_alnum c = false) (list_ascii_of_string text) →
  clean_text text stopwords = "".
Proof.
  intros Htext. unfold clean_text, clean_chars. rewrite normalise_words.
  assert (fields is_alnum
            (scan (alternatives stopwords) None (lower (list_ascii_of_string text)))
          = []) as ->; [|reflexivity].
  apply (fields_from_none is_alnum []).
  apply (sub_from_Forall _ _ (λ c, is_alnum c = false)).
  - intros _ _. by repeat constructor.
  - apply Forall_fmap. eapply Forall_impl; [exact Htext|].
    intros c Hc. simpl. by rewrite lower_char_alnum.
Qed.

Lemma clean_text_no_alnum_witness : clean_text "?! ... --" ["please"] = "".
Proof.
  apply (clean_text_no_alnum "?! ... --" ["please"]).
  simpl. repeat (constructor; [by vm_compute|]). constructor.
Defined.

(** X3: in a cleaned text, [http] is nowhere followed by a character
    other than whitespace: no link is left. *)
Theorem clean_text_no_link_left (text : string) (stopwords : list string) :
  ¬ ∃ l x r, list_ascii_of_string (clean_text text stopwords) = l ++ http ++ x :: r ∧
             is_space x = false.
Proof.
  intros (l & x & r & Heq & Hx). rewrite clean_text_chars in Heq.
  pose proof (unlink_url_free _ (normalise stopwords (list_ascii_of_string text))
                (le_n _) None) as Hfree.
  pose proof (url_free_spec None _ l x r Hfree Heq). congruence.
Qed.

(** X4: from an ASCII text without underscore in which [http] does not
    occur in either case, every stopword is removed: no stopword of the
    list is a token of the cleaned text. *)
Theorem clean_text_removes_stopwords (text : string) (stopwords : list string)
    (w : string) :
  Forall (λ c, is_ascii c = true) (list_ascii_of_string text) →
  Forall (λ c, c ≠ "_"%char) (list_ascii_of_string text) →
  ¬ piece http (lower (list_ascii_of_string text)) →
  w ∈ stopwords →
  w ∉ tokens (clean_text text stopwords).
Proof.
  intros _ Hunder Hhttp Hin.
  rewrite (clean_tokens _ _ (piece_url_free stopwords _ Hhttp)).
  intros (v & -> & Hv)%list_elem_of_fmap.
  apply alternatives_elem in Hin.
  rewrite list_ascii_of_string_of_list_ascii in Hin.
  by apply (no_stopword_left (alternatives stopwords) v
              (lower (list_ascii_of_string text)) Hin (lower_no_underscore _ Hunder)).
Qed.

Lemma clean_text_removes_stopwords_witness :
  "the" ∉ tokens (clean_text "The cat and THE dog" ["the"; "and"]).
Proof.
  apply (clean_text_removes_stopwords "The cat and THE dog" ["the"; "and"] "the").
  - simpl. repeat (constructor; [reflexivity|]). constructor.
  - vm_compute. repeat (constructor; [discriminate|]). constructor.
  - intros H%piece_sublist%subseq_complete. by vm_compute in H.
  - left.
Defined.

(** X5: stopwords that do not occur in the text as whole words change
    nothing: the result is that of cleaning with no stopword at all. *)
Theorem clean_text_unused_stopwords (text : string) (stopwords : list string) :
  stopword_free stopwords (lower (list_ascii_of_string text)) = true →
  clean_text text stopwords = clean_text text [].
Proof.
  intros Hfree. unfold clean_text, clean_chars.
  by rewrite (quiet_normalise _ _ Hfree), (quiet_normalise [] _ (stopword_free_nil _)).
Qed.

Lemma clean_text_unused_stopwords_witness :
  clean_text "Machine Learning, at scale" ["the"; "and"; "learn"]
  = clean_text "Machine Learning, at scale" [].
Proof.
  apply (clean_text_unused_stopwords "Machine Learning, at scale"
           ["the"; "and"; "learn"]).
  vm_compute. reflexivity.
Defined.

(** X6: with an empty list of stopwords no word is removed: the result
    is the runs of letters and digits of the text in lower case, joined
    by single spaces, less the links that line 58 finds in them. *)
Theorem clean_text_no_stopwords (text : string) :
  clean_text text []
  = string_of_list_ascii
      (remove_urls (unwords (fields is_alnum (lower (list_ascii_of_string text))))).
Proof.
  unfold clean_text, clean_chars.
  by rewrite (quiet_normalise [] _ (stopword_free_nil _)).
Qed.

(** X7: the cleaner invents nothing and joins nothing: every token of
    the cleaned text occurs, in one piece, in the text in lower case. *)
Theorem clean_text_tokens_from_text (text : string) (stopwords : list string) :
  Forall (λ t, piece (list_ascii_of_string t) (lower (list_ascii_of_string text)))
    (tokens (clean_text text stopwords)).
Proof.
  unfold tokens. rewrite clean_text_chars. unfold clean_chars.
  destruct (normalise_fields stopwords (list_ascii_of_string text))
    as (ws & Hn & Hws & Hdef).
  rewrite Hn. apply Forall_fmap, Forall_forall. intros f Hf. simpl.
  rewrite list_ascii_of_string_of_list_ascii.
  assert (word not_sp f) as [Hne Hsp].
  { exact (proj1 (Forall_forall _ _)
             (fields_words not_sp (remove_urls (unwords ws))) f Hf). }
  apply (unlink_fields_pieces (length (unwords ws)) (unwords ws) (le_n _)) in Hf.
  - apply piece_unwords in Hf as (v & Hv & Hf); [|done|].
    + apply (piece_trans f v); [done|]. rewrite Hdef in Hv.
      exact (scan_fields_pieces (alternatives stopwords) _ _ (le_n _) [] None v Hv).
    + intros Hin. apply (proj1 (Forall_forall _ _) Hsp) in Hin.
      by vm_compute in Hin.
  - apply unwords_Forall; [done|].
    eapply Forall_impl; [exact Hws|]. intros v [_ Hv].
    eapply Forall_impl; [exact Hv|]. intros c Hc Hs.
    by rewrite (alnum_not_space c Hc) in Hs.
Qed.

(** X8: where [http] does not occur in the text in either case, the
    cleaned text is trimmed and single-spaced: it is its own tokens,
    joined by single spaces. *)
Theorem clean_text_single_spaced (text : string) (stopwords : list string) :
  ¬ piece http (lower (list_ascii_of_string text)) →
  list_ascii_of_string (clean_text text stopwords)
  = unwords (list_ascii_of_string <$> tokens (clean_text text stopwords)).
Proof.
  intros Hhttp. pose proof (piece_url_free stopwords _ Hhttp) as Hurl.
  rewrite (clean_tokens _ _ Hurl), clean_text_chars. unfold clean_chars.
  rewrite (remove_urls_fixed _ Hurl), normalise_words. f_equal.
  rewrite <- list_fmap_compose. symmetry.
  rewrite <- (list_fmap_id (fields _ _)) at 2. apply list_fmap_ext.
  intros i v _. simpl. apply list_ascii_of_string_of_list_ascii.
Qed.

Lemma clean_text_single_spaced_witness :
  list_ascii_of_string (clean_text "  Hello,   World!  " ["the"])
  = unwords (list_ascii_of_string <$> tokens (clean_text "  Hello,   World!  " ["the"])).
Proof.
  apply (clean_text_single_spaced "  Hello,   World!  " ["the"]).
  intros H%piece_sublist%subseq_complete. by vm_compute in H.
Defined.

Lemma alternatives_alnum (stopwords : list string) :
  Forall (λ w, Forall (λ c, is_alnum c = true) (list_ascii_of_string w)) stopwords →
  Forall (Forall (λ c, is_alnum c = true)) (alternatives stopwords).
Proof.
  destruct stopwords as [|w ws]; [by repeat constructor|].
  intros H. unfold alternatives. by apply Forall_fmap.
Qed.

Lemma alternatives_member (stopwords : list string) (v : list ascii) :
  v ≠ [] → v ∈ alternatives stopwords ↔ string_of_list_ascii v ∈ stopwords.
Proof.
  intros Hne. destruct stopwords as [|w ws].
  - simpl. split; [by intros ?%list_elem_of_singleton | by intros ?%elem_of_nil].
  - unfold alternatives. rewrite list_elem_of_fmap. split.
    + intros (t & -> & Ht). by rewrite string_of_list_ascii_of_string.
    + intros H. exists (string_of_list_ascii v).
      by rewrite list_ascii_of_string_of_list_ascii.
Qed.

Lemma keep_strings (stopwords : list string) (ws : list (list ascii)) :
  Forall (λ v, v ≠ []) ws →
  string_of_list_ascii <$> keep (alternatives stopwords) ws
  = filter (λ t, t ∉ stopwords) (string_of_list_ascii <$> ws).
Proof.
  unfold keep. induction 1 as [|v ws Hv _ IH]; [done|].
  rewrite fmap_cons, !filter_cons.
  destruct (decide (v ∉ alternatives stopwords)) as [Hin|Hin].
  - rewrite decide_True by (by rewrite <- alternatives_member).
    by rewrite fmap_cons, IH.
  - rewrite decide_False by (by rewrite <- alternatives_member). exact IH.
Qed.

(** Where line 58 finds no link, the tokens of the result are the words
    of the text in lower case, less the stopwords. *)
Lemma url_free_tokens (text : string) (stopwords : list string) :
  Forall (λ w, Forall (λ c, is_alnum c = true) (list_ascii_of_string w)) stopwords →
  Forall (λ c, c ≠ "_"%char) (list_ascii_of_string text) →
  url_free (normalise stopwords (list_ascii_of_string text)) = true →
  tokens (clean_text text stopwords)
  = filter (λ t, t ∉ stopwords)
      (string_of_list_ascii <$> fields is_alnum (lower (list_ascii_of_string text))).
Proof.
  intros Hsw Hunder Hurl.
  rewrite (clean_tokens _ _ Hurl).
  unfold fields at 1.
  rewrite (scan_keeps (alternatives stopwords) (alternatives_alnum _ Hsw)
             (length (lower (list_ascii_of_string text))) _ (le_n _)
             (lower_no_underscore _ Hunder) [] None).
  - apply keep_strings.
    eapply Forall_impl; [apply (fields_words is_alnum)|]. by intros v [? _].
  - split; [done|]. by intros [].
Qed.

(** X9: what the cleaner computes on plain input.  For stopwords made
    of letters and digits and an ASCII text without underscore in which
    [http] does not occur in either case, the tokens of the cleaned text
    are the runs of letters and digits of the text in lower case, in their
    order, less those that are stopwords. *)
Theorem clean_text_plain_tokens (text : string) (stopwords : list string) :
  Forall (λ c, is_ascii c = true) (list_ascii_of_string text) →
  Forall (λ w, Forall (λ c, is_alnum c = true) (list_ascii_of_string w)) stopwords →
  Forall (λ c, c ≠ "_"%char) (list_ascii_of_string text) →
  ¬ piece http (lower (list_ascii_of_string text)) →
  tokens (clean_text text stopwords)
  = filter (λ t, t ∉ stopwords)
      (string_of_list_ascii <$> fields is_alnum (lower (list_ascii_of_string text))).
Proof.
  intros _ Hsw Hunder Hhttp.
  exact (url_free_tokens text stopwords Hsw Hunder (piece_url_free stopwords _ Hhttp)).
Qed.

Lemma clean_text_plain_tokens_witness :
  tokens (clean_text "The cat and THE dog" ["the"; "and"])
  = filter (λ t, t ∉ ["the"; "and"])
      (string_of_list_ascii <$>
         fields is_alnum (lower (list_ascii_of_string "The cat and THE dog"))).
Proof.
  apply (clean_text_plain_tokens "The cat and THE dog" ["the"; "and"]).
  - simpl. repeat (constructor; [reflexivity|]). constructor.
  - repeat constructor.
  - simpl. repeat (constructor; [discriminate|]). constructor.
  - intros H%piece_sublist%subseq_complete. by vm_compute in H.
Defined.

(** A stopword with an apostrophe is removed as a whole, while the words
    of the text are cut at the apostrophe. *)
Example clean_text_apostrophe :
  clean_text "I don't know" ["don't"] = "i know" ∧
  clean_text "I don't know" ["don"] = "i t know".
Proof. vm_compute. done. Qed.

(** Where a link is removed, the spaces around it stay. *)
Example clean_text_link_spaces :
  clean_text "see httpx now" [] = "see  now" ∧ clean_text "go to httpx" [] = "go to ".
Proof. vm_compute. done. Qed.

(** *** The address of the example *)

(** Whether [http] is followed by a letter or a digit at the head of
    [s], and whether it is somewhere in [s]. *)
Definition link_at (s : list ascii) : bool :=
  match strip_prefix http s with
  | Some (x :: _) => is_alnum x
  | _ => false
  end.

Fixpoint has_link (s : list ascii) : bool :=
  link_at s || match s with [] => false | _ :: s' => has_link s' end.

Lemma has_link_piece (s : list ascii) (x : ascii) :
  is_alnum x = true → piece (http ++ [x]) s → has_link s = true.
Proof.
  intros Hx (l & r & ->). induction l as [|a l IH].
  - assert (link_at (([] ++ http ++ [x]) ++ r) = true) as Hat.
    { unfold link_at.
      assert (strip_prefix http (([] ++ http ++ [x]) ++ r) = Some (x :: r)) as ->
        by (apply strip_prefix_Some; by rewrite <- (assoc_L (++))).
      done. }
    assert (∀ t, link_at t = true → has_link t = true) as Hhead
      by (intros [|? ?] Ht; cbn [has_link]; by rewrite Ht).
    by apply Hhead.
  - rewrite <- app_comm_cons. cbn [has_link]. rewrite IH. apply orb_true_r.
Qed.

(** The link pattern finds nothing in a text in which [http] is followed
    by whitespace only. *)
Lemma url_free_intro (prev : option ascii) (s : list ascii) :
  (∀ l x r, s = l ++ http ++ x :: r → is_space x = true) →
  no_match_from url_pattern prev s = true.
Proof.
  revert prev. induction s as [|c s IH]; intros prev Hs; [done|].
  rewrite no_match_from_cons.
  destruct (url_pattern true prev (c :: s)) as [n|] eqn:Hm.
  - apply url_pattern_Some in Hm as (x & r & Heq & Hx & _).
    rewrite (Hs [] x r Heq) in Hx. done.
  - apply IH. intros l x r ->. by apply (Hs (c :: l) x r).
Qed.

(** Where [http] is nowhere followed by a letter or a digit in the text
    in lower case, line 58 has nothing to remove, whatever the stopwords
    are. *)
Lemma link_free_url_free (stopwords : list string) (s : list ascii) :
  has_link (lower s) = false → url_free (normalise stopwords s) = true.
Proof.
  intros Hno. destruct (normalise_fields stopwords s) as (ws & Hn & Hws & Hdef).
  apply url_free_intro. rewrite Hn. intros l x r Heq.
  destruct (is_space x) eqn:Hsp; [done|]. exfalso.
  assert (Forall (λ c, is_alnum c = true ∨ c = space) (unwords ws)) as Hall.
  { apply unwords_Forall; [by right|].
    eapply Forall_impl; [exact Hws|]. intros w [_ Hw].
    eapply Forall_impl; [exact Hw|]. by left. }
  assert (is_alnum x = true) as Hx.
  { rewrite Heq in Hall.
    apply Forall_app in Hall as [_ [_ [[?| ->] _]%Forall_cons]%Forall_app]; done. }
  assert (piece (http ++ [x]) (unwords ws)) as Hp.
  { exists l, r. by rewrite Heq, <- (assoc_L (++)). }
  apply piece_unwords in Hp as (v & Hv & Hp); [|by destruct http|].
  - rewrite Hdef in Hv.
    pose proof (scan_fields_pieces (alternatives stopwords) _ _ (le_n _) [] None v Hv)
      as Hpiece.
    rewrite (has_link_piece (lower s) x Hx) in Hno; [done|].
    by apply (piece_trans _ v).
  - intros Hin. apply elem_of_app in Hin as [Hin|Hin%list_elem_of_singleton].
    + repeat (apply elem_of_cons in Hin as [Hin|Hin]; [discriminate Hin|]).
      by apply elem_of_nil in Hin.
    + subst x. by rewrite space_not_alnum in Hx.
Qed.

(** Line 58 then leaves the text of line 57 as it is. *)
Lemma link_free_unchanged (text : string) (stopwords : list string) :
  has_link (lower (list_ascii_of_string text)) = false →
  clean_text text stopwords
  = string_of_list_ascii (normalise stopwords (list_ascii_of_string text)).
Proof.
  intros Hlink. unfold clean_text, clean_chars.
  by rewrite (remove_urls_fixed _ (link_free_url_free stopwords _ Hlink)).
Qed.

(** The tokens of the result on a text without underscore and without
    such a link, for stopwords made of letters and digits. *)
Lemma link_free_tokens (text : string) (stopwords : list string) :
  Forall (λ w, Forall (λ c, is_alnum c = true) (list_ascii_of_string w)) stopwords →
  Forall (λ c, c ≠ "_"%char) (list_ascii_of_string text) →
  has_link (lower (list_ascii_of_string text)) = false →
  tokens (clean_text text stopwords)
  = filter (λ t, t ∉ stopwords)
      (string_of_list_ascii <$> fields is_alnum (lower (list_ascii_of_string text))).
Proof.
  intros Hsw Hunder Hlink.
  exact (url_free_tokens text stopwords Hsw Hunder
           (link_free_url_free stopwords _ Hlink)).
Qed.

Lemma address_no_link :
  has_link (lower (list_ascii_of_string "visit http://example.com now")) = false.
Proof. vm_compute. reflexivity. Qed.

Lemma address_no_underscore :
  Forall (λ c, c ≠ "_"%char) (list_ascii_of_string "visit http://example.com now").
Proof. simpl. repeat (constructor; [discriminate|]). constructor. Qed.

Lemma address_fields :
  string_of_list_ascii <$>
    fields is_alnum (lower (list_ascii_of_string "visit http://example.com now"))
  = ["visit"; "http"; "example"; "com"; "now"].
Proof. vm_compute. reflexivity. Qed.

(** C3, as stated under the removal of links, fails: the address is not
    removed.  Line 55 has replaced its punctuation by spaces before line 58
    runs, line 58 finds no link, and the words of the address stay in the
    result. *)
Lemma url_example_address_survives :
  clean_text "visit http://example.com now" ["now"] = "visit http example com" ∧
  "http" ∈ tokens (clean_text "visit http://example.com now" ["now"]) ∧
  "example" ∈ tokens (clean_text "visit http://example.com now" ["now"]) ∧
  "com" ∈ tokens (clean_text "visit http://example.com now" ["now"]).
Proof. vm_compute. repeat split; repeat constructor. Qed.

(** C3, amended: on the sentence of the example line 58 removes nothing,
    whatever the stopwords are: the address does not occur in the result
    only because its punctuation has become spaces, and for stopwords
    made of letters and digits the tokens of the result are the words
    visit, http, example, com and now, less the stopwords.  The word
    [http] on its own, when it is not a stopword, is left as it is. *)
Theorem url_example_address_kept (stopwords : list string) :
  clean_text "visit http://example.com now" stopwords
    = string_of_list_ascii
        (normalise stopwords (list_ascii_of_string "visit http://example.com now")) ∧
  ¬ contains "http://example.com"
      (clean_text "visit http://example.com now" stopwords) ∧
  (Forall (λ w, Forall (λ c, is_alnum c = true) (list_ascii_of_string w)) stopwords →
   tokens (clean_text "visit http://example.com now" stopwords)
   = filter (λ t, t ∉ stopwords) ["visit"; "http"; "example"; "com"; "now"]) ∧
  ("http" ∉ stopwords → clean_text "http" stopwords = "http").
Proof.
  split; [exact (link_free_unchanged _ stopwords address_no_link)|].
  split; [|split].
  - apply clean_text_not_contains. vm_compute. do 4 right. left.
  - intros Hsw. rewrite <- address_fields.
    exact (link_free_tokens _ stopwords Hsw address_no_underscore address_no_link).
  - apply clean_http.
Qed.

Lemma url_example_address_kept_witness :
  clean_text "visit http://example.com now" ["please"; "now"]
    = string_of_list_ascii
        (normalise ["please"; "now"]
           (list_ascii_of_string "visit http://example.com now")) ∧
  ¬ contains "http://example.com"
      (clean_text "visit http://example.com now" ["please"; "now"]) ∧
  tokens (clean_text "visit http://example.com now" ["please"; "now"])
    = filter (λ t, t ∉ ["please"; "now"]) ["visit"; "http"; "example"; "com"; "now"] ∧
  clean_text "http" ["please"; "now"] = "http".
Proof.
  destruct (url_example_address_kept ["please"; "now"]) as (H1 & H2 & H3 & H4).
  split; [exact H1|]. split; [exact H2|]. split.
  - apply H3. repeat constructor.
  - apply H4. intros H. repeat (apply elem_of_cons in H as [H|H]; [discriminate H|]).
    by apply elem_of_nil in H.
Defined.

End CleanerLaws.

(** ** The loader, further *)

Module LoaderLaws.
Import Table External Loader.

(** X11: a positive sample count that the source cannot supply truncates
    nothing: the loader returns what it returns without a count, every
    record of the source. *)
Theorem load_data_short_source (E : Engine) (loc : string) (n : nat) :
  EngineOk E →
  0 < n →
  length (read_csv E loc) ≤ n →
  load_data E loc (Some n) = load_data E loc None ∧
  load_data E loc (Some n) ≡ₚ read_csv E loc.
Proof.
  intros HE Hpos Hlen.
  pose proof (random_shuffle_perm E HE 1234 (read_csv E loc)) as Hperm.
  assert (load_data E loc (Some n) = load_data E loc None) as ->; [|done].
  destruct n as [|n]; [lia|]. unfold load_data. apply take_ge.
  rewrite (Permutation_length Hperm). lia.
Qed.

Lemma load_data_short_source_witness :
  load_data Demo.engine "data.csv" (Some 5) = load_data Demo.engine "data.csv" None ∧
  load_data Demo.engine "data.csv" (Some 5) ≡ₚ read_csv Demo.engine "data.csv".
Proof.
  apply (load_data_short_source Demo.engine "data.csv" 5 DemoFacts.engine_ok).
  - lia.
  - vm_compute. lia.
Defined.

End LoaderLaws.

(** ** The stratified splitter, further *)

Module SplitLaws.
Import Table External Split SplitFacts.

(** X12: the label that [_add_split] writes is what [_filter_split]
    reads: of the labelled rows of one group, the filter for [train]
    keeps the train part of the splitter and the filter for [test] its
    test part, both without the label column, and the filter for any
    other label keeps nothing. *)
Theorem add_split_filter_split (split : Splitter) (test_size : Q)
    (shuffle : bool) (seed : Z) (df labelled : list row) :
  _add_split split test_size shuffle seed df = Some labelled →
  ∃ train test,
    split test_size shuffle seed df = Some (train, test) ∧
    _filter_split "train" labelled = (λ r : row, delete "_split" r) <$> train ∧
    _filter_split "test" labelled = (λ r : row, delete "_split" r) <$> test ∧
    ∀ label, label ≠ "train" → label ≠ "test" → _filter_split label labelled = [].
Proof.
  unfold _add_split. intros H.
  destruct (split test_size shuffle seed df) as [[train test]|]; [|done].
  simpl in H. injection H as <-. exists train, test.
  split; [done|]. rewrite !filter_split_app, !filter_split_tagged. simpl.
  split; [by rewrite app_nil_r|]. split; [done|].
  intros label H1 H2. rewrite !filter_split_app, !filter_split_tagged.
  by rewrite !decide_False.
Qed.

(** The six samples with the labels of a split that holds out the last
    two. *)
Definition labelled_samples : list row :=
  ((λ r : row, <["_split" := Str "train"]> r) <$> take 4 samples) ++
  ((λ r : row, <["_split" := Str "test"]> r) <$> drop 4 samples).

Lemma add_split_filter_split_witness :
  ∃ train test,
    Demo.splitter (1 # 4) true 1234%Z samples = Some (train, test) ∧
    _filter_split "train" labelled_samples = (λ r : row, delete "_split" r) <$> train ∧
    _filter_split "test" labelled_samples = (λ r : row, delete "_split" r) <$> test ∧
    ∀ label, label ≠ "train" → label ≠ "test" →
      _filter_split label labelled_samples = [].
Proof.
  apply (add_split_filter_split Demo.splitter (1 # 4) true 1234%Z samples
           labelled_samples).
  reflexivity.
Defined.

(** X13: an error of the splitter on the group of one class is an error
    of the whole split. *)
Theorem stratify_split_propagates_error (E : Engine) (split : Splitter)
    (stratify : string) (test_size : Q) (shuffle : bool) (seed : Z)
    (ds : list row) (keys : list cell) (k : cell) :
  EngineOk E →
  column stratify ds = Some keys →
  k ∈ keys →
  split test_size shuffle seed (with_key stratify k ds) = None →
  stratify_split E split stratify test_size shuffle seed ds = None.
Proof.
  intros HE Hcol Hk Hnone. unfold stratify_split, groupby, map_groups.
  rewrite Hcol. simpl.
  destruct (group_keys E HE keys) as [_ Hks].
  rewrite (mapM_None_2 (_add_split split test_size shuffle seed)); [done|].
  apply Exists_exists. exists (with_key stratify k ds). split.
  - apply list_elem_of_fmap. exists k. split; [done | by apply Hks].
  - unfold _add_split. by rewrite Hnone.
Qed.

(** Three records, one of them alone in its class. *)
Definition lonely : list row := [sample 1 "nlp"; sample 2 "cv"; sample 3 "nlp"].

Lemma stratify_split_propagates_error_witness :
  stratify_split Demo.engine Demo.splitter "tag" (1 # 4) true 1234%Z lonely = None.
Proof.
  apply (stratify_split_propagates_error Demo.engine Demo.splitter "tag" (1 # 4)
           true 1234%Z lonely [Str "nlp"; Str "cv"; Str "nlp"] (Str "cv")
           DemoFacts.engine_ok).
  - reflexivity.
  - right; left.
  - reflexivity.
Defined.

(** X14: when the split returns, every class of the stratify column has
    a record in the train output and a record in the test output, the
    splitter leaving neither part of a group empty. *)
Theorem stratify_split_covers_classes (E : Engine) (split : Splitter)
    (stratify : string) (test_size : Q) (shuffle : bool) (seed : Z)
    (ds : list row) (keys : list cell) (c : cell) :
  EngineOk E → SplitterOk split → SplitterNonEmpty split →
  stratify ≠ "_split" →
  column stratify ds = Some keys →
  (∀ k, k ∈ keys → is_Some (split test_size shuffle seed (with_key stratify k ds))) →
  c ∈ keys →
  ∃ train test,
    stratify_split E split stratify test_size shuffle seed ds = Some (train, test) ∧
    with_key stratify c train ≠ [] ∧
    with_key stratify c test ≠ [].
Proof.
  intros HE HS HN Hne Hcol Hsplit Hc.
  destruct (grouped_returns E split stratify test_size shuffle seed HE ds keys
              Hcol Hsplit) as (results & Hg & Hall).
  unfold stratify_split. rewrite Hg. simpl.
  eexists _, _. split; [reflexivity|].
  destruct (group_keys E HE keys) as [Hnd Hks].
  pose proof (filter_split_class split stratify test_size shuffle seed HS ds _
                results c Hne Hnd Hall) as Hclass.
  rewrite decide_True in Hclass by (by apply Hks).
  destruct Hclass as (train & test & Hs & Htr & Hte).
  destruct (HN _ _ _ _ _ _ Hs) as [Htrain Htest].
  assert (∀ (label : string) (part : list row),
            with_key stratify c (_filter_split label (concat results))
            = (λ r : row, delete "_split" r) <$> part →
            part ≠ [] →
            with_key stratify c
              (random_shuffle E seed
                 (map_batches E (_filter_split label) (concat results))) ≠ [])
    as Hpart.
  { intros label part Heq Hpart Hnil. apply (f_equal length) in Hnil.
    unfold with_key in *.
    rewrite (random_shuffle_perm E HE), (map_batches_filter_split E _ _ HE) in Hnil.
    rewrite Heq, length_fmap in Hnil. by destruct part. }
  split; [by apply (Hpart "train" train) | by apply (Hpart "test" test)].
Qed.

Lemma stratify_split_covers_classes_witness :
  ∃ train test,
    stratify_split Demo.engine Demo.splitter "tag" (1 # 4) true 1234%Z samples
      = Some (train, test) ∧
    with_key "tag" (Str "cv") train ≠ [] ∧
    with_key "tag" (Str "cv") test ≠ [].
Proof.
  apply (stratify_split_covers_classes Demo.engine Demo.splitter "tag" (1 # 4)
           true 1234%Z samples sample_tags (Str "cv")
           DemoFacts.engine_ok DemoFacts.splitter_ok DemoFacts.splitter_non_empty).
  - discriminate.
  - exact samples_column.
  - exact samples_split.
  - right; left.
Defined.

End SplitLaws.

(** ** Dictionaries, further *)

Module DictLaws.
Import Table DictFacts.

Section dict.
Context {K V : Type} `{EqDecision K}.
Implicit Types (d : dict K V) (k : K) (v : V).

Lemma dict_get_set d k k' v :
  dict_get k (dict_set k' v d) = if decide (k = k') then Some v else dict_get k d.
Proof.
  induction d as [|[k0 v0] d IH]; simpl; [done|].
  destruct (decide (k' = k0)) as [->|Hne]; simpl.
  - by destruct (decide (k = k0)).
  - destruct (decide (k = k0)) as [->|]; [by rewrite decide_False|].
    exact IH.
Qed.

(** A binding of a comprehension comes from one of its items. *)
Lemma dict_of_items_from_Some d (items : list (K * V)) k v :
  dict_get k (foldl (λ d kv, dict_set kv.1 kv.2 d) d items) = Some v →
  (k, v) ∈ items ∨ dict_get k d = Some v.
Proof.
  revert d. induction items as [|[k' v'] items IH]; intros d; simpl; [by right|].
  intros [Hin|Hd]%IH; [left; by right|].
  rewrite dict_get_set in Hd.
  destruct (decide (k = k')) as [->|]; [|by right].
  injection Hd as ->. left. left.
Qed.

Lemma dict_of_items_Some (items : list (K * V)) k v :
  dict_get k (dict_of_items items) = Some v → (k, v) ∈ items.
Proof. by intros [?|?]%dict_of_items_from_Some. Qed.

(** The keys of a comprehension are the keys of its items. *)
Lemma dict_of_items_from_is_Some d (items : list (K * V)) k :
  is_Some (dict_get k (foldl (λ d kv, dict_set kv.1 kv.2 d) d items)) ↔
  k ∈ items.*1 ∨ is_Some (dict_get k d).
Proof.
  revert d. induction items as [|[k' v'] items IH]; intros d; simpl.
  - split; [by right | intros [?%elem_of_nil|?]; done].
  - rewrite IH, dict_get_set, elem_of_cons.
    destruct (decide (k = k')) as [->|Hne].
    + split; [intros _; left; by left | intros _; right; by eexists].
    + split; [intros [?|?]; [left; by right | by right] |].
      intros [[?|?]|?]; [done | by left | by right].
Qed.

Lemma dict_of_items_is_Some (items : list (K * V)) k :
  is_Some (dict_get k (dict_of_items items)) ↔ k ∈ items.*1.
Proof.
  unfold dict_of_items. rewrite dict_of_items_from_is_Some. simpl.
  split; [intros [?|[? ?]]; done | by left].
Qed.
End dict.

End DictLaws.

(** ** The stateful preprocessor and the encoder, further *)

Module PipelineLaws.
Import Table External Cleaner Encoder Preprocessor DictFacts DictLaws
  PreprocessorFacts EncoderFacts CleanerFacts.

(** X15: [__init__] with a mapping (a dictionary, so with distinct keys):
    [index_to_class] is defined on exactly the indices the mapping uses,
    and the class it gives for an index is a class the mapping sends to
    that index; when no two classes share an index, it gives for every
    index the class the mapping sends there. *)
Theorem init_index_to_class (d : dict cell nat) :
  NoDup d.*1 →
  class_to_index (init d) = d ∧
  (∀ i, is_Some (dict_get i (index_to_class (init d))) ↔ i ∈ d.*2) ∧
  (∀ i c, dict_get i (index_to_class (init d)) = Some c → dict_get c d = Some i) ∧
  (NoDup d.*2 →
   ∀ c i, dict_get c d = Some i → dict_get i (index_to_class (init d)) = Some c).
Proof.
  intros Hkeys. simpl. unfold inverse. split; [done|]. split; [|split].
  - intros i. rewrite dict_of_items_is_Some.
    by rewrite <- list_fmap_compose.
  - intros i c Hic%dict_of_items_Some.
    apply list_elem_of_fmap in Hic as ([c' i'] & [= -> ->] & Hin).
    by apply dict_get_NoDup.
  - intros Hvals c i Hci%dict_get_Some.
    assert (NoDup ((λ kv : cell * nat, (kv.2, kv.1)) <$> d).*1) as Hnd.
    { by rewrite <- list_fmap_compose. }
    rewrite (dict_of_items_NoDup _ Hnd). apply dict_get_NoDup; [done|].
    apply list_elem_of_fmap. by exists (c, i).
Qed.

Lemma init_index_to_class_witness :
  class_to_index (init [(Str "nlp", 0); (Str "cv", 0)])
    = [(Str "nlp", 0); (Str "cv", 0)] ∧
  (∀ i, is_Some (dict_get i (index_to_class (init [(Str "nlp", 0); (Str "cv", 0)])))
        ↔ i ∈ [(Str "nlp", 0); (Str "cv", 0)].*2) ∧
  (∀ i c, dict_get i (index_to_class (init [(Str "nlp", 0); (Str "cv", 0)])) = Some c →
          dict_get c [(Str "nlp", 0); (Str "cv", 0)] = Some i) ∧
  (NoDup [(Str "nlp", 0); (Str "cv", 0)].*2 →
   ∀ c i, dict_get c [(Str "nlp", 0); (Str "cv", 0)] = Some i →
          dict_get i (index_to_class (init [(Str "nlp", 0); (Str "cv", 0)])) = Some c).
Proof.
  apply (init_index_to_class [(Str "nlp", 0); (Str "cv", 0)]).
  apply NoDup_cons. split; [|apply NoDup_singleton].
  by intros [=]%list_elem_of_singleton.
Defined.

(** When two classes share an index, the later one of the mapping is the
    class of the index. *)
Example init_shared_index :
  index_to_class (init [(Str "nlp", 0); (Str "cv", 0)]) = [(0, Str "cv")].
Proof. reflexivity. Qed.

Lemma mapM_None_elem {A B} (f : A → option B) (l : list A) (x : A) :
  x ∈ l → f x = None → mapM f l = None.
Proof. intros Hx Hf. apply mapM_None_2, Exists_exists. by exists x. Qed.

(** A row on which one of the steps of [preprocess] fails stops the
    whole call. *)
Lemma preprocess_None_row (T : Tokenizer) (STOPWORDS : list string)
    (df : list row) (class_to_index : dict cell nat) (r : row) :
  r ∈ df →
  r !! "title" ≫= as_text = None ∨
  r !! "description" ≫= as_text = None ∨
  r !! "tag" = None →
  preprocess T STOPWORDS df class_to_index = None.
Proof.
  intros Hr Hbad. rewrite preprocess_rows.
  rewrite (mapM_None_elem _ df r Hr); [done|]. unfold encode_row.
  destruct Hbad as [->|[Hd|Hg]]; [done| |].
  - destruct (r !! "title" ≫= as_text); [|done]. simpl. by rewrite Hd.
  - destruct (r !! "title" ≫= as_text); [|done]. simpl.
    destruct (r !! "description" ≫= as_text); [|done]. simpl. by rewrite Hg.
Qed.

(** X16: [preprocess] fails on a frame with at least one record in which
    some title or description is not a string (a missing value, a
    number), and on one that lacks the column title, description or
    tag. *)
Theorem preprocess_rejects (T : Tokenizer) (STOPWORDS : list string)
    (df : list row) (class_to_index : dict cell nat) :
  df ≠ [] →
  (∃ r c, r ∈ df ∧ (r !! "title" = Some c ∨ r !! "description" = Some c) ∧
          as_text c = None) ∨
  (∃ name, name ∈ ["title"; "description"; "tag"] ∧ ∀ r, r ∈ df → r !! name = None) →
  preprocess T STOPWORDS df class_to_index = None.
Proof.
  intros Hne [(r & c & Hr & Hc & Htext)|(name & Hname & Hnone)].
  - apply (preprocess_None_row T STOPWORDS df class_to_index r Hr).
    destruct Hc as [Hc|Hc]; rewrite Hc; simpl; auto.
  - destruct df as [|r df]; [done|].
    apply (preprocess_None_row T STOPWORDS (r :: df) class_to_index r); [left|].
    pose proof (Hnone r (list_elem_of_here r df)) as Hr.
    apply elem_of_cons in Hname as [->|Hname]; [rewrite Hr; auto|].
    apply elem_of_cons in Hname as [->|Hname]; [rewrite Hr; auto|].
    apply list_elem_of_singleton in Hname as ->. auto.
Qed.

(** The first batch with the title of its second record missing. *)
Definition batch_without_title : list row :=
  [ record 1 "2020-02-20" "Comparison of Transformers" "A look at BERT and GPT." "nlp";
    <["title" := Null]>
      (record 2 "2020-03-03" "Show, Infer and Tell" "Captions for the images!" "cv") ].

Lemma preprocess_rejects_witness :
  preprocess Demo.tokenizer stopwords1 batch_without_title mapping1 = None.
Proof.
  apply (preprocess_rejects Demo.tokenizer stopwords1 batch_without_title mapping1).
  - discriminate.
  - left.
    exists (<["title" := Null]>
              (record 2 "2020-03-03" "Show, Infer and Tell" "Captions for the images!"
                 "cv")), Null.
    split; [right; left|]. split; [left; reflexivity | reflexivity].
Defined.

(** X17: [tokenize] fails on a batch with at least one record in which
    some text is not a string (a missing value, a number), and on one
    that lacks the column text or tag. *)
Theorem tokenize_rejects (T : Tokenizer) (batch : list row) :
  batch ≠ [] →
  (∃ r c, r ∈ batch ∧ r !! "text" = Some c ∧ as_text c = None) ∨
  (∃ name, name ∈ ["text"; "tag"] ∧ ∀ r, r ∈ batch → r !! name = None) →
  tokenize T batch = None.
Proof.
  intros Hne Hbad.
  assert (∃ r, r ∈ batch ∧ (r !! "text" ≫= as_text = None ∨ r !! "tag" = None))
    as (r & Hr & Hrow).
  { destruct Hbad as [(r & c & Hr & Hc & Htext)|(name & Hname & Hnone)].
    - exists r. split; [done|]. left. by rewrite Hc.
    - destruct batch as [|r batch]; [done|]. exists r. split; [left|].
      pose proof (Hnone r (list_elem_of_here r batch)) as Hr.
      apply elem_of_cons in Hname as [->|Hname]; [left; by rewrite Hr|].
      apply list_elem_of_singleton in Hname as ->. by right. }
  unfold tokenize, column. rewrite mapM_bind.
  destruct Hrow as [Ht|Hg].
  - by rewrite (mapM_None_elem _ batch r Hr Ht).
  - rewrite (mapM_None_elem (λ r : row, r !! "tag") batch r Hr Hg).
    by destruct (mapM _ batch).
Qed.

Lemma tokenize_rejects_witness :
  tokenize Demo.tokenizer [ {[ "text" := Num 7; "tag" := Num 0 ]} ] = None.
Proof.
  apply (tokenize_rejects Demo.tokenizer).
  - discriminate.
  - left. exists {[ "text" := Num 7; "tag" := Num 0 ]}, (Num 7).
    split; [left|]. split; reflexivity.
Defined.

(** X18: what reaches the tokenizer.  When [preprocess] returns, its
    [ids] and [masks] are those of one text per record, in the order of
    the batch: the cleaned title, space and description of the record,
    made of lower-case letters, digits and spaces only. *)
Theorem preprocess_texts (T : Tokenizer) (STOPWORDS : list string)
    (df : list row) (class_to_index : dict cell nat) (out : outputs) :
  preprocess T STOPWORDS df class_to_index = Some out →
  ∃ texts,
    ids out = input_ids T texts ∧ masks out = attention_mask T texts ∧
    Forall2 (λ (r : row) text, ∃ title description,
               r !! "title" = Some (Str title) ∧
               r !! "description" = Some (Str description) ∧
               text = clean_text ((title +:+ " ") +:+ description) STOPWORDS)
      df texts ∧
    Forall (λ text, Forall clean_char (list_ascii_of_string text)) texts.
Proof.
  rewrite preprocess_rows.
  destruct (mapM (encode_row STOPWORDS class_to_index) df) as [rows|] eqn:Hrows;
    [|done].
  simpl. intros [= <-]. exists rows.*1. simpl. split; [done|]. split; [done|].
  apply mapM_Some_1 in Hrows.
  assert (Forall2 (λ (r : row) (e : string * cell), ∃ title description,
            r !! "title" = Some (Str title) ∧
            r !! "description" = Some (Str description) ∧
            e.1 = clean_text ((title +:+ " ") +:+ description) STOPWORDS)
            df rows) as Hall.
  { eapply Forall2_impl; [exact Hrows|]. intros r e. unfold encode_row.
    destruct (r !! "title") as [[title| |]|]; simpl; try done.
    destruct (r !! "description") as [[description| |]|]; simpl; try done.
    destruct (r !! "tag"); simpl; [|done]. intros [= <-]. by exists title, description. }
  split; [by apply Forall2_fmap_r|].
  apply Forall_fmap, Forall_forall. intros e He.
  apply list_elem_of_lookup in He as [i He].
  destruct (Forall2_lookup_r _ _ _ _ _ Hall He) as (r & _ & title & description & _ & _ & Heq).
  simpl. rewrite Heq. unfold clean_text.
  rewrite list_ascii_of_string_of_list_ascii. apply clean_chars_alphabet.
Qed.

Lemma preprocess_texts_witness :
  ∃ texts,
    ids {| ids := input_ids Demo.tokenizer
                    ["comparison transformers look bert gpt";
                     "show infer tell captions images"];
           masks := attention_mask Demo.tokenizer
                      ["comparison transformers look bert gpt";
                       "show infer tell captions images"];
           targets := [Num 0; Null] |} = input_ids Demo.tokenizer texts ∧
    masks {| ids := input_ids Demo.tokenizer
                      ["comparison transformers look bert gpt";
                       "show infer tell captions images"];
             masks := attention_mask Demo.tokenizer
                        ["comparison transformers look bert gpt";
                         "show infer tell captions images"];
             targets := [Num 0; Null] |} = attention_mask Demo.tokenizer texts ∧
    Forall2 (λ (r : row) text, ∃ title description,
               r !! "title" = Some (Str title) ∧
               r !! "description" = Some (Str description) ∧
               text = clean_text ((title +:+ " ") +:+ description) stopwords1)
      batch1 texts ∧
    Forall (λ text, Forall clean_char (list_ascii_of_string text)) texts.
Proof.
  apply (preprocess_texts Demo.tokenizer stopwords1 batch1 mapping1).
  vm_compute. reflexivity.
Defined.

(** The targets of the records of a batch that [preprocess] accepts. *)
Lemma preprocess_targets (T : Tokenizer) (STOPWORDS : list string)
    (df : list row) (c2i : dict cell nat) :
  well_formed df →
  ∃ out, preprocess T STOPWORDS df c2i = Some out ∧
    Forall2 (λ (r : row) t, ∃ tag, r !! "tag" = Some tag ∧ t = map_cell c2i tag)
      df (targets out).
Proof.
  intros Hdf. rewrite preprocess_rows.
  destruct (encode_rows_returns STOPWORDS df c2i Hdf) as (rows & -> & Hall).
  eexists. split; [reflexivity|]. simpl. by apply Forall2_fmap_r.
Qed.

(** [transform] on batches that [preprocess] accepts. *)
Lemma transform_batches (T : Tokenizer) (STOPWORDS : list string)
    (c2i : dict cell nat) (bs : list (list row)) :
  Forall well_formed bs →
  ∃ outs, mapM (λ b, preprocess T STOPWORDS b c2i) bs = Some outs ∧
    Forall2 (λ (r : row) t, ∃ tag, r !! "tag" = Some tag ∧ t = map_cell c2i tag)
      (concat bs) (concat (targets <$> outs)).
Proof.
  induction 1 as [|b bs Hb _ (outs & IH & Hall)].
  - by exists [].
  - destruct (preprocess_targets T STOPWORDS b c2i Hb) as (out & Hout & Hb').
    exists (out :: outs). simpl. rewrite Hout, IH. simpl. split; [done|].
    by apply Forall2_app.
Qed.

Lemma targets_fmap (c2i : dict cell nat) (l : list row) (ts : list cell) :
  Forall2 (λ (r : row) t, ∃ tag, r !! "tag" = Some tag ∧ t = map_cell c2i tag) l ts →
  ts = (λ r : row, map_cell c2i (default Null (r !! "tag"))) <$> l.
Proof.
  induction 1 as [|r t l ts (tag & Hg & ->) _ IH]; [done|].
  rewrite fmap_cons, <- IH. by rewrite Hg.
Qed.

Lemma well_formed_tags (c2i : dict cell nat) (ds : list row) :
  well_formed ds →
  ∃ tags, column "tag" ds = Some tags ∧
    map_cell c2i <$> tags
    = (λ r : row, map_cell c2i (default Null (r !! "tag"))) <$> ds.
Proof.
  induction 1 as [|r ds (title & description & tag & _ & _ & Hg) _ (tags & Hcol & IH)].
  - by exists [].
  - exists (tag :: tags). split.
    + unfold column in *. simpl. by rewrite Hg, Hcol.
    + by rewrite !fmap_cons, IH, Hg.
Qed.

(** X19: on a dataset whose records have a string title, a string
    description and a tag, [transform] returns one encoded batch for each
    batch of the dataset, and the targets of the batches, taken together,
    are the targets of the records of the dataset, each once, in whatever
    order the batches come: the index of the tag, or the missing value
    when the tag is not mapped.  No record is lost or encoded twice. *)
Theorem transform_targets (E : Engine) (T : Tokenizer) (STOPWORDS : list string)
    (self : CustomPreprocessor) (ds : list row) :
  EngineOk E → well_formed ds →
  ∃ outs tags,
    transform E T STOPWORDS self ds = Some outs ∧
    length outs = length (batches E ds) ∧
    column "tag" ds = Some tags ∧
    concat (targets <$> outs) ≡ₚ map_cell (class_to_index self) <$> tags.
Proof.
  intros HE Hds. unfold transform.
  assert (Forall well_formed (batches E ds)) as Hbs.
  { apply Forall_concat. by rewrite (batches_concat E HE). }
  destruct (transform_batches T STOPWORDS (class_to_index self) _ Hbs)
    as (outs & Hm & Hall).
  destruct (well_formed_tags (class_to_index self) ds Hds) as (tags & Hcol & Htags).
  exists outs, tags. split; [done|]. split; [|split; [done|]].
  - symmetry. by eapply length_mapM.
  - rewrite (targets_fmap _ _ _ Hall), Htags.
    apply fmap_Permutation, (batches_concat E HE).
Qed.

Lemma transform_targets_witness :
  ∃ outs tags,
    transform Demo.engine Demo.tokenizer stopwords1 (init mapping1) batch1
      = Some outs ∧
    length outs = length (batches Demo.engine batch1) ∧
    column "tag" batch1 = Some tags ∧
    concat (targets <$> outs) ≡ₚ map_cell (class_to_index (init mapping1)) <$> tags.
Proof.
  exact (transform_targets Demo.engine Demo.tokenizer stopwords1 (init mapping1)
           batch1 DemoFacts.engine_ok batch1_well_formed).
Defined.

Lemma targets_unmapped (ds : list row) (ts : list cell) :
  Forall2 (λ (r : row) t, ∃ tag, r !! "tag" = Some tag ∧ t = map_cell [] tag) ds ts →
  ts = replicate (length ds) Null.
Proof.
  induction 1 as [|r t ds' ts' (tag & _ & ->) _ IH]; [done|].
  simpl. by rewrite IH.
Qed.

(** X20: a preprocessor that was not fitted (and was given no mapping)
    raises no error in [transform]: every target is the missing value. *)
Theorem transform_unfitted (E : Engine) (T : Tokenizer) (STOPWORDS : list string)
    (ds : list row) :
  EngineOk E → well_formed ds →
  ∃ outs, transform E T STOPWORDS (init []) ds = Some outs ∧
    concat (targets <$> outs) = replicate (length ds) Null.
Proof.
  intros HE Hds. unfold transform.
  assert (Forall well_formed (batches E ds)) as Hbs.
  { apply Forall_concat. by rewrite (batches_concat E HE). }
  destruct (transform_batches T STOPWORDS (class_to_index (init [])) _ Hbs)
    as (outs & Hm & Hall).
  exists outs. split; [done|].
  rewrite (targets_unmapped _ _ Hall).
  by rewrite (Permutation_length (batches_concat E HE ds)).
Qed.

Lemma transform_unfitted_witness :
  ∃ outs, transform Demo.engine Demo.tokenizer stopwords1 (init []) batch1 = Some outs ∧
    concat (targets <$> outs) = replicate (length batch1) Null.
Proof.
  exact (transform_unfitted Demo.engine Demo.tokenizer stopwords1 batch1
           DemoFacts.engine_ok batch1_well_formed).
Defined.

(** X21: labels survive the round trip.  After [fit] on a dataset, the
    target that [preprocess] computes with the fitted mapping for a
    record whose tag occurs in the dataset is an index, never the missing
    value, and [index_to_class] gives the tag back for it. *)
Theorem fit_preprocess_decodes (E : Engine) (T : Tokenizer)
    (STOPWORDS : list string) (self : CustomPreprocessor)
    (ds : list row) (tags : list cell) (df : list row) :
  EngineOk E →
  column "tag" ds = Some tags →
  well_formed df →
  (∀ (r : row) tag, r ∈ df → r !! "tag" = Some tag → tag ∈ tags) →
  ∃ p out,
    fit E self ds = Some p ∧
    preprocess T STOPWORDS df (class_to_index p) = Some out ∧
    ∀ i (r : row) tag, df !! i = Some r → r !! "tag" = Some tag →
      ∃ index, targets out !! i = Some (Num (Z.of_nat index)) ∧
               dict_get index (index_to_class p) = Some tag.
Proof.
  intros HE Hcol Hdf Htags. unfold fit. rewrite Hcol. simpl.
  pose proof (unique_NoDup E HE tags) as Hnd.
  pose proof (unique_elem E HE tags) as Hel.
  set (u := unique E tags) in *.
  destruct (fit_dicts u Hnd) as [Hc2i Hi2c].
  eexists. rewrite Hc2i, Hi2c.
  destruct (preprocess_targets T STOPWORDS df
              ((λ it : nat * cell, (it.2, it.1)) <$> enumerate u) Hdf)
    as (out & Hout & Hall).
  exists out. split; [reflexivity|]. split; [exact Hout|].
  intros i r tag Hr Hg.
  destruct (Forall2_lookup_l _ _ _ _ _ Hall Hr) as (t & Ht & tag' & Hg' & ->).
  assert (tag' = tag) as -> by congruence.
  assert (tag ∈ u) as [index Hindex]%list_elem_of_lookup.
  { apply Hel, (Htags r); [by eapply list_elem_of_lookup_2 | done]. }
  exists index. split.
  - rewrite Ht. unfold map_cell.
    by rewrite (proj2 (class_index_lookup u tag index Hnd) Hindex).
  - simpl. by apply index_class_lookup.
Qed.

Lemma batch1_tags (r : row) (tag : cell) :
  r ∈ batch1 → r !! "tag" = Some tag → tag ∈ SplitFacts.sample_tags.
Proof.
  intros Hr Hg.
  apply elem_of_cons in Hr as [->|Hr]; [|apply elem_of_cons in Hr as [->|Hr]].
  - vm_compute in Hg. injection Hg as <-. left.
  - vm_compute in Hg. injection Hg as <-. right; left.
  - by apply elem_of_nil in Hr.
Qed.

Lemma fit_preprocess_decodes_witness :
  ∃ p out,
    fit Demo.engine (init []) SplitFacts.samples = Some p ∧
    preprocess Demo.tokenizer stopwords1 batch1 (class_to_index p) = Some out ∧
    ∀ i (r : row) tag, batch1 !! i = Some r → r !! "tag" = Some tag →
      ∃ index, targets out !! i = Some (Num (Z.of_nat index)) ∧
               dict_get index (index_to_class p) = Some tag.
Proof.
  exact (fit_preprocess_decodes Demo.engine Demo.tokenizer stopwords1 (init [])
           SplitFacts.samples SplitFacts.sample_tags batch1
           DemoFacts.engine_ok SplitFacts.samples_column batch1_well_formed
           batch1_tags).
Defined.

End PipelineLaws.
